(** * CHC graphs and induction engines of golem: a shallow embedding

    The development follows [src/engine/AcceleratedBmc.h] (which also holds
    the text of [Kind.cc] and [ChcGraph.cc]).  Graph operations that mutate
    the graph and may throw are written in a state-and-exception monad whose
    state survives a throw, as the state of a C++ object does. *)

From stdpp Require Import base option list gmap sets fin_maps strings.
From Stdlib Require Import ZArith.

(** [SymRef] and [EId] are integer handles in the source. *)
Abbreviation SymRef := nat (only parsing).
Abbreviation EId := nat (only parsing).

(** ** Exceptions and the state monad *)

Inductive exn : Type :=
  | logic_error (what : string)
  | out_of_range
  | assertion_failure.

Definition St (S A : Type) : Type := S → (exn + A) * S.

Definition st_ret {S A} (a : A) : St S A := λ s, (inr a, s).

Definition st_bind {S A B} (k : A → St S B) (m : St S A) : St S B :=
  λ s, match m s with
       | (inl e, s') => (inl e, s')
       | (inr a, s') => k a s'
       end.

#[global] Instance St_ret {S} : MRet (St S) := @st_ret S.
#[global] Instance St_bind {S} : MBind (St S) := @st_bind S.

Definition throw {S A} (e : exn) : St S A := λ s, (inl e, s).
Definition get {S} : St S S := λ s, (inr s, s).
Definition put {S} (s : S) : St S unit := λ _, (inr tt, s).

(** [assert(c)]: a failed assertion aborts. *)
Definition assert {S} (c : bool) : St S unit :=
  if c then mret tt else throw assertion_failure.

(** A value read through [std::map::at]/[unordered_map::at]. *)
Definition at_ {S A} (o : option A) : St S A :=
  match o with Some a => mret a | None => throw out_of_range end.

(** Range-based [for] over a vector, with a body that may throw. *)
Fixpoint for_each {S A} (l : list A) (body : A → St S unit) : St S unit :=
  match l with
  | [] => mret tt
  | a :: l' => _ ← body a; for_each l' body
  end.

(** ** The term layer *)

Module TermLayer.

(** Modelled from the spec: the term library is an external collaborator.
    A [PTRef] is a handle to a hash-consed term, so two handles are equal
    exactly when the terms are; it is identified with the term.  A variable
    carries a base name and an integer version (0 is the current state, 1 the
    next state). *)
#[warnings="-register-all"]
Inductive PTRef : Type :=
  | Var (name : nat) (version : Z)
  | App (sym : SymRef) (args : list PTRef).

(** [std::unordered_map<PTRef, PTRef>], keyed by variables. *)
Abbreviation substitutions_map := (gmap (nat * Z) PTRef) (only parsing).

(** The operations of [Logic] and of [TrivialQuantifierElimination] the graph
    code calls.  They simplify their result, so they are kept abstract. *)
Record Logic : Type := {
  getSym_true : SymRef;
  getSym_false : SymRef;
  mkOr : list PTRef → PTRef;
  mkAnd : list PTRef → PTRef;
  tryEliminateVars : list PTRef → PTRef → PTRef;
  tryEliminateVarsExcept : list PTRef → PTRef → PTRef
}.

(** Modelled from the spec: [TermUtils::predicateArgsInOrder], the arguments
    of a predicate term. *)
Definition predicateArgsInOrder (t : PTRef) : list PTRef :=
  match t with
  | App _ args => args
  | Var _ _ => []
  end.

(** [unordered_map::insert]: an existing key keeps its value. *)
Definition subst_insert (k : nat * Z) (v : PTRef) (subst : substitutions_map)
  : substitutions_map :=
  match subst !! k with
  | Some _ => subst
  | None => <[k := v]> subst
  end.

(** Modelled from the spec: [TermUtils::mapFromPredicate(domain, codomain,
    subst)] maps the i-th argument of [domain] to the i-th argument of
    [codomain].  The arguments of a canonical predicate term are variables;
    an argument that is not a variable gets no entry. *)
Fixpoint mapArgs (dom cod : list PTRef) (subst : substitutions_map)
  : substitutions_map :=
  match dom, cod with
  | Var x v :: dom', c :: cod' => mapArgs dom' cod' (subst_insert (x, v) c subst)
  | _ :: dom', _ :: cod' => mapArgs dom' cod' subst
  | _, _ => subst
  end.

Definition mapFromPredicate (domain codomain : PTRef) (subst : substitutions_map)
  : substitutions_map :=
  mapArgs (predicateArgsInOrder domain) (predicateArgsInOrder codomain) subst.

(** Modelled from the spec: [TermUtils::varSubstitute], the simultaneous
    substitution of variables. *)
Fixpoint varSubstitute (t : PTRef) (subst : substitutions_map) : PTRef :=
  match t with
  | Var x v => default t (subst !! (x, v))
  | App f args => App f (List.map (λ a, varSubstitute a subst) args)
  end.

(** The variables of a term. *)
Fixpoint vars (t : PTRef) : list (nat * Z) :=
  match t with
  | Var x v => [(x, v)]
  | App _ args => List.concat (List.map vars args)
  end.

(** Modelled from the spec: the linear canonical representation keeps, for
    each predicate symbol, the base variables of its state tuple; the state
    tuple has them at version 0 and the next-state tuple at version 1. *)
Record LinearCanonicalPredicateRepresentation : Type := {
  representation : SymRef → list nat
}.

Definition getStateVersionOf (p : LinearCanonicalPredicateRepresentation)
    (sym : SymRef) : PTRef :=
  App sym (List.map (λ x, Var x 0) (representation p sym)).

Definition getNextStateVersionOf (p : LinearCanonicalPredicateRepresentation)
    (sym : SymRef) : PTRef :=
  App sym (List.map (λ x, Var x 1) (representation p sym)).

(** Modelled from the spec: the nonlinear canonical representation of a
    hypergraph gives each symbol a state term and a next-state term. *)
Record NonlinearCanonicalPredicateRepresentation : Type := {
  sourceTermFor : SymRef → PTRef;
  targetTermFor : SymRef → PTRef
}.

(** Modelled from the spec: [Logic::isVar]. *)
Definition isVar (t : PTRef) : bool :=
  match t with
  | Var _ _ => true
  | App _ _ => false
  end.

(** [operator==] of [PTRef]: two handles are equal when the terms are. *)
Fixpoint PTRef_eqb (t u : PTRef) : bool :=
  match t, u with
  | Var x v, Var y w => bool_decide (x = y) && bool_decide (v = w)
  | App f ts, App g us =>
      bool_decide (f = g)
      && (fix all2 (ts us : list PTRef) : bool :=
            match ts, us with
            | [], [] => true
            | t' :: ts', u' :: us' => PTRef_eqb t' u' && all2 ts' us'
            | _, _ => false
            end) ts us
  | _, _ => false
  end.

(** Modelled from the spec: [Logic::getTerm_false], the constant of the
    falsehood symbol. *)
Definition getTerm_false (l : Logic) : PTRef := App (getSym_false l) [].

End TermLayer.

Export TermLayer.

(** ** Adjacency lists *)

(** Modelled from the spec: [AdjacencyListsGraphRepresentation] is declared
    in [ChcGraph.h]; it holds two maps from a vertex to the ids of its
    incoming and of its outgoing edges. *)
Record AdjacencyListsGraphRepresentation : Type := {
  incoming : gmap SymRef (list EId);
  outgoing : gmap SymRef (list EId)
}.

(** [m[k].push_back(x)] *)
Definition push_back `{Countable K} {A} (k : K) (x : A) (m : gmap K (list A))
  : gmap K (list A) :=
  <[k := default [] (m !! k) ++ [x]]> m.

(** [m[k];] creates an empty entry when there is none. *)
Definition touch `{Countable K} {A} (k : K) (m : gmap K (list A))
  : gmap K (list A) :=
  match m !! k with
  | Some _ => m
  | None => <[k := []]> m
  end.

(** Modelled from the spec: [getIncomingEdgesFor] is declared in
    [ChcGraph.h]; it reads the entry of a vertex, which exists for every
    endpoint of every edge; a symbol without entry is out of range. *)
Definition getIncomingEdgesFor {S} (a : AdjacencyListsGraphRepresentation)
    (sym : SymRef) : St S (list EId) := at_ (incoming a !! sym).

(** Modelled from the spec: [getOutgoingEdgesFor], as [getIncomingEdgesFor]. *)
Definition getOutgoingEdgesFor {S} (a : AdjacencyListsGraphRepresentation)
    (sym : SymRef) : St S (list EId) := at_ (outgoing a !! sym).

(** ** Linear graphs *)

Module ChcDirectedGraph.

(** Modelled from the spec: [DirectedEdge] is declared in [ChcGraph.h], with
    the fields the source reads and writes.  [fla] stands for
    [InterpretedFla], a wrapper of one [PTRef]. *)
Record DirectedEdge : Type := {
  from : SymRef;
  to : SymRef;
  fla : PTRef;
  id : EId
}.

Definition set_fla (l : PTRef) (e : DirectedEdge) : DirectedEdge :=
  {| from := from e; to := to e; fla := l; id := id e |}.

(** Modelled from the spec: the members of the class: the edges by id, the
    canonical representation of the predicates, and the logic. *)
Record t : Type := {
  edges : gmap EId DirectedEdge;
  predicates : LinearCanonicalPredicateRepresentation;
  logic : Logic
}.

Definition set_edges (es : gmap EId DirectedEdge) (g : t) : t :=
  {| edges := es; predicates := predicates g; logic := logic g |}.

(** Modelled from the spec: [forEachEdge] is declared in [ChcGraph.h]; it
    visits the edges in the iteration order of the container. *)
Definition forEachEdge (g : t) : list DirectedEdge := (map_to_list (edges g)).*2.

(** Modelled from the spec: the entry is the truth constant and the exit the
    falsehood constant. *)
Definition getEntry (g : t) : SymRef := getSym_true (logic g).
Definition getExit (g : t) : SymRef := getSym_false (logic g).

(** Modelled from the spec: the state tuple and the next-state tuple of a
    predicate, read from the canonical representation. *)
Definition getStateVersion (g : t) (sym : SymRef) : PTRef :=
  getStateVersionOf (predicates g) sym.
Definition getNextStateVersion (g : t) (sym : SymRef) : PTRef :=
  getNextStateVersionOf (predicates g) sym.

(** Modelled from the spec: [getEdge] reads the edge stored under an id. *)
Definition getEdge (eid : EId) : St t DirectedEdge :=
  g ← get; at_ (edges g !! eid).

(** Modelled from the spec: [newEdge] stores the edge under an id that no
    edge of the graph uses, and returns this id. *)
Definition newEdge (src dst : SymRef) (label : PTRef) : St t EId :=
  g ← get;
  let eid := fresh (dom (edges g)) in
  _ ← put (set_edges
             (<[eid := {| from := src; to := dst; fla := label; id := eid |}]>
                (edges g)) g);
  mret eid.

(** Modelled from the spec: [deleteMatchingEdges] erases the edges the
    predicate holds of. *)
Definition deleteMatchingEdges (p : DirectedEdge → bool) : St t unit :=
  g ← get;
  put (set_edges (filter (λ kv, p kv.2 = false) (edges g)) g).

(** Modelled from the spec: the constructor from a vector of edges gives
    every edge an id of its own, in the order of the vector. *)
Definition make (es : list DirectedEdge)
    (p : LinearCanonicalPredicateRepresentation) (l : Logic) : t :=
  foldl (λ g e, (newEdge (from e) (to e) (fla e) g).2)
        {| edges := ∅; predicates := p; logic := l |} es.

Definition getVertices (g : t) : list SymRef :=
  let vertices : gset SymRef :=
    foldl (λ vs edge, {[ to edge ]} ∪ vs) ∅ (forEachEdge g) in
  let vertices := {[ getEntry g ]} ∪ vertices in
  elements vertices.

Definition reverseEdge (g : t) (edge : DirectedEdge) : DirectedEdge :=
  let rfrom := to edge in
  let rto := from edge in
  let ofla := fla edge in
  let subst : substitutions_map := ∅ in
  let subst := mapFromPredicate (getStateVersion g (from edge))
                                (getNextStateVersion g (from edge)) subst in
  let subst := mapFromPredicate (getNextStateVersion g (to edge))
                                (getStateVersion g (to edge)) subst in
  let rfla := varSubstitute ofla subst in
  {| from := rfrom; to := rto; fla := rfla; id := id edge |}.

(** The results of [swapTrueFalse] are discarded in the source. *)
Definition reverse (g : t) : t :=
  let redges := foldl (λ redges edge, redges ++ [reverseEdge g edge])
                      [] (forEachEdge g) in
  make redges (predicates g) (logic g).

Definition adjacencyFrom (g : t) : AdjacencyListsGraphRepresentation :=
  foldl (λ a edge,
           let inc := push_back (to edge) (id edge) (incoming a) in
           let out := push_back (from edge) (id edge) (outgoing a) in
           let inc := touch (from edge) inc in
           let out := touch (to edge) out in
           {| incoming := inc; outgoing := out |})
        {| incoming := ∅; outgoing := ∅ |} (forEachEdge g).

Definition mergeLabels (g : t) (incoming outgoing : DirectedEdge) : St t PTRef :=
  _ ← assert (bool_decide (to incoming = from outgoing));
  let incomingLabel := fla incoming in
  let outgoingLabel := fla outgoing in
  let subMap := mapFromPredicate (getNextStateVersion g (to incoming))
                                 (getStateVersion g (from outgoing)) ∅ in
  let updatedIncomingLabel := varSubstitute incomingLabel subMap in
  let combinedLabel := mkAnd (logic g) [updatedIncomingLabel; outgoingLabel] in
  let simplifiedLabel :=
    tryEliminateVars (logic g)
      (predicateArgsInOrder (getStateVersion g (from outgoing))) combinedLabel in
  mret simplifiedLabel.

Definition mergeEdges (incomingId outgoingId : EId) : St t unit :=
  incoming ← getEdge incomingId;
  outgoing ← getEdge outgoingId;
  if bool_decide (to incoming ≠ from outgoing)
  then throw (logic_error
    "ChcDirectedGraph::mergeEdges: Trying to merge edges without common node!")
  else
    let source := from incoming in
    let target := to outgoing in
    g ← get;
    mergedLabel ← mergeLabels g incoming outgoing;
    _ ← newEdge source target mergedLabel;
    mret tt.

Definition deleteNode (sym : SymRef) : St t unit :=
  deleteMatchingEdges (λ edge,
    bool_decide (from edge = sym) || bool_decide (to edge = sym)).

Definition contractVertex (sym : SymRef) : St t unit :=
  g ← get;
  let adjacencyList := adjacencyFrom g in
  incomingEdges ← getIncomingEdgesFor adjacencyList sym;
  outgoingEdges ← getOutgoingEdgesFor adjacencyList sym;
  _ ← for_each incomingEdges (λ incomingId,
        e ← getEdge incomingId;
        _ ← assert (bool_decide (to e ≠ from e));
        for_each outgoingEdges (λ outgoingId,
          e ← getEdge outgoingId;
          _ ← assert (bool_decide (to e ≠ from e));
          mergeEdges incomingId outgoingId));
  deleteNode sym.

(** [edges[index].fla] for the indices of a bucket.  The indices of a bucket
    are ids of edges of the graph. *)
Definition bucketLabels (es : gmap EId DirectedEdge) (bucket : list EId)
  : list PTRef :=
  omap (λ index, fla <$> es !! index) bucket.

Definition mergeMultiEdges (g : t) : t :=
  let buckets : gmap (SymRef * SymRef) (list EId) :=
    foldl (λ buckets edge, push_back (from edge, to edge) (id edge) buckets)
          ∅ (forEachEdge g) in
  let '(es, edgesToRemove) :=
    foldl (λ '(es, edgesToRemove) bucketEntry,
             let bucket : list EId := bucketEntry.2 in
             if bool_decide (length bucket < 2) then (es, edgesToRemove)
             else
               let labels := bucketLabels es bucket in
               let es := match head bucket with
                         | Some b0 => alter (set_fla (mkOr (logic g) labels)) b0 es
                         | None => es
                         end in
               (es, edgesToRemove ++ tail bucket))
          (edges g, []) (map_to_list buckets) in
  set_edges (foldl (λ es eid, delete eid es) es edgesToRemove) g.

(** Modelled from the spec: [getTarget] reads the target of the edge stored
    under an id. *)
Definition getTarget (eid : EId) : St t SymRef :=
  e ← getEdge eid; mret (to e).

End ChcDirectedGraph.

(** ** Searches in a linear graph *)

(** [std::find_if], with a predicate that may throw. *)
Fixpoint find_if {S A} (p : A → St S bool) (l : list A) : St S (option A) :=
  match l with
  | [] => mret None
  | a :: l' => b ← p a; if b : bool then mret (Some a) else find_if p l'
  end.

(** [getSelfLoopFor(sym, graph, adjacencyRepresentation)]; the graph, which
    is only read, is the state. *)
Definition getSelfLoopFor (sym : SymRef)
    (adjacencyRepresentation : AdjacencyListsGraphRepresentation)
  : St ChcDirectedGraph.t (option EId) :=
  outEdges ← getOutgoingEdgesFor adjacencyRepresentation sym;
  find_if (λ eid,
             tgt ← ChcDirectedGraph.getTarget eid;
             mret (bool_decide (tgt = sym)))
          outEdges.

Module DFS.

(** A computation of [St] that recurses: it is given a recursion depth, and
    gives [None] when it would go deeper. *)
Definition Rec (S A : Type) : Type := S → option ((exn + A) * S).

Definition rec_ret {S A} (a : A) : Rec S A := λ s, Some (inr a, s).

Definition rec_bind {S A B} (k : A → Rec S B) (m : Rec S A) : Rec S B :=
  λ s, match m s with
       | None => None
       | Some (inl e, s') => Some (inl e, s')
       | Some (inr a, s') => k a s'
       end.

#[export] Instance Rec_ret {S} : MRet (Rec S) := @rec_ret S.
#[export] Instance Rec_bind {S} : MBind (Rec S) := @rec_bind S.

Definition too_deep {S A} : Rec S A := λ _ : S, None.

Fixpoint for_each_rec {S A} (l : list A) (body : A → Rec S unit) : Rec S unit :=
  match l with
  | [] => mret tt
  | a :: l' => _ ← body a; for_each_rec l' body
  end.

(** The members of the class that change, and [X], what the two actions
    have captured by reference. *)
Record t (X : Type) : Type := {
  marked : gset SymRef;
  captured : X
}.
Arguments marked {X} _.
Arguments captured {X} _.

Section DFS.
Context {X : Type}.
Variable graph : ChcDirectedGraph.t.
Variable adjacencyRepresentation : AdjacencyListsGraphRepresentation.

Definition isMarked (sym : SymRef) : Rec (t X) bool :=
  λ s, Some (inr (bool_decide (sym ∈ marked s)), s).

Definition mark (sym : SymRef) : Rec (t X) unit :=
  λ s, Some (inr tt, {| marked := {[ sym ]} ∪ marked s; captured := captured s |}).

(** A call of an action. *)
Definition act (f : X → X) : Rec (t X) unit :=
  λ s, Some (inr tt, {| marked := marked s; captured := f (captured s) |}).

(** A call of a method of the graph or of the adjacency lists, which are
    only read. *)
Definition read {S A} (m : St ChcDirectedGraph.t A) : Rec S A :=
  λ s, Some ((m graph).1, s).

Fixpoint runOnVertex (depth : nat) (sym : SymRef)
    (preorder postorder : SymRef → X → X) : Rec (t X) unit :=
  match depth with
  | 0 => too_deep
  | S depth' =>
      m ← isMarked sym;
      if m : bool then mret tt
      else
        _ ← mark sym;
        _ ← act (preorder sym);
        outs ← read (getOutgoingEdgesFor adjacencyRepresentation sym);
        _ ← for_each_rec outs (λ outEdge,
              tgt ← read (ChcDirectedGraph.getTarget outEdge);
              runOnVertex depth' tgt preorder postorder);
        act (postorder sym)
  end.

Definition run (depth : nat) (preorder postorder : SymRef → X → X)
  : Rec (t X) unit :=
  runOnVertex depth (ChcDirectedGraph.getEntry graph) preorder postorder.

End DFS.

End DFS.

(** [postOrder(graph, adjacencyRepresentation)], given a recursion depth. *)
Definition postOrder (depth : nat) (graph : ChcDirectedGraph.t)
    (adjacencyRepresentation : AdjacencyListsGraphRepresentation)
  : option (exn + list SymRef) :=
  let order : list SymRef := [] in
  match DFS.run graph adjacencyRepresentation depth
          (λ _ order, order) (λ v order, order ++ [v])
          {| DFS.marked := ∅; DFS.captured := order |} with
  | None => None
  | Some (inl e, _) => Some (inl e)
  | Some (inr _, s) => Some (inr (DFS.captured s))
  end.

Definition reversePostOrder (depth : nat) (graph : ChcDirectedGraph.t)
    (adjacencyRepresentation : AdjacencyListsGraphRepresentation)
  : option (exn + list SymRef) :=
  match postOrder depth graph adjacencyRepresentation with
  | None => None
  | Some (inl e) => Some (inl e)
  | Some (inr order) => Some (inr (reverse order))
  end.

(** ** Hypergraphs *)

Module ChcDirectedHyperGraph.

(** Modelled from the spec: [DirectedHyperEdge] is declared in [ChcGraph.h];
    [from] is the vector of the sources. *)
Record DirectedHyperEdge : Type := {
  from : list SymRef;
  to : SymRef;
  fla : PTRef;
  id : EId
}.

Definition set_fla (l : PTRef) (e : DirectedHyperEdge) : DirectedHyperEdge :=
  {| from := from e; to := to e; fla := l; id := id e |}.

(** Modelled from the spec: the members of the class, as for linear
    graphs. *)
Record t : Type := {
  edges : gmap EId DirectedHyperEdge;
  predicates : NonlinearCanonicalPredicateRepresentation;
  logic : Logic
}.

Definition set_edges (es : gmap EId DirectedHyperEdge) (g : t) : t :=
  {| edges := es; predicates := predicates g; logic := logic g |}.

(** Modelled from the spec: [forEachEdge], as for linear graphs. *)
Definition forEachEdge (g : t) : list DirectedHyperEdge :=
  (map_to_list (edges g)).*2.

(** Modelled from the spec: the entry is the truth constant. *)
Definition getEntry (g : t) : SymRef := getSym_true (logic g).

(** Modelled from the spec: the state term and the next-state term of a
    predicate, read from the canonical representation. *)
Definition getStateVersion (g : t) (sym : SymRef) : PTRef :=
  sourceTermFor (predicates g) sym.
Definition getNextStateVersion (g : t) (sym : SymRef) : PTRef :=
  targetTermFor (predicates g) sym.

(** Modelled from the spec: [getEdge], [getSources], [getTarget] and
    [getEdgeLabel] read the edge stored under an id. *)
Definition getEdge (eid : EId) : St t DirectedHyperEdge :=
  g ← get; at_ (edges g !! eid).
Definition getSources (eid : EId) : St t (list SymRef) :=
  e ← getEdge eid; mret (from e).
Definition getTarget (eid : EId) : St t SymRef :=
  e ← getEdge eid; mret (to e).
Definition getEdgeLabel (eid : EId) : St t PTRef :=
  e ← getEdge eid; mret (fla e).

(** Modelled from the spec: [newEdge] stores the edge under an id that no
    edge of the graph uses, and returns this id. *)
Definition newEdge (srcs : list SymRef) (dst : SymRef) (label : PTRef)
  : St t EId :=
  g ← get;
  let eid := fresh (dom (edges g)) in
  _ ← put (set_edges
             (<[eid := {| from := srcs; to := dst; fla := label; id := eid |}]>
                (edges g)) g);
  mret eid.

(** Modelled from the spec: [deleteMatchingEdges] erases the edges the
    predicate holds of. *)
Definition deleteMatchingEdges (p : DirectedHyperEdge → bool) : St t unit :=
  g ← get;
  put (set_edges (filter (λ kv, p kv.2 = false) (edges g)) g).

Definition getVertices (g : t) : list SymRef :=
  let vertices : gset SymRef :=
    foldl (λ vs edge, {[ to edge ]} ∪ vs) ∅ (forEachEdge g) in
  let vertices := {[ getEntry g ]} ∪ vertices in
  elements vertices.

Definition adjacencyFrom (g : t) : AdjacencyListsGraphRepresentation :=
  foldl (λ a edge,
           let inc := push_back (to edge) (id edge) (incoming a) in
           let '(inc, out) :=
             foldl (λ '(inc, out) sym,
                      (touch sym inc, push_back sym (id edge) out))
                   (inc, outgoing a) (from edge) in
           let out := touch (to edge) out in
           {| incoming := inc; outgoing := out |})
        {| incoming := ∅; outgoing := ∅ |} (forEachEdge g).

Definition deleteNode (sym : SymRef) : St t unit :=
  deleteMatchingEdges (λ edge,
    bool_decide (to edge = sym) || bool_decide (sym ∈ from edge)).

(** The loop of [mergeLabels] over the consecutive edges of the chain. *)
Fixpoint chainSubst (g : t) (chain : list EId) (subMap : substitutions_map)
  : St t substitutions_map :=
  match chain with
  | incoming :: ((outgoing :: _) as rest) =>
      common ← getTarget incoming;
      srcs ← getSources outgoing;
      _ ← assert (bool_decide (length srcs = 1)
                  && bool_decide (head srcs = Some common));
      chainSubst g rest
        (mapFromPredicate (getNextStateVersion g common)
                          (getStateVersion g common) subMap)
  | _ => mret subMap
  end.

(** A loop that collects a result for each element of a vector. *)
Fixpoint map_m {S A B} (f : A → St S B) (l : list A) : St S (list B) :=
  match l with
  | [] => mret []
  | a :: l' => b ← f a; bs ← map_m f l'; mret (b :: bs)
  end.

Definition mergeLabels (chain : list EId) : St t PTRef :=
  _ ← assert (bool_decide (2 ≤ length chain));
  front ← at_ (head chain);
  back ← at_ (last chain);
  srcs ← getSources front;
  source ← at_ (head srcs);
  target ← getTarget back;
  labels ← map_m getEdgeLabel chain;
  g ← get;
  subMap ← chainSubst g chain ∅;
  let combinedLabel := mkAnd (logic g) labels in
  let updatedLabel := varSubstitute combinedLabel subMap in
  let simplifiedLabel :=
    tryEliminateVarsExcept (logic g)
      (predicateArgsInOrder (getStateVersion g source)
       ++ predicateArgsInOrder (getNextStateVersion g target)) updatedLabel in
  mret simplifiedLabel.

Definition mergeEdges (chain : list EId) : St t DirectedHyperEdge :=
  front ← at_ (head chain);
  srcs ← getSources front;
  _ ← assert (bool_decide (length srcs = 1));
  source ← at_ (head srcs);
  back ← at_ (last chain);
  target ← getTarget back;
  mergedLabel ← mergeLabels chain;
  eid ← newEdge [source] target mergedLabel;
  getEdge eid.

Definition contractVertex (sym : SymRef) : St t unit :=
  g ← get;
  let adjacencyList := adjacencyFrom g in
  incomingEdges ← getIncomingEdgesFor adjacencyList sym;
  outgoingEdges ← getOutgoingEdgesFor adjacencyList sym;
  _ ← for_each incomingEdges (λ incomingId,
        srcs ← getSources incomingId;
        if bool_decide (1 < length srcs)
        then throw (logic_error "Unable to contract vertex with hyperedge!")
        else
          for_each outgoingEdges (λ outgoingId,
            srcs ← getSources outgoingId;
            if bool_decide (1 < length srcs)
            then throw (logic_error "Unable to contract vertex with hyperedge!")
            else
              _ ← mergeEdges [incomingId; outgoingId];
              mret tt));
  deleteNode sym.

(** [edges[index].fla] for the indices of a bucket.  The indices of a bucket
    are ids of edges of the graph. *)
Definition bucketLabels (es : gmap EId DirectedHyperEdge) (bucket : list EId)
  : list PTRef :=
  omap (λ index, fla <$> es !! index) bucket.

Definition mergeMultiEdges (g : t) : bool * t :=
  let changed := false in
  let buckets : gmap (SymRef * SymRef) (list EId) :=
    foldl (λ buckets edge,
             match from edge with
             | [source] => push_back (source, to edge) (id edge) buckets
             | _ => buckets
             end)
          ∅ (forEachEdge g) in
  let '(changed, es) :=
    foldl (λ '(changed, es) bucketEntry,
             let bucket : list EId := bucketEntry.2 in
             if bool_decide (length bucket < 2) then (changed, es)
             else
               let labels := bucketLabels es bucket in
               let es := match head bucket with
                         | Some b0 => alter (set_fla (mkOr (logic g) labels)) b0 es
                         | None => es
                         end in
               let es := foldl (λ es eid, delete eid es) es (tail bucket) in
               (true, es))
          (changed, edges g) (map_to_list buckets) in
  (changed, set_edges es g).

(** Modelled from the spec: the constructor from a vector of edges gives
    every edge an id of its own, in the order of the vector. *)
Definition make (es : list DirectedHyperEdge)
    (p : NonlinearCanonicalPredicateRepresentation) (l : Logic) : t :=
  foldl (λ g e, (newEdge (from e) (to e) (fla e) g).2)
        {| edges := ∅; predicates := p; logic := l |} es.

(** [std::all_of], with a predicate that may fail an assertion. *)
Fixpoint all_of {S A} (p : A → St S bool) (l : list A) : St S bool :=
  match l with
  | [] => mret true
  | a :: l' => b ← p a; if b : bool then all_of p l' else mret false
  end.

Definition isNormalGraph : St t bool :=
  g ← get;
  all_of (λ entry : EId * DirectedHyperEdge,
            let sources := from entry.2 in
            _ ← assert (negb (bool_decide (sources = [])));
            mret (bool_decide (length sources = 1)))
         (map_to_list (edges g)).

Definition getEdges (g : t) : list DirectedHyperEdge :=
  foldl (λ edges edge, edges ++ [edge]) [] (forEachEdge g).

Definition contractTrivialChain (trivialChain : list EId)
  : St t DirectedHyperEdge :=
  _ ← assert (bool_decide (2 ≤ length trivialChain));
  summaryEdge ← mergeEdges trivialChain;
  vertices ← map_m getTarget trivialChain;
  (* We want to keep the last one *)
  let vertices := removelast vertices in
  _ ← for_each vertices deleteNode;
  mret summaryEdge.

Definition deleteFalseEdges : St t unit :=
  g ← get;
  deleteMatchingEdges (λ edge, PTRef_eqb (fla edge) (getTerm_false (logic g))).

(** [std::vector::resize(n)]: the first [n] elements, filled up with [d]. *)
Definition resize {A} (n : nat) (d : A) (l : list A) : list A :=
  take n l ++ replicate (n - length l) d.

Module VertexInstances.

(** Modelled from the spec: the member [instanceCounter] gives, for the id
    of an edge, the instance number of each of its source slots.  The
    numbers are [unsigned], of 32 bits. *)
Record t : Type := {
  instanceCounter : gmap EId (list N)
}.

(** The loop over the source slots of [edge].  The counter [sourceIndex] is
    an [unsigned], of 32 bits, and is compared with the size of the vector,
    of 64 bits: on an edge with [2^32] sources or more it wraps around to 0
    before it reaches the size, and the loop does not end.  So the loop
    takes fuel, and [None] is a loop that has not ended.  The slot read is
    below the size. *)
Fixpoint slots (fuel : nat) (edge : DirectedHyperEdge) (sourceIndex : N)
    (instanceCounter : gmap EId (list N)) (edgeCounter : gmap SymRef N)
  : option (gmap EId (list N)) :=
  match fuel with
  | 0 => None
  | S fuel =>
      let sources := from edge in
      if bool_decide (sourceIndex < N.of_nat (length sources))%N then
        match sources !! N.to_nat sourceIndex with
        | Some source =>
            let instance : N := default 0%N (edgeCounter !! source) in
            let edgeCounter : gmap SymRef N :=
              <[source := ((instance + 1) mod 2 ^ 32)%N]> edgeCounter in
            let instanceCounter :=
              alter (λ v, <[N.to_nat sourceIndex := instance]> v)
                    (id edge) instanceCounter in
            slots fuel edge ((sourceIndex + 1) mod 2 ^ 32)%N
                  instanceCounter edgeCounter
        | None => None
        end
      else Some instanceCounter
  end.

(** The constructor; every edge has [fuel] for the loop over its slots. *)
Definition make (fuel : nat) (graph : ChcDirectedHyperGraph.t) : option t :=
  instanceCounter ←
    foldl (λ (done : option (gmap EId (list N))) edge,
             instanceCounter ← done;
             let sources := from edge in
             let instanceCounter :=
               <[id edge := resize (length sources) 0%N
                              (default [] (instanceCounter !! id edge))]>
                 instanceCounter in
             slots fuel edge 0%N instanceCounter ∅)
          (Some ∅) (forEachEdge graph);
  Some {| instanceCounter := instanceCounter |}.

End VertexInstances.

End ChcDirectedHyperGraph.

(** ** Conversions between the two classes of graphs *)

Module Conversion.

(** [subst.insert({var, newVar})] for a variable [var]; as in
    [mapFromPredicate], a key that is not a variable gets no entry. *)
Definition insertVar (var newVar : PTRef) (subst : substitutions_map)
  : substitutions_map :=
  match var with
  | Var x v => subst_insert (x, v) newVar subst
  | App _ _ => subst
  end.

(** A loop that updates a local variable, with a body that may fail. *)
Fixpoint fold_m {S A B} (f : B → A → St S B) (b : B) (l : list A) : St S B :=
  match l with
  | [] => mret b
  | a :: l' => b' ← f b a; fold_m f b' l'
  end.

Section Conversion.

(** The collaborators: [VersionManager::toBase], [toSource] and [toTarget];
    [TimeMachine::getVarVersionZero], [getUnversioned],
    [sendVarThroughTime] and [isVersioned]; and the canonical
    representations that the calls [addRepresentation(sym, vars)] build, in
    the order of the calls. *)
Variable toBase toSource toTarget : PTRef → PTRef.
Variable getVarVersionZero getUnversioned : PTRef → PTRef.
Variable sendVarThroughTime : PTRef → Z → PTRef.
Variable isVersioned : PTRef → bool.
Variable linearRepresentation
  : list (SymRef * list PTRef) → LinearCanonicalPredicateRepresentation.
Variable nonlinearRepresentation
  : list (SymRef * list PTRef) → NonlinearCanonicalPredicateRepresentation.

(** [ChcDirectedHyperGraph::toNormalGraph]; the hypergraph, which is only
    read, is the state.  [edge.from[0]] is read after the assertion on the
    number of sources. *)
Definition toNormalGraph : St ChcDirectedHyperGraph.t ChcDirectedGraph.t :=
  h ← get;
  representations ← ChcDirectedHyperGraph.map_m (λ sym,
      let originalTerm := sourceTermFor (ChcDirectedHyperGraph.predicates h) sym in
      vars ← ChcDirectedHyperGraph.map_m
                (λ var, _ ← assert (isVar var); mret var)
                (predicateArgsInOrder originalTerm);
      let vars := toBase <$> vars in
      mret (sym, vars))
    (ChcDirectedHyperGraph.getVertices h);
  let newPredicates := linearRepresentation representations in
  normalEdges ← ChcDirectedHyperGraph.map_m (λ edge,
      _ ← assert (bool_decide (length (ChcDirectedHyperGraph.from edge) = 1));
      source ← at_ (head (ChcDirectedHyperGraph.from edge));
      let target := ChcDirectedHyperGraph.to edge in
      let subst : substitutions_map := ∅ in
      let sourceVars :=
        predicateArgsInOrder (ChcDirectedHyperGraph.getStateVersion h source) in
      let subst :=
        foldl (λ subst sourceVar,
                 let newVar := getVarVersionZero (toBase sourceVar) in
                 insertVar sourceVar newVar subst)
              subst sourceVars in
      let targetVars :=
        predicateArgsInOrder (ChcDirectedHyperGraph.getNextStateVersion h target) in
      let subst :=
        foldl (λ subst targetVar,
                 let newVar :=
                   sendVarThroughTime (getVarVersionZero (toBase targetVar)) 1 in
                 insertVar targetVar newVar subst)
              subst targetVars in
      let newLabel := varSubstitute (ChcDirectedHyperGraph.fla edge) subst in
      mret {| ChcDirectedGraph.from := source;
              ChcDirectedGraph.to := ChcDirectedHyperGraph.to edge;
              ChcDirectedGraph.fla := newLabel;
              ChcDirectedGraph.id := 0 |})
    (ChcDirectedHyperGraph.forEachEdge h);
  mret (ChcDirectedGraph.make normalEdges newPredicates
          (ChcDirectedHyperGraph.logic h)).

(** [ChcDirectedGraph::toHyperGraph]; the graph, which is only read, is the
    state. *)
Definition toHyperGraph : St ChcDirectedGraph.t ChcDirectedHyperGraph.t :=
  g ← get;
  let representations :=
    (λ sym,
       let originalTerm := ChcDirectedGraph.getStateVersion g sym in
       let vars := predicateArgsInOrder originalTerm in
       let vars := getUnversioned <$> vars in
       (sym, vars)) <$> ChcDirectedGraph.getVertices g in
  let newPredicates := nonlinearRepresentation representations in
  newEdges ← ChcDirectedHyperGraph.map_m (λ edge,
      let source := ChcDirectedGraph.from edge in
      let target := ChcDirectedGraph.to edge in
      let subst : substitutions_map := ∅ in
      let sourceVars :=
        predicateArgsInOrder (ChcDirectedGraph.getStateVersion g source) in
      subst ← fold_m (λ subst sourceVar,
                 _ ← assert (isVersioned sourceVar);
                 let newVar := toSource (getUnversioned sourceVar) in
                 mret (insertVar sourceVar newVar subst))
              subst sourceVars;
      let targetVars :=
        predicateArgsInOrder (ChcDirectedGraph.getNextStateVersion g target) in
      subst ← fold_m (λ subst targetVar,
                 _ ← assert (isVersioned targetVar);
                 let newVar := toTarget (getUnversioned targetVar) in
                 mret (insertVar targetVar newVar subst))
              subst targetVars;
      let newLabel := varSubstitute (ChcDirectedGraph.fla edge) subst in
      mret {| ChcDirectedHyperGraph.from := [ChcDirectedGraph.from edge];
              ChcDirectedHyperGraph.to := ChcDirectedGraph.to edge;
              ChcDirectedHyperGraph.fla := newLabel;
              ChcDirectedHyperGraph.id := 0 |})
    (ChcDirectedGraph.forEachEdge g);
  mret (ChcDirectedHyperGraph.make newEdges newPredicates
          (ChcDirectedGraph.logic g)).

End Conversion.

End Conversion.

(** ** Engines *)

(** Modelled from the spec: the answer of an engine. *)
Inductive VerificationAnswer : Type := SAFE | UNSAFE | UNKNOWN.

(** Modelled from the spec: the witness builders are external; a witness is
    kept as the call that builds it, with the depth it is built for. *)
Inductive Witness : Type :=
  | NoWitness
  | InvalidityWitness_fromTransitionSystem (k : nat)
  | witnessFromForwardInduction (k : nat)
  | witnessFromBackwardInduction (k : nat).

(** Modelled from the spec: an answer and, optionally, a witness. *)
Record VerificationResult : Type := {
  answer : VerificationAnswer;
  witness : Witness
}.

Module AcceleratedBmcBase.

(** [solve(ChcDirectedHyperGraph & system)] *)
Definition solve : St ChcDirectedHyperGraph.t VerificationResult :=
  throw (logic_error "Not supported yet!").

End AcceleratedBmcBase.

(** ** k-induction *)

Module Kind.

(** Modelled from the spec: the answer of a solver check. *)
Inductive sstat : Type := s_True | s_False | s_Undef.

(** Modelled from the spec: a transition system gives its [init],
    [transition] and [query] formulas. *)
Record TransitionSystem : Type := {
  getInit : PTRef;
  getTransition : PTRef;
  getQuery : PTRef
}.

(** Modelled from the spec: [MainSolver] is the incremental SMT solver, with
    [insertFormula], [push], [pop] and [check].  A context is its stack of
    assertion frames, the innermost first. *)
Record MainSolver : Type := { frames : list (list PTRef) }.

Definition newSolver : MainSolver := {| frames := [[]] |}.

Definition insertFormula (f : PTRef) (s : MainSolver) : MainSolver :=
  match frames s with
  | top :: rest => {| frames := (top ++ [f]) :: rest |}
  | [] => {| frames := [[f]] |}
  end.

Definition push (s : MainSolver) : MainSolver := {| frames := [] :: frames s |}.
Definition pop (s : MainSolver) : MainSolver := {| frames := tail (frames s) |}.

(** All formulas the context holds, in the order they were inserted. *)
Definition assertions (s : MainSolver) : list PTRef := concat (reverse (frames s)).

(** The variables of the loop: the counter [k], which stays below [maxK] and
    so never wraps around, and the three solver contexts. *)
Record LoopState : Type := {
  k : nat;
  solverBase : MainSolver;
  solverStepForward : MainSolver;
  solverStepBackward : MainSolver
}.

(** [for (k = 0; k < maxK; ++k)] with a body that may return: [n] rounds of
    [body], stopped by the first result. *)
Fixpoint iterate {S R} (n : positive) (body : S → S * option R) (s : S)
  : S * option R :=
  match n with
  | xH => body s
  | xO n' =>
      match iterate n' body s with
      | (s', None) => iterate n' body s'
      | r => r
      end
  | xI n' =>
      match body s with
      | (s', None) =>
          match iterate n' body s' with
          | (s'', None) => iterate n' body s''
          | r => r
          end
      | r => r
      end
  end.

(** [std::numeric_limits<std::size_t>::max()] *)
Definition maxK : positive := 18446744073709551615%positive.

Section Engine.

(** The collaborators: [Logic::mkNot], [TimeMachine::sendFlaThroughTime],
    [TransitionSystem::reverseTransitionRelation], and [smtCheck], the answer
    of the SMT solver to the formulas a context holds. *)
Variable mkNot : PTRef → PTRef.
Variable sendFlaThroughTime : PTRef → nat → PTRef.
Variable reverseTransitionRelation : TransitionSystem → PTRef.
Variable smtCheck : list PTRef → sstat.
Variable computeWitness : bool.

Definition check (s : MainSolver) : sstat := smtCheck (assertions s).

Definition result (a : VerificationAnswer) (w : Witness) : VerificationResult :=
  {| answer := a; witness := if computeWitness then w else NoWitness |}.

(** One round of the loop of [solveTransitionSystem]. *)
Definition round (init query transition backwardTransition negQuery negInit : PTRef)
    (st : LoopState) : LoopState * option VerificationResult :=
  let k := k st in
  let solverBase := solverBase st in
  let solverStepForward := solverStepForward st in
  let solverStepBackward := solverStepBackward st in
  let versionedQuery := sendFlaThroughTime query k in
  (* Base case *)
  let solverBase := push solverBase in
  let solverBase := insertFormula versionedQuery solverBase in
  let res := check solverBase in
  match res with
  | s_True =>
      ({| k := k; solverBase := solverBase;
          solverStepForward := solverStepForward;
          solverStepBackward := solverStepBackward |},
       Some (result UNSAFE (InvalidityWitness_fromTransitionSystem k)))
  | _ =>
      let solverBase := pop solverBase in
      let versionedTransition := sendFlaThroughTime transition k in
      let solverBase := insertFormula versionedTransition solverBase in
      (* step forward *)
      let res := check solverStepForward in
      match res with
      | s_False =>
          ({| k := k; solverBase := solverBase;
              solverStepForward := solverStepForward;
              solverStepBackward := solverStepBackward |},
           Some (result SAFE (witnessFromForwardInduction k)))
      | _ =>
          let versionedBackwardTransition :=
            sendFlaThroughTime backwardTransition k in
          let solverStepForward := push solverStepForward in
          let solverStepForward :=
            insertFormula versionedBackwardTransition solverStepForward in
          let solverStepForward :=
            insertFormula (sendFlaThroughTime negQuery (k + 1)) solverStepForward in
          (* step backward *)
          let res := check solverStepBackward in
          match res with
          | s_False =>
              ({| k := k; solverBase := solverBase;
                  solverStepForward := solverStepForward;
                  solverStepBackward := solverStepBackward |},
               Some (result SAFE (witnessFromBackwardInduction k)))
          | _ =>
              let solverStepBackward := push solverStepBackward in
              let solverStepBackward :=
                insertFormula versionedTransition solverStepBackward in
              let solverStepBackward :=
                insertFormula (sendFlaThroughTime negInit (k + 1))
                              solverStepBackward in
              ({| k := k + 1; solverBase := solverBase;
                  solverStepForward := solverStepForward;
                  solverStepBackward := solverStepBackward |}, None)
          end
      end
  end.

(** [solveTransitionSystem] returns its result together with the counter and
    the solver contexts as they are at the [return]. *)
Definition solveTransitionSystem (system : TransitionSystem)
  : LoopState * VerificationResult :=
  let init := getInit system in
  let query := getQuery system in
  let transition := getTransition system in
  let backwardTransition := reverseTransitionRelation system in
  let solverBase := newSolver in
  let solverStepForward := newSolver in
  let solverStepBackward := newSolver in
  let negQuery := mkNot query in
  let negInit := mkNot init in
  (* starting point *)
  let solverBase := insertFormula init solverBase in
  let solverStepBackward := insertFormula init solverStepBackward in
  let solverStepForward := insertFormula query solverStepForward in
  let st := {| k := 0; solverBase := solverBase;
               solverStepForward := solverStepForward;
               solverStepBackward := solverStepBackward |} in
  match check solverBase with
  | s_False => (st, {| answer := SAFE; witness := NoWitness |})
  | _ =>
      match iterate maxK
              (round init query transition backwardTransition negQuery negInit)
              st with
      | (st', Some r) => (st', r)
      | (st', None) => (st', {| answer := UNKNOWN; witness := NoWitness |})
      end
  end.

End Engine.

End Kind.

(** * Specification of [mergeMultiEdges]

    Both graph classes merge by the same scheme; it is described once, for
    an edge type [E] with an optional bucket key (the pair of endpoints), an
    id and a label. *)

Section MergeDefs.
  Context {E : Type}.
  Variable key : E → option (SymRef * SymRef).
  Variable eid : E → EId.
  Variable lbl : E → PTRef.
  Variable set_lbl : PTRef → E → E.
  Variable mk : list PTRef → PTRef.

(** [buckets[pair].push_back(edge.id)] *)
Definition add_bucket (b : gmap (SymRef * SymRef) (list nat)) (e : E)
  : gmap (SymRef * SymRef) (list nat) :=
  match key e with
  | Some p => push_back p (eid e) b
  | None => b
  end.

(** The ids of the edges of [l] between the pair [p], in the order of [l]. *)
Definition ids_of (l : list E) (p : SymRef * SymRef) : list nat :=
  eid <$> filter (λ e, key e = Some p) l.

Definition group (es : gmap nat E) (p : SymRef * SymRef) : list nat :=
  ids_of (map_to_list es).*2 p.

Definition labels (es : gmap nat E) (ids : list nat) : list PTRef :=
  omap (λ i, lbl <$> es !! i) ids.

(** The fate of the edge [e] with id [i] and key [p]: it is kept when it is
    alone in its bucket; the first of a bucket gets the disjunction; the
    others are erased. *)
Definition rule (es : gmap nat E) (i : nat) (e : E) (p : SymRef * SymRef) : option E :=
  let ids := group es p in
  if bool_decide (length ids < 2) then Some e
  else if bool_decide (head ids = Some i)
       then Some (set_lbl (mk (labels es ids)) e)
       else None.

(** What [mergeMultiEdges] leaves of the edge [e] stored under [i]. *)
Definition merged (es : gmap nat E) : gmap nat E :=
  map_imap (λ i e,
    match key e with
    | None => Some e
    | Some p => rule es i e p
    end) es.

(** The same when only the buckets of [done] have been handled. *)
Definition merged_upto (done : list (SymRef * SymRef)) (es : gmap nat E) : gmap nat E :=
  map_imap (λ i e,
    match key e with
    | None => Some e
    | Some p => if decide (p ∈ done) then rule es i e p else Some e
    end) es.

(** The body of the loop over the buckets, in [ChcDirectedHyperGraph]. *)
Definition stepH
  : bool * gmap nat E → SymRef * SymRef * list nat → bool * gmap nat E :=
  λ '(changed, es) bucketEntry,
  let bucket := bucketEntry.2 in
  if bool_decide (length bucket < 2) then (changed, es)
  else
    let lab := labels es bucket in
    let es := match head bucket with
              | Some b0 => alter (set_lbl (mk lab)) b0 es
              | None => es
              end in
    let es := foldl (λ es eid, delete eid es) es (tail bucket) in
    (true, es).

(** The body of the loop over the buckets, in [ChcDirectedGraph]. *)
Definition stepL
  : gmap nat E * list nat → SymRef * SymRef * list nat → gmap nat E * list nat :=
  λ '(es, edgesToRemove) bucketEntry,
  let bucket := bucketEntry.2 in
  if bool_decide (length bucket < 2) then (es, edgesToRemove)
  else
    let lab := labels es bucket in
    let es := match head bucket with
              | Some b0 => alter (set_lbl (mk lab)) b0 es
              | None => es
              end in
    (es, edgesToRemove ++ tail bucket).

(** Every edge is stored under its own id. *)
Definition wf_ids (es : gmap nat E) : Prop :=
  map_Forall (λ i e, eid e = i) es.

Definition buckets_of (es : gmap nat E) : gmap (SymRef * SymRef) (list nat) :=
  foldl add_bucket ∅ (map_to_list es).*2.

End MergeDefs.

(** * Vocabulary of the statements about graphs *)

Module GraphSpec.
Import ChcDirectedGraph.

(** The bucket key of an edge in [ChcDirectedGraph::mergeMultiEdges]. *)
Definition key (e : DirectedEdge) : option (SymRef * SymRef) :=
  Some (from e, to e).

(** Every edge of the graph is stored under its own id. *)
Definition wf (g : t) : Prop := wf_ids id (edges g).

(** The edges from [src] to [dst], in the order [forEachEdge] visits them. *)
Definition parallelEdges (g : t) (src dst : SymRef) : list DirectedEdge :=
  filter (λ e, from e = src ∧ to e = dst) (forEachEdge g).

(** No two distinct edges share their endpoints. *)
Definition no_multi_edges (g : t) : Prop :=
  ∀ i j e1 e2,
    edges g !! i = Some e1 → edges g !! j = Some e2 →
    from e1 = from e2 → to e1 = to e2 → i = j.

(** What [g'] holds for the edges of [g] between two vertices: a single edge
    is kept as it is; of several, the first carries the disjunction of all
    their labels and the others are gone. *)
Definition groups_merged (g g' : t) : Prop :=
  ∀ src dst,
    match parallelEdges g src dst with
    | [] => True
    | [e] => edges g' !! id e = Some e
    | e0 :: rest =>
        edges g' !! id e0
          = Some (set_fla (mkOr (logic g) (fla <$> e0 :: rest)) e0)
        ∧ Forall (λ e, edges g' !! id e = None) rest
    end.


(** The loop body of [AdjacencyListsGraphRepresentation::from]. *)
Definition adjStep (a : AdjacencyListsGraphRepresentation) (edge : DirectedEdge) :=
           let inc := push_back (to edge) (id edge) (incoming a) in
           let out := push_back (from edge) (id edge) (outgoing a) in
           let inc := touch (from edge) inc in
           let out := touch (to edge) out in
           {| incoming := inc; outgoing := out |}.

(** The endpoints of the edges of a list. *)
Definition endpoints (l : list DirectedEdge) : list SymRef :=
  l ≫= λ e, [from e; to e].

(** [sym] is an endpoint of some edge. *)
Definition is_vertex (g : t) (sym : SymRef) : Prop :=
  map_Exists (λ _ e, from e = sym ∨ to e = sym) (edges g).

(** No edge goes from [sym] to [sym]. *)
Definition no_self_loop (g : t) (sym : SymRef) : Prop :=
  map_Forall (λ _ e, ¬ (from e = sym ∧ to e = sym)) (edges g).

(** The label [mergeLabels] computes, and the edge [mergeEdges] adds. *)
Definition mergedLabel (g : t) (incoming outgoing : DirectedEdge) : PTRef :=
  tryEliminateVars (logic g)
    (predicateArgsInOrder (getStateVersion g (from outgoing)))
    (mkAnd (logic g)
       [varSubstitute (fla incoming)
          (mapFromPredicate (getNextStateVersion g (to incoming))
                            (getStateVersion g (from outgoing)) ∅);
        fla outgoing]).

Definition mergedEdge (g : t) (incoming outgoing : DirectedEdge) (eid : EId)
  : DirectedEdge :=
  {| from := from incoming; to := to outgoing;
     fla := mergedLabel g incoming outgoing; id := eid |}.

(** [g'] is [g] with [sym] contracted: no edge touches [sym]; the edges of
    [g] that do not touch [sym] are kept; every pair of an edge into [sym]
    and an edge out of [sym] has its merged edge; and there is nothing else. *)
Definition contracted (sym : SymRef) (g g' : t) : Prop :=
  (∀ n e, edges g' !! n = Some e → from e ≠ sym ∧ to e ≠ sym)
  ∧ (∀ n e, edges g !! n = Some e → from e ≠ sym → to e ≠ sym →
       edges g' !! n = Some e)
  ∧ (∀ i o ein eout,
       edges g !! i = Some ein → edges g !! o = Some eout →
       to ein = sym → from eout = sym →
       ∃ n, edges g' !! n = Some (mergedEdge g ein eout n))
  ∧ (∀ n e, edges g' !! n = Some e →
       edges g !! n = Some e
       ∨ ∃ i o ein eout,
           edges g !! i = Some ein ∧ edges g !! o = Some eout
           ∧ to ein = sym ∧ from eout = sym ∧ e = mergedEdge g ein eout n).

(** The graph while the loops run: the edges of [g], and merged edges. *)
Definition Base (g : t) (sym : SymRef) (c : t) : Prop :=
  predicates c = predicates g ∧ logic c = logic g
  ∧ (∀ n e, edges g !! n = Some e → edges c !! n = Some e)
  ∧ (∀ n e, edges c !! n = Some e →
       edges g !! n = Some e
       ∨ ∃ i o ein eout,
           edges g !! i = Some ein ∧ edges g !! o = Some eout
           ∧ to ein = sym ∧ from eout = sym ∧ e = mergedEdge g ein eout n).

Definition Prod (g c : t) (i o : EId) : Prop :=
  ∀ ein eout, edges g !! i = Some ein → edges g !! o = Some eout →
    ∃ n, edges c !! n = Some (mergedEdge g ein eout n).

Definition Grows (c c' : t) : Prop :=
  ∀ n e, edges c !! n = Some e → edges c' !! n = Some e.


End GraphSpec.

Module HyperGraphSpec.
Import ChcDirectedHyperGraph.

(** The bucket key of an edge in [ChcDirectedHyperGraph::mergeMultiEdges]:
    only an edge with one source has one. *)
Definition key (e : DirectedHyperEdge) : option (SymRef * SymRef) :=
  match from e with
  | [source] => Some (source, to e)
  | _ => None
  end.

Definition wf (g : t) : Prop := wf_ids id (edges g).

(** The edges with the single source [src] and the target [dst]. *)
Definition parallelEdges (g : t) (src dst : SymRef) : list DirectedHyperEdge :=
  filter (λ e, from e = [src] ∧ to e = dst) (forEachEdge g).

(** No two distinct edges share their sources and their target. *)
Definition no_multi_edges (g : t) : Prop :=
  ∀ i j e1 e2,
    edges g !! i = Some e1 → edges g !! j = Some e2 →
    from e1 = from e2 → to e1 = to e2 → i = j.

(** The same for the edges with one source only. *)
Definition no_linear_multi_edges (g : t) : Prop :=
  ∀ i j e1 e2 source,
    edges g !! i = Some e1 → edges g !! j = Some e2 →
    from e1 = [source] → from e2 = [source] → to e1 = to e2 → i = j.

Definition groups_merged (g g' : t) : Prop :=
  ∀ src dst,
    match parallelEdges g src dst with
    | [] => True
    | [e] => edges g' !! id e = Some e
    | e0 :: rest =>
        edges g' !! id e0
          = Some (set_fla (mkOr (logic g) (fla <$> e0 :: rest)) e0)
        ∧ Forall (λ e, edges g' !! id e = None) rest
    end.

(** The edges that do not have exactly one source are in [g'] as in [g]. *)
Definition hyperedges_kept (g g' : t) : Prop :=
  ∀ i e, edges g !! i = Some e → length (from e) ≠ 1 → edges g' !! i = Some e.

(** Some merging happened between [g] and [g']: [g] has two or more edges
    with the single source [src] and the target [dst]; in [g'] the first of
    them carries the disjunction of the labels of them all, and the others
    are gone. *)
Definition some_merged (g g' : t) : Prop :=
  ∃ src dst e0 e1 rest,
    parallelEdges g src dst = e0 :: e1 :: rest
    ∧ edges g' !! id e0
      = Some (set_fla (mkOr (logic g) (fla <$> e0 :: e1 :: rest)) e0)
    ∧ Forall (λ e, edges g' !! id e = None) (e1 :: rest).


(** The loop body of [AdjacencyListsGraphRepresentation::from]. *)
Definition adjStep (a : AdjacencyListsGraphRepresentation)
    (edge : DirectedHyperEdge) : AdjacencyListsGraphRepresentation :=
  let inc := push_back (to edge) (id edge) (incoming a) in
  let '(inc, out) :=
    foldl (λ '(inc, out) sym, (touch sym inc, push_back sym (id edge) out))
          (inc, outgoing a) (from edge) in
  let out := touch (to edge) out in
  {| incoming := inc; outgoing := out |}.

(** The endpoints of the edges of a list. *)
Definition endpoints (l : list DirectedHyperEdge) : list SymRef :=
  l ≫= λ e, to e :: from e.

(** The id of an edge, once for each time [s] is among its sources. *)
Definition occurrences (e : DirectedHyperEdge) (s : SymRef) : list EId :=
  (λ _, id e) <$> filter (λ x, x = s) (from e).

(** The list [outgoing[s]] of the adjacency representation. *)
Definition outgoingIds (l : list DirectedHyperEdge) (s : SymRef) : list EId :=
  l ≫= λ e, occurrences e s.

(** Every edge has a source. *)
Definition nonempty_sources (g : t) : Prop :=
  map_Forall (λ _ e, from e ≠ []) (edges g).

(** Some edge has the target [sym]. *)
Definition has_incoming (g : t) (sym : SymRef) : Prop :=
  map_Exists (λ _ e, to e = sym) (edges g).

(** Some edge with more than one source has [sym] as its target or among
    its sources. *)
Definition incident_hyperedge (g : t) (sym : SymRef) : Prop :=
  map_Exists (λ _ e, (to e = sym ∨ sym ∈ from e) ∧ 1 < length (from e)) (edges g).

(** Every edge of [g] is an edge of [g'], and the representation of the
    predicates is the same. *)
Definition extends (g g' : t) : Prop :=
  (∀ n e, edges g !! n = Some e → edges g' !! n = Some e)
  ∧ predicates g' = predicates g ∧ logic g' = logic g.

(** The exception of [contractVertex]. *)
Definition unable : exn := logic_error "Unable to contract vertex with hyperedge!".

(** The body of the outer loop of [contractVertex], given the outgoing edges. *)
Definition outer_body (outs : list EId) (incomingId : EId) : St t unit :=
  srcs ← getSources incomingId;
  if bool_decide (1 < length srcs) then throw unable
  else
    for_each outs (λ outgoingId,
      srcs ← getSources outgoingId;
      if bool_decide (1 < length srcs) then throw unable
      else _ ← mergeEdges [incomingId; outgoingId]; mret tt).


(** C6 as stated: with a hyperedge at [sym], [contractVertex] throws and leaves
    the graph as it was. *)
Definition contract_fails_unchanged (g : t) (sym : SymRef) : Prop :=
  incident_hyperedge g sym → ∃ e, contractVertex sym g = (inl e, g).

End HyperGraphSpec.

(** * Graphs the statements are tried on *)

Module Examples.

Definition logic0 : Logic := {|
  getSym_true := 0;
  getSym_false := 1;
  mkOr := App 2;
  mkAnd := App 3;
  tryEliminateVars := λ _ t, t;
  tryEliminateVarsExcept := λ _ t, t
|}.

(** The predicates 5, with the variable 10, and 7, with 20 and 21. *)
Definition predicates0 : LinearCanonicalPredicateRepresentation := {|
  representation := λ sym,
    if decide (sym = 5) then [10]
    else if decide (sym = 7) then [20; 21] else []
|}.

Definition hpredicates0 : NonlinearCanonicalPredicateRepresentation := {|
  sourceTermFor := λ sym, App sym [];
  targetTermFor := λ sym, App sym []
|}.

(** Two edges from 5 to 7 and an edge from the entry to 5. *)
Definition g_multi : ChcDirectedGraph.t :=
  ChcDirectedGraph.make
    [ {| ChcDirectedGraph.from := 5; ChcDirectedGraph.to := 7;
         ChcDirectedGraph.fla := App 50 [Var 10 0; Var 20 1];
         ChcDirectedGraph.id := 0 |};
      {| ChcDirectedGraph.from := 5; ChcDirectedGraph.to := 7;
         ChcDirectedGraph.fla := App 51 [Var 10 0; Var 21 1];
         ChcDirectedGraph.id := 0 |};
      {| ChcDirectedGraph.from := 0; ChcDirectedGraph.to := 5;
         ChcDirectedGraph.fla := App 52 [Var 10 1];
         ChcDirectedGraph.id := 0 |} ]
    predicates0 logic0.

Definition hedge (srcs : list SymRef) (dst : SymRef) (label : PTRef) (eid : EId)
  : ChcDirectedHyperGraph.DirectedHyperEdge :=
  {| ChcDirectedHyperGraph.from := srcs; ChcDirectedHyperGraph.to := dst;
     ChcDirectedHyperGraph.fla := label; ChcDirectedHyperGraph.id := eid |}.

Definition hgraph (es : list ChcDirectedHyperGraph.DirectedHyperEdge)
  : ChcDirectedHyperGraph.t :=
  {| ChcDirectedHyperGraph.edges :=
       list_to_map ((λ e, (ChcDirectedHyperGraph.id e, e)) <$> es);
     ChcDirectedHyperGraph.predicates := hpredicates0;
     ChcDirectedHyperGraph.logic := logic0 |}.

(** Two edges from 5 to 7 with one source. *)
Definition h_multi : ChcDirectedHyperGraph.t :=
  hgraph [hedge [5] 7 (App 50 []) 0; hedge [5] 7 (App 51 []) 1].

(** Two hyperedges from the sources 5 and 6 to 7. *)
Definition h_hyper_multi : ChcDirectedHyperGraph.t :=
  hgraph [hedge [5; 6] 7 (App 50 []) 0; hedge [5; 6] 7 (App 51 []) 1].

(** One hyperedge from the sources 5 and 6 to 7: the vertex 5 has no
    incoming edge. *)
Definition h_no_incoming : ChcDirectedHyperGraph.t :=
  hgraph [hedge [5; 6] 7 (App 50 []) 0].

(** An edge from 4 to 5 and a hyperedge from 5 and 6 to 7. *)
Definition h_hyper_out : ChcDirectedHyperGraph.t :=
  hgraph [hedge [4] 5 (App 50 []) 0; hedge [5; 6] 7 (App 51 []) 1].

(** One edge, from 5 to 7; 5 is not the entry and no edge leads to it. *)
Definition g_source_only : ChcDirectedGraph.t :=
  ChcDirectedGraph.make
    [ {| ChcDirectedGraph.from := 5; ChcDirectedGraph.to := 7;
         ChcDirectedGraph.fla := App 50 [Var 10 0; Var 20 1];
         ChcDirectedGraph.id := 0 |} ]
    predicates0 logic0.

Definition h_source_only : ChcDirectedHyperGraph.t :=
  hgraph [hedge [5] 7 (App 50 []) 0].

(** A hyperedge with the source 5 in two slots, and the source 6. *)
Definition h_repeated : ChcDirectedHyperGraph.t :=
  hgraph [hedge [5; 6; 5] 7 (App 50 []) 0].

(** The chain from 4 over 5 and 6 to 7, and an edge from 6 to 8. *)
Definition h_chain : ChcDirectedHyperGraph.t :=
  hgraph [hedge [4] 5 (App 50 []) 0; hedge [5] 6 (App 51 []) 1;
          hedge [6] 7 (App 52 []) 2; hedge [6] 8 (App 53 []) 3].

(** An edge from 4 to 5, a loop at 5, and an edge from 5 to 7. *)
Definition h_loop : ChcDirectedHyperGraph.t :=
  hgraph [hedge [4] 5 (App 50 []) 0; hedge [5] 5 (App 51 []) 1;
          hedge [5] 7 (App 52 []) 2].

(** Edges from 4 to 5, from 4 to 6 and from 5 to 6, and a hyperedge from 5
    and 6 to 7: the vertex 5 has an incoming edge, an outgoing edge with one
    source and, after it, an outgoing hyperedge. *)
Definition h_partial : ChcDirectedHyperGraph.t :=
  hgraph [hedge [4] 5 (App 50 []) 0; hedge [4] 6 (App 51 []) 1;
          hedge [5] 6 (App 52 []) 2; hedge [5; 6] 7 (App 53 []) 3].

End Examples.

(** * Vocabulary of the statements about k-induction *)

Module KindSpec.
Import Kind.

(** [init(x0) ∧ transition(x0,x1) ∧ … ∧ transition(x_{k-1},x_k) ∧ query(x_k)],
    as the list of its conjuncts. *)
Definition unrolling (sendFlaThroughTime : PTRef → nat → PTRef)
    (system : TransitionSystem) (k : nat) : list PTRef :=
  getInit system
  :: (sendFlaThroughTime (getTransition system) <$> seq 0 k)
  ++ [sendFlaThroughTime (getQuery system) k].

(** The Base context at the head of round [k]: one frame, with [init] and the
    transitions at the times before [k]. *)
Definition base_at (sendFlaThroughTime : PTRef → nat → PTRef)
    (system : TransitionSystem) (st : LoopState) : Prop :=
  frames (solverBase st)
  = [getInit system :: (sendFlaThroughTime (getTransition system) <$> seq 0 (k st))].

(** The state in which the loop is entered. *)
Definition start (system : TransitionSystem) : LoopState :=
  {| k := 0;
     solverBase := {| frames := [[getInit system]] |};
     solverStepForward := {| frames := [[getQuery system]] |};
     solverStepBackward := {| frames := [[getInit system]] |} |}.

(** What holds when a round returns [UNSAFE]. *)
Definition unsafe_post (sendFlaThroughTime : PTRef → nat → PTRef)
    (smtCheck : list PTRef → sstat) (computeWitness : bool)
    (system : TransitionSystem) (st : LoopState) (r : VerificationResult) : Prop :=
  answer r = UNSAFE →
  assertions (solverBase st) = unrolling sendFlaThroughTime system (k st)
  ∧ smtCheck (unrolling sendFlaThroughTime system (k st)) = s_True
  ∧ witness r = (if computeWitness
                 then InvalidityWitness_fromTransitionSystem (k st)
                 else NoWitness).

(** A time shift for the examples: every version grows by [n]. *)
Fixpoint shift (t : PTRef) (n : nat) : PTRef :=
  match t with
  | Var x v => Var x (v + Z.of_nat n)
  | App f args => App f (List.map (λ a, shift a n) args)
  end.

(** A counter: [init] is [x = 0], [transition] is [x' = x + 1], [query] is
    [x = 2]; the symbols 20, 21, 22 stand for [=], [+], and the numerals. *)
Definition counter : TransitionSystem := {|
  getInit := App 20 [Var 0 0; App 22 []];
  getTransition := App 20 [Var 0 1; App 21 [Var 0 0; App 23 []]];
  getQuery := App 20 [Var 0 0; App 24 []]
|}.

(** A solver that answers SAT on four formulas and gives up otherwise, and a
    solver that always answers UNSAT. *)
Definition answer_four (fs : list PTRef) : sstat :=
  if bool_decide (length fs = 4) then s_True else s_Undef.

Definition answer_unsat (fs : list PTRef) : sstat := s_False.

(** A solver that answers UNSAT on three formulas and gives up otherwise, and
    a solver that always gives up. *)
Definition answer_three (fs : list PTRef) : sstat :=
  if bool_decide (length fs = 3) then s_False else s_Undef.

Definition answer_undef (fs : list PTRef) : sstat := s_Undef.

(** [n] rounds of [body], stopped by the first result: the loop of [iterate]
    with the rounds counted one by one. *)
Fixpoint rounds {S R} (n : nat) (body : S → S * option R) (s : S)
  : S * option R :=
  match n with
  | 0 => (s, None)
  | S n' =>
      match body s with
      | (s', None) => rounds n' body s'
      | r => r
      end
  end.

Section Checks.
Variable mkNot : PTRef → PTRef.
Variable sendFlaThroughTime : PTRef → nat → PTRef.
Variable reverseTransitionRelation : TransitionSystem → PTRef.
Variable smtCheck : list PTRef → sstat.
Variable computeWitness : bool.
Variable system : TransitionSystem.

(** The frames a step context holds at the head of round [k]: the frame it
    was started with, and above it one frame for each earlier round [i], with
    [f] sent to the time [i] and [g] sent to the time [i + 1]. *)
Definition step_frames (first f g : PTRef) (k : nat) : list (list PTRef) :=
  reverse ([first]
           :: ((λ i, [sendFlaThroughTime f i; sendFlaThroughTime g (i + 1)])
                 <$> seq 0 k)).

(** The formulas of the StepForward context at the head of round [k]:
    [query(x0) ∧ Tr'(x0,x1) ∧ ¬query(x1) ∧ … ∧ Tr'(x_{k-1},x_k) ∧ ¬query(x_k)]
    with [Tr'] the reversed transition relation. *)
Definition forward (k : nat) : list PTRef :=
  concat (reverse (step_frames (getQuery system)
                     (reverseTransitionRelation system)
                     (mkNot (getQuery system)) k)).

(** The formulas of the StepBackward context at the head of round [k]:
    [init(x0) ∧ Tr(x0,x1) ∧ ¬init(x1) ∧ … ∧ Tr(x_{k-1},x_k) ∧ ¬init(x_k)]. *)
Definition backward (k : nat) : list PTRef :=
  concat (reverse (step_frames (getInit system) (getTransition system)
                     (mkNot (getInit system)) k)).

(** The three contexts at the head of round [k st]. *)
Definition contexts_at (st : LoopState) : Prop :=
  base_at sendFlaThroughTime system st
  ∧ frames (solverStepForward st)
    = step_frames (getQuery system) (reverseTransitionRelation system)
        (mkNot (getQuery system)) (k st)
  ∧ frames (solverStepBackward st)
    = step_frames (getInit system) (getTransition system)
        (mkNot (getInit system)) (k st).

(** What the three checks of depth [k] decide: UNSAFE when the base case is
    satisfiable; else SAFE when the forward step is unsatisfiable; else SAFE
    when the backward step is unsatisfiable; else nothing. *)
Definition decision (k : nat) : option VerificationResult :=
  match smtCheck (unrolling sendFlaThroughTime system k) with
  | s_True =>
      Some (result computeWitness UNSAFE (InvalidityWitness_fromTransitionSystem k))
  | _ =>
      match smtCheck (forward k) with
      | s_False =>
          Some (result computeWitness SAFE (witnessFromForwardInduction k))
      | _ =>
          match smtCheck (backward k) with
          | s_False =>
              Some (result computeWitness SAFE (witnessFromBackwardInduction k))
          | _ => None
          end
      end
  end.

End Checks.

End KindSpec.

(** * Vocabulary of the statements about [reverse] *)

Module ReverseSpec.
Import ChcDirectedGraph.

(** What an edge says, apart from its id. *)
Definition edge_data (e : DirectedEdge) : SymRef * SymRef * PTRef :=
  (from e, to e, fla e).

(** The two graphs have the same edges, up to the ids. *)
Definition same_edges (g g' : t) : Prop :=
  edge_data <$> forEachEdge g' ≡ₚ edge_data <$> forEachEdge g.

(** A variable of the label of [e] is a state variable of the source, or a
    next-state variable of the target, or (an auxiliary variable) neither a
    state nor a next-state variable of an endpoint. *)
Definition var_ok (g : t) (e : DirectedEdge) (xv : nat * Z) : Prop :=
  (xv.2 = 0%Z ∧ xv.1 ∈ representation (predicates g) (from e))
  ∨ (xv.2 = 1%Z ∧ xv.1 ∈ representation (predicates g) (to e))
  ∨ ((xv.1 ∉ representation (predicates g) (from e))
     ∧ (xv.1 ∉ representation (predicates g) (to e)))
  ∨ (xv.2 ≠ 0%Z ∧ xv.2 ≠ 1%Z).

Definition labels_wf (g : t) : Prop :=
  map_Forall (λ _ e, Forall (var_ok g e) (vars (fla e))) (edges g).

(** The substitution of [reverseEdge]. *)
Definition reverseSubst (g : t) (src dst : SymRef) : gmap (nat * Z) PTRef :=
  mapFromPredicate (getNextStateVersion g dst) (getStateVersion g dst)
    (mapFromPredicate (getStateVersion g src) (getNextStateVersion g src) ∅).

(** The reversal of an edge, on what the edge says. *)
Definition reverseData (g : t) (d : SymRef * SymRef * PTRef)
  : SymRef * SymRef * PTRef :=
  (d.1.2, d.1.1, varSubstitute d.2 (reverseSubst g d.1.1 d.1.2)).

End ReverseSpec.

(** * Vocabulary of the further statements *)

Module NormalSpec.
Import ChcDirectedHyperGraph.

(** The predicate of [isNormalGraph], on an entry of the map of edges. *)
Definition isNormal_body (entry : EId * DirectedHyperEdge) : St t bool :=
  let sources := from entry.2 in
  _ ← assert (negb (bool_decide (sources = [])));
  mret (bool_decide (length sources = 1)).

End NormalSpec.

Module InstancesSpec.

(** The number of slots before the slot [k] that hold the symbol [s]. *)
Definition earlier (sources : list SymRef) (k : nat) (s : SymRef) : nat :=
  length (filter (λ x, x = s) (take k sources)).

(** The instance numbers of the slots of an edge, in 32 bits. *)
Definition instances (sources : list SymRef) : list N :=
  imap (λ k s, (N.of_nat (earlier sources k s) mod 2 ^ 32)%N) sources.

(** The body of the loop over the slots of an edge with the id [i]. *)
Definition slot (i : EId) (sources : list SymRef)
  : gmap EId (list N) * gmap SymRef N → nat → gmap EId (list N) * gmap SymRef N :=
  λ '(instanceCounter, edgeCounter) sourceIndex,
    match sources !! sourceIndex with
    | Some source =>
        let instance : N := default 0%N (edgeCounter !! source) in
        let edgeCounter : gmap SymRef N :=
          <[source := ((instance + 1) mod 2 ^ 32)%N]> edgeCounter in
        (alter (λ v, <[sourceIndex := instance]> v) i instanceCounter, edgeCounter)
    | None => (instanceCounter, edgeCounter)
    end.

End InstancesSpec.

Module DFSSpec.
Import ChcDirectedGraph.

(** There is an edge from [u] to [w]. *)
Definition edge (g : t) (u w : SymRef) : Prop :=
  map_Exists (λ _ e, from e = u ∧ to e = w) (edges g).

(** [w] is reached from [u] along edges. *)
Definition reach (g : t) : SymRef → SymRef → Prop := rtc (edge g).

(** The symbols with an entry in the adjacency lists. *)
Definition vertices (g : t) : gset SymRef :=
  list_to_set (GraphSpec.endpoints (forEachEdge g)).

(** The actions of [postOrder]. *)
Definition preorder (_ : SymRef) (order : list SymRef) : list SymRef := order.
Definition postorder (v : SymRef) (order : list SymRef) : list SymRef :=
  order ++ [v].

(** The state of the search from [root] while the calls for the vertices of
    [G] are open: the marked vertices are the open and the finished ones;
    every successor of a finished vertex is marked; a successor of a
    finished vertex was finished before it, or reaches it. *)
Definition searching (g : t) (root : SymRef) (G : gset SymRef)
    (s : DFS.t (list SymRef)) : Prop :=
  DFS.marked s ⊆ vertices g
  ∧ DFS.marked s = G ∪ list_to_set (DFS.captured s)
  ∧ G ## list_to_set (DFS.captured s)
  ∧ NoDup (DFS.captured s)
  ∧ (∀ u w, u ∈ DFS.captured s → edge g u w → w ∈ DFS.marked s)
  ∧ (∀ k u w, DFS.captured s !! k = Some u → edge g u w →
       (∃ j, j < k ∧ DFS.captured s !! j = Some w) ∨ reach g w u)
  ∧ (∀ x, x ∈ DFS.marked s → reach g root x).

End DFSSpec.

Module ChainSpec.
Import ChcDirectedHyperGraph.

(** The ids of the chain are the ids of the edges [es]. *)
Definition chain_edges (g : t) (chain : list EId) (es : list DirectedHyperEdge)
  : Prop :=
  Forall2 (λ i e, edges g !! i = Some e) chain es.

(** Every edge of the chain after the first has one source, the target of
    the edge before it. *)
Fixpoint connected (es : list DirectedHyperEdge) : Prop :=
  match es with
  | e :: ((e' :: _) as rest) => from e' = [to e] ∧ connected rest
  | _ => True
  end.

(** The substitution that the loop of [mergeLabels] builds. *)
Fixpoint chainMap (g : t) (es : list DirectedHyperEdge)
    (subMap : substitutions_map) : substitutions_map :=
  match es with
  | e :: ((_ :: _) as rest) =>
      chainMap g rest
        (mapFromPredicate (getNextStateVersion g (to e))
                          (getStateVersion g (to e)) subMap)
  | _ => subMap
  end.

(** The label [mergeLabels] computes for the chain of the edges [es] from
    [source] to [target]. *)
Definition chainLabel (g : t) (source target : SymRef)
    (es : list DirectedHyperEdge) : PTRef :=
  tryEliminateVarsExcept (logic g)
    (predicateArgsInOrder (getStateVersion g source)
     ++ predicateArgsInOrder (getNextStateVersion g target))
    (varSubstitute (mkAnd (logic g) (fla <$> es)) (chainMap g es ∅)).

(** The edge [mergeEdges] adds for the chain. *)
Definition summary (g : t) (source target : SymRef)
    (es : list DirectedHyperEdge) : DirectedHyperEdge :=
  {| from := [source]; to := target; fla := chainLabel g source target es;
     id := fresh (dom (edges g)) |}.

(** The edge [e] has [v] as its target or among its sources. *)
Definition touches (e : DirectedHyperEdge) (v : SymRef) : Prop :=
  to e = v ∨ v ∈ from e.

End ChainSpec.

Module NormalContractSpec.
Import ChcDirectedHyperGraph ChainSpec.

(** Every edge has exactly one source. *)
Definition single_sources (g : t) : Prop :=
  map_Forall (λ _ e, length (from e) = 1) (edges g).

(** Some edge touches [sym]. *)
Definition is_vertex (g : t) (sym : SymRef) : Prop :=
  map_Exists (λ _ e, touches e sym) (edges g).

(** The edge [mergeEdges] adds for an edge [ein] from [s] and an edge
    [eout], under the id [n]. *)
Definition mergedEdge (g : t) (ein eout : DirectedHyperEdge) (s : SymRef)
    (n : EId) : DirectedHyperEdge :=
  {| from := [s]; to := to eout;
     fla := chainLabel g s (to eout) [ein; eout]; id := n |}.

(** [e], under the id [n], is the merged edge of an edge of [g] into [sym]
    and an edge of [g] out of [sym]. *)
Definition merged_pair (g : t) (sym : SymRef) (n : EId) (e : DirectedHyperEdge)
  : Prop :=
  ∃ i o ein eout s,
    edges g !! i = Some ein ∧ edges g !! o = Some eout
    ∧ to ein = sym ∧ from ein = [s] ∧ from eout = [sym]
    ∧ e = mergedEdge g ein eout s n.

(** [g'] is [g] with [sym] contracted: no edge touches [sym]; the edges of
    [g] that do not touch [sym] are kept; every pair of an edge into [sym]
    and an edge out of [sym], neither of them a loop at [sym], has its
    merged edge; and there is nothing else. *)
Definition contracted (sym : SymRef) (g g' : t) : Prop :=
  (∀ n e, edges g' !! n = Some e → ¬ touches e sym)
  ∧ (∀ n e, edges g !! n = Some e → ¬ touches e sym → edges g' !! n = Some e)
  ∧ (∀ i o ein eout s,
       edges g !! i = Some ein → edges g !! o = Some eout →
       to ein = sym → from ein = [s] → from eout = [sym] →
       s ≠ sym → to eout ≠ sym →
       ∃ n, edges g' !! n = Some (mergedEdge g ein eout s n))
  ∧ (∀ n e, edges g' !! n = Some e →
       edges g !! n = Some e ∨ merged_pair g sym n e).

(** The graph while the loops run. *)
Definition Base (g : t) (sym : SymRef) (c : t) : Prop :=
  predicates c = predicates g ∧ logic c = logic g
  ∧ (∀ n e, edges g !! n = Some e → edges c !! n = Some e)
  ∧ (∀ n e, edges c !! n = Some e →
       edges g !! n = Some e ∨ merged_pair g sym n e).

Definition Prod (g c : t) (i o : EId) : Prop :=
  ∀ ein eout s, edges g !! i = Some ein → edges g !! o = Some eout →
    from ein = [s] →
    ∃ n, edges c !! n = Some (mergedEdge g ein eout s n).

Definition Grows (c c' : t) : Prop :=
  ∀ n e, edges c !! n = Some e → edges c' !! n = Some e.

End NormalContractSpec.

Module ConversionSpec.
Import Conversion.

(** What an edge of a hypergraph carries besides its id. *)
Definition hyper_edge_data (e : ChcDirectedHyperGraph.DirectedHyperEdge)
  : list SymRef * SymRef * PTRef :=
  (ChcDirectedHyperGraph.from e, ChcDirectedHyperGraph.to e,
   ChcDirectedHyperGraph.fla e).

(** The arguments of a term are variables. *)
Definition over_variables (t : PTRef) : Prop :=
  Forall (λ v, isVar v = true) (predicateArgsInOrder t).

(** The canonical terms of every predicate are over variables. *)
Definition predicates_over_variables
    (p : NonlinearCanonicalPredicateRepresentation) : Prop :=
  ∀ sym, over_variables (sourceTermFor p sym)
         ∧ over_variables (targetTermFor p sym).

Section Spec.

Variable toBase toSource toTarget getVarVersionZero getUnversioned : PTRef → PTRef.
Variable sendVarThroughTime : PTRef → Z → PTRef.
Variable isVersioned : PTRef → bool.

(** The state variables of the endpoints of every edge are versioned. *)
Definition versioned (g : ChcDirectedGraph.t) : Prop :=
  ∀ e, e ∈ ChcDirectedGraph.forEachEdge g →
    Forall (λ v, isVersioned v = true)
      (predicateArgsInOrder
         (ChcDirectedGraph.getStateVersion g (ChcDirectedGraph.from e)))
    ∧ Forall (λ v, isVersioned v = true)
        (predicateArgsInOrder
           (ChcDirectedGraph.getNextStateVersion g (ChcDirectedGraph.to e))).

(** The substitution of [toHyperGraph] for an edge from [source] to
    [target]: the state variables of the source first, then the next-state
    variables of the target. *)
Definition hyperSubst (g : ChcDirectedGraph.t) (source target : SymRef)
  : substitutions_map :=
  foldl (λ subst targetVar,
           insertVar targetVar (toTarget (getUnversioned targetVar)) subst)
    (foldl (λ subst sourceVar,
              insertVar sourceVar (toSource (getUnversioned sourceVar)) subst)
       ∅ (predicateArgsInOrder (ChcDirectedGraph.getStateVersion g source)))
    (predicateArgsInOrder (ChcDirectedGraph.getNextStateVersion g target)).

(** What [toHyperGraph] makes of an edge. *)
Definition hyperEdge (g : ChcDirectedGraph.t) (e : ChcDirectedGraph.DirectedEdge)
  : list SymRef * SymRef * PTRef :=
  ([ChcDirectedGraph.from e], ChcDirectedGraph.to e,
   varSubstitute (ChcDirectedGraph.fla e)
     (hyperSubst g (ChcDirectedGraph.from e) (ChcDirectedGraph.to e))).

(** The substitution of [toNormalGraph] for an edge from [source] to
    [target]. *)
Definition normalSubst (h : ChcDirectedHyperGraph.t) (source target : SymRef)
  : substitutions_map :=
  foldl (λ subst targetVar,
           insertVar targetVar
             (sendVarThroughTime (getVarVersionZero (toBase targetVar)) 1) subst)
    (foldl (λ subst sourceVar,
              insertVar sourceVar (getVarVersionZero (toBase sourceVar)) subst)
       ∅ (predicateArgsInOrder (ChcDirectedHyperGraph.getStateVersion h source)))
    (predicateArgsInOrder (ChcDirectedHyperGraph.getNextStateVersion h target)).

(** What [toNormalGraph] makes of an edge with one source; there is nothing
    for another edge. *)
Definition normalEdge (h : ChcDirectedHyperGraph.t)
    (e : ChcDirectedHyperGraph.DirectedHyperEdge)
  : option (SymRef * SymRef * PTRef) :=
  match ChcDirectedHyperGraph.from e with
  | [source] =>
      Some (source, ChcDirectedHyperGraph.to e,
            varSubstitute (ChcDirectedHyperGraph.fla e)
              (normalSubst h source (ChcDirectedHyperGraph.to e)))
  | _ => None
  end.

End Spec.

(** The endpoints of an edge. *)
Definition ends (e : ChcDirectedGraph.DirectedEdge) : SymRef * SymRef :=
  (ChcDirectedGraph.from e, ChcDirectedGraph.to e).

End ConversionSpec.

(** * Properties *)

(** ** Lists *)

Lemma length_filter_fmap {A B} (f : A → B) (P : B → Prop)
    `{∀ x, Decision (P x)} (l : list A) :
  length (filter P (f <$> l)) = length (filter (λ x, P (f x)) l).
Proof.
  induction l as [|a l IH]; [done|]. rewrite fmap_cons.
  destruct (decide (P (f a))).
  - rewrite !filter_cons_True by done. simpl. by rewrite IH.
  - rewrite !filter_cons_False by done. done.
Qed.

Lemma two_le_length_NoDup {A} (l : list A) :
  NoDup l → (2 ≤ length l ↔ ∃ x y, x ≠ y ∧ x ∈ l ∧ y ∈ l).
Proof.
  intros Hnd. split.
  - destruct l as [|x [|y l]]; simpl; [lia..|]. intros _.
    exists x, y. apply NoDup_cons in Hnd as [Hx _].
    split; [|split; [by left|right; by left]].
    intros ->. apply Hx. by left.
  - intros (x & y & Hne & Hx & Hy).
    destruct l as [|a [|b l]]; simpl; [|exfalso|lia].
    + by apply elem_of_nil in Hx.
    + apply list_elem_of_singleton in Hx, Hy. congruence.
Qed.

(** ** The monad *)

Ltac st_unfold :=
  unfold mbind, mret, St_bind, St_ret, st_bind, st_ret, get, put, throw,
    at_, assert in *.

Lemma st_bind_run {S A B} (m : St S A) (k : A → St S B) (s : S) :
  (m ≫= k) s =
    match m s with
    | (inl e, s') => (inl e, s')
    | (inr a, s') => k a s'
    end.
Proof. reflexivity. Qed.

(** A loop whose body succeeds on every element, and keeps an invariant of
    the elements done so far, succeeds. *)
Lemma for_each_inv {S A} (I : list A → S → Prop) (l : list A)
    (body : A → St S unit) (s : S) :
  I [] s →
  (∀ done a rest s, l = done ++ a :: rest → I done s →
     ∃ s', body a s = (inr tt, s') ∧ I (done ++ [a]) s') →
  ∃ s', for_each l body s = (inr tt, s') ∧ I l s'.
Proof.
  intros H0 Hstep.
  assert (Hgen : ∀ rest done s, l = done ++ rest → I done s →
            ∃ s', for_each rest body s = (inr tt, s') ∧ I l s').
  { induction rest as [|a rest IH]; intros done s0 Hl HI.
    - exists s0. rewrite app_nil_r in Hl. subst. done.
    - destruct (Hstep done a rest s0 Hl HI) as (s1 & Hb & HI1).
      destruct (IH (done ++ [a]) s1) as (s2 & Hf & HI2); [by rewrite <- app_assoc|done|].
      exists s2. split; [|done]. simpl. rewrite st_bind_run, Hb. done. }
  by apply (Hgen l []).
Qed.

(** A loop whose body throws at the first element throws. *)
Lemma for_each_cons {S A} (a : A) (l : list A) (body : A → St S unit) (s : S) :
  for_each (a :: l) body s =
    match body a s with
    | (inl e, s') => (inl e, s')
    | (inr _, s') => for_each l body s'
    end.
Proof. reflexivity. Qed.

(** A loop throws [E] when its body throws [E] on some element and, on the
    others, either succeeds and keeps the invariant or throws [E] too. *)
Lemma for_each_throws {S A} (I : S → Prop) (E : exn) (l : list A)
    (body : A → St S unit) (s : S) :
  I s →
  (∃ a, a ∈ l ∧ ∀ s, I s → ∃ s', body a s = (inl E, s')) →
  (∀ a s, a ∈ l → I s →
     ∃ s', (body a s = (inr tt, s') ∧ I s') ∨ body a s = (inl E, s')) →
  ∃ s', for_each l body s = (inl E, s').
Proof.
  intros HI (a & Ha & Hthrow) Hstep. revert s HI.
  induction l as [|b l IH]; intros s HI; [by apply elem_of_nil in Ha|].
  rewrite for_each_cons.
  destruct (Hstep b s) as (s' & [[Hb HI']|Hb]); [by left|done| |]; rewrite Hb.
  - apply elem_of_cons in Ha as [->|Ha].
    + destruct (Hthrow s HI) as [s'' Hs'']. congruence.
    + apply IH; [done| |done]. intros a' s0 Ha'. apply Hstep. by right.
  - eauto.
Qed.

(** A loop whose body, on every element, either succeeds or throws [E], and
    keeps the invariant in both cases, does the same. *)
Lemma for_each_may_throw {S A} (I : S → Prop) (E : exn) (l : list A)
    (body : A → St S unit) (s : S) :
  I s →
  (∀ a s, a ∈ l → I s →
     ∃ s', (body a s = (inr tt, s') ∨ body a s = (inl E, s')) ∧ I s') →
  ∃ s', (for_each l body s = (inr tt, s') ∨ for_each l body s = (inl E, s'))
        ∧ I s'.
Proof.
  intros HI Hstep. revert s HI.
  induction l as [|b l IH]; intros s HI; [exists s; by split; [left|]|].
  rewrite for_each_cons.
  destruct (Hstep b s) as (s' & [Hb|Hb] & HI'); [by left|done| |]; rewrite Hb.
  - apply IH; [|done]. intros a' s0 Ha'. apply Hstep. by right.
  - exists s'. split; [by right|done].
Qed.

(** It throws when, moreover, the body throws on some element. *)
Lemma for_each_must_throw {S A} (I : S → Prop) (E : exn) (l : list A)
    (body : A → St S unit) (s : S) :
  I s →
  (∃ a, a ∈ l ∧ ∀ s, I s → ∃ s', body a s = (inl E, s')) →
  (∀ a s, a ∈ l → I s →
     ∃ s', (body a s = (inr tt, s') ∨ body a s = (inl E, s')) ∧ I s') →
  ∃ s', for_each l body s = (inl E, s') ∧ I s'.
Proof.
  intros HI (a & Ha & Hthrow) Hstep. revert s HI.
  induction l as [|b l IH]; intros s HI; [by apply elem_of_nil in Ha|].
  rewrite for_each_cons.
  destruct (Hstep b s) as (s' & [Hb|Hb] & HI'); [by left|done| |]; rewrite Hb.
  - apply elem_of_cons in Ha as [->|Ha].
    + destruct (Hthrow s HI) as [s'' Hs'']. congruence.
    + apply IH; [done| |done]. intros a' s0 Ha'. apply Hstep. by right.
  - eauto.
Qed.

Lemma st_bind_assoc {S A B C} (m : St S A) (f : A → St S B) (k : B → St S C) s :
  ((m ≫= f) ≫= k) s = (m ≫= λ a, f a ≫= k) s.
Proof. rewrite !st_bind_run. by destruct (m s) as [[?|?] ?]. Qed.

Lemma st_bind_ret {S A B} (a : A) (k : A → St S B) s : (mret a ≫= k) s = k a s.
Proof. reflexivity. Qed.

Lemma st_bind_at {S A B} (a : A) (k : A → St S B) s :
  (at_ (Some a) ≫= k) s = k a s.
Proof. reflexivity. Qed.

Lemma st_bind_assert {S B} (k : unit → St S B) s : (assert true ≫= k) s = k tt s.
Proof. reflexivity. Qed.

Lemma st_bind_get {S B} (k : S → St S B) s : (get ≫= k) s = k s s.
Proof. reflexivity. Qed.

Lemma st_bind_put {S B} (k : unit → St S B) s s' : (put s' ≫= k) s = k tt s'.
Proof. reflexivity. Qed.

Ltac st_norm :=
  repeat first
    [ rewrite st_bind_assoc | rewrite st_bind_ret | rewrite st_bind_at
    | rewrite st_bind_assert | rewrite st_bind_get | rewrite st_bind_put ].

(** ** Merging of multi-edges, for both graph classes *)

Section MergeFacts.
  Context {E : Type}.
  Variable key : E → option (SymRef * SymRef).
  Variable eid : E → EId.
  Variable lbl : E → PTRef.
  Variable set_lbl : PTRef → E → E.
  Variable mk : list PTRef → PTRef.

  Local Abbreviation add_bucket := (add_bucket key eid).
  Local Abbreviation ids_of := (ids_of key eid).
  Local Abbreviation group := (group key eid).
  Local Abbreviation labels := (labels lbl).
  Local Abbreviation rule := (rule key eid lbl set_lbl mk).
  Local Abbreviation merged := (merged key eid lbl set_lbl mk).
  Local Abbreviation merged_upto := (merged_upto key eid lbl set_lbl mk).
  Local Abbreviation stepH := (stepH lbl set_lbl mk).
  Local Abbreviation stepL := (stepL lbl set_lbl mk).
  Local Abbreviation wf_ids := (wf_ids eid).
  Local Abbreviation buckets_of := (buckets_of key eid).

Lemma foldl_add_bucket l : ∀ b p,
  foldl add_bucket b l !! p =
    if decide (ids_of l p = []) then b !! p
    else Some (default [] (b !! p) ++ ids_of l p).
Proof.
  induction l as [|e l IH]; intros b p; simpl; [done|].
  rewrite IH. unfold ids_of, add_bucket.
  destruct (decide (key e = Some p)) as [Hk|Hk].
  - rewrite filter_cons_True by done. rewrite Hk, fmap_cons.
    unfold push_back. rewrite lookup_insert_eq.
    destruct (decide (eid <$> filter (λ e0, key e0 = Some p) l = [])) as [Hl|Hl].
    + rewrite Hl. done.
    + simpl. by rewrite <- app_assoc.
  - rewrite filter_cons_False by done.
    destruct (key e) as [q|]; [|done].
    unfold push_back. rewrite lookup_insert_ne by congruence. done.
Qed.

Lemma buckets_lookup l p :
  foldl add_bucket ∅ l !! p =
    if decide (ids_of l p = []) then None else Some (ids_of l p).
Proof. rewrite foldl_add_bucket, lookup_empty. done. Qed.

Lemma foldl_delete_lookup (l : list nat) : ∀ (es : gmap nat E) i,
  foldl (λ es eid, delete eid es) es l !! i =
    if decide (i ∈ l) then None else es !! i.
Proof.
  induction l as [|j l IH]; intros es i.
  - case_decide as H; [by apply elem_of_nil in H|done].
  - cbn [foldl]. rewrite IH.
    destruct (decide (i ∈ l)) as [Hi|Hi].
    + case_decide as H; [done|]. exfalso. apply H. by right.
    + destruct (decide (i = j)) as [->|Hne].
      * case_decide as H; [|exfalso; apply H; by left]. apply lookup_delete_eq.
      * case_decide as H; [apply elem_of_cons in H; tauto|].
        by rewrite lookup_delete_ne.
Qed.

Lemma elem_of_group es p i :
  wf_ids es →
  i ∈ group es p ↔ ∃ e, es !! i = Some e ∧ key e = Some p.
Proof.
  intros Hwf. unfold group, ids_of.
  rewrite list_elem_of_fmap. split.
  - intros (e & -> & He). apply list_elem_of_filter in He as [Hk He].
    apply list_elem_of_fmap in He as ([j e'] & -> & Hje).
    apply elem_of_map_to_list in Hje. simpl in *.
    exists e'. rewrite (Hwf _ _ Hje). done.
  - intros (e & Hi & Hk). exists e. split; [by rewrite (Hwf _ _ Hi)|].
    apply list_elem_of_filter. split; [done|].
    apply list_elem_of_fmap. exists (i, e). split; [done|].
    by apply elem_of_map_to_list.
Qed.

Lemma NoDup_group es p : wf_ids es → NoDup (group es p).
Proof.
  intros Hwf. unfold group, ids_of.
  assert (Hin : ∀ e, e ∈ (map_to_list es).*2 → es !! eid e = Some e).
  { intros e He. apply list_elem_of_fmap in He as ([j e'] & -> & Hje).
    apply elem_of_map_to_list in Hje. simpl. by rewrite (Hwf _ _ Hje). }
  apply NoDup_fmap_2_strong.
  - intros x y Hx Hy Hxy.
    apply list_elem_of_filter in Hx as [_ Hx], Hy as [_ Hy].
    apply Hin in Hx, Hy. rewrite Hxy in Hx. congruence.
  - apply NoDup_filter. apply NoDup_fmap_2_strong; [|apply NoDup_map_to_list].
    intros [j e] [j' e'] Hx Hy Hxy. simpl in Hxy. subst e'.
    apply elem_of_map_to_list in Hx, Hy.
    rewrite <- (Hwf _ _ Hx), <- (Hwf _ _ Hy). done.
Qed.

Lemma labels_ext (es es' : gmap nat E) ids :
  (∀ i, i ∈ ids → es !! i = es' !! i) → labels es ids = labels es' ids.
Proof.
  unfold labels. induction ids as [|i ids IH]; intros H; [done|].
  assert (IH' := IH (λ j Hj, H j (list_elem_of_further _ _ _ Hj))).
  cbn [omap list_omap]. rewrite (H i) by (by left).
  destruct (lbl <$> es' !! i); [f_equal|]; exact IH'.
Qed.

Lemma merged_upto_nil es : merged_upto [] es = es.
Proof.
  apply map_eq. intros i. unfold merged_upto. rewrite map_lookup_imap.
  destruct (es !! i) as [e|]; [|done]. simpl.
  destruct (key e) as [p|]; [|done].
  destruct (decide (p ∈ [])) as [H|H]; [by apply elem_of_nil in H|done].
Qed.

Lemma lookup_merged_upto done es i :
  merged_upto done es !! i =
    es !! i ≫= λ e,
      match key e with
      | None => Some e
      | Some p => if decide (p ∈ done) then rule es i e p else Some e
      end.
Proof. unfold merged_upto. by rewrite map_lookup_imap. Qed.

Lemma foldl_stepH_edges es0 c BL :
  wf_ids es0 → NoDup BL.*1 →
  (∀ p ids, (p, ids) ∈ BL → ids = group es0 p) →
  (foldl stepH (c, es0) BL).2 = merged_upto BL.*1 es0.
Proof.
  intros Hwf. induction BL as [|[p ids] BL IH] using rev_ind; intros Hnd Hgr.
  - simpl. by rewrite merged_upto_nil.
  - rewrite foldl_snoc, fmap_app. rewrite fmap_app in Hnd.
    apply NoDup_app in Hnd as (Hnd & Hp & _).
    assert (Hp' : p ∉ BL.*1).
    { intros Hin. apply (Hp p Hin). simpl. by left. }
    specialize (IH Hnd (λ q l H, Hgr q l (proj2 (elem_of_app _ _ _) (or_introl H)))).
    destruct (foldl stepH (c, es0) BL) as [c' es']. simpl in IH. subst es'.
    assert (Hids : ids = group es0 p).
    { apply Hgr. apply elem_of_app. right. by left. }
    assert (Hkeep : ∀ i, i ∈ ids → merged_upto BL.*1 es0 !! i = es0 !! i).
    { intros i Hi. rewrite Hids in Hi. apply elem_of_group in Hi as (e & Hi & Hk); [|done].
      rewrite lookup_merged_upto, Hi. simpl. rewrite Hk.
      by rewrite decide_False. }
    unfold stepH. cbn [snd fst].
    apply map_eq. intros i. rewrite (lookup_merged_upto (_ ++ _)).
    case_bool_decide as Hsmall.
    + cbn [snd]. rewrite lookup_merged_upto.
      destruct (es0 !! i) as [e|]; [|done]. simpl.
      destruct (key e) as [q|] eqn:Hk; [|done].
      destruct (decide (q = p)) as [->|Hne].
      * rewrite decide_False by done. rewrite decide_True by (apply elem_of_app; right; by left).
        unfold rule. rewrite <- Hids. by rewrite bool_decide_true.
      * destruct (decide (q ∈ BL.*1)) as [Hq|Hq].
        -- rewrite decide_True by (apply elem_of_app; by left). done.
        -- rewrite decide_False; [done|]. rewrite elem_of_app. simpl.
           rewrite list_elem_of_singleton. tauto.
    + cbn [snd]. rewrite foldl_delete_lookup.
      rewrite (labels_ext _ es0) by done.
      destruct ids as [|i0 tl]; [simpl in Hsmall; lia|]. cbn [head tail].
      assert (Hnd' : NoDup (i0 :: tl)) by (rewrite Hids; by apply NoDup_group).
      apply NoDup_cons in Hnd' as [Hi0 _].
      destruct (decide (i ∈ tl)) as [Hi|Hi].
      * assert (Hi' : i ∈ group es0 p) by (rewrite <- Hids; by right).
        apply elem_of_group in Hi' as (e & Hie & Hk); [|done].
        rewrite Hie. simpl. rewrite Hk.
        rewrite decide_True by (apply elem_of_app; right; by left).
        unfold rule. rewrite <- Hids.
        rewrite bool_decide_false by done.
        rewrite bool_decide_false; [done|]. simpl. intros [= ->]. done.
      * destruct (decide (i = i0)) as [->|Hne].
        -- rewrite lookup_alter_eq, Hkeep by (by left).
           assert (Hi' : i0 ∈ group es0 p) by (rewrite <- Hids; by left).
           apply elem_of_group in Hi' as (e & Hie & Hk); [|done].
           rewrite Hie. simpl. rewrite Hk.
           rewrite decide_True by (apply elem_of_app; right; by left).
           unfold rule. rewrite <- Hids.
           rewrite bool_decide_false by done.
           by rewrite bool_decide_true.
        -- rewrite lookup_alter_ne by done. rewrite lookup_merged_upto.
           destruct (es0 !! i) as [e|] eqn:Hie; [|done]. simpl.
           destruct (key e) as [q|] eqn:Hk; [|done].
           assert (q ≠ p).
           { intros ->. assert (Hi' : i ∈ group es0 p) by (apply elem_of_group; eauto).
             rewrite <- Hids in Hi'. apply elem_of_cons in Hi'. tauto. }
           destruct (decide (q ∈ BL.*1)) as [Hq|Hq].
           ++ rewrite decide_True by (apply elem_of_app; by left). done.
           ++ rewrite decide_False; [done|]. rewrite elem_of_app. simpl.
              rewrite list_elem_of_singleton. tauto.
Qed.

Lemma merged_upto_snoc_ne done p es i e q :
  es !! i = Some e → key e = Some q → q ≠ p →
  merged_upto (done ++ [p]) es !! i = merged_upto done es !! i.
Proof.
  intros Hi Hk Hne. rewrite !lookup_merged_upto, Hi. simpl. rewrite Hk.
  destruct (decide (q ∈ done)) as [Hq|Hq].
  - rewrite decide_True by (apply elem_of_app; by left). done.
  - rewrite decide_False; [done|]. rewrite elem_of_app, list_elem_of_singleton. tauto.
Qed.

Lemma foldl_stepL_edges es0 BL :
  wf_ids es0 → NoDup BL.*1 →
  (∀ p ids, (p, ids) ∈ BL → ids = group es0 p) →
  let r := foldl stepL (es0, []) BL in
  foldl (λ es eid, delete eid es) r.1 r.2 = merged_upto BL.*1 es0
  ∧ (∀ i e q, es0 !! i = Some e → key e = Some q → q ∉ BL.*1 →
       r.1 !! i = Some e ∧ i ∉ r.2).
Proof.
  intros Hwf. induction BL as [|[p ids] BL IH] using rev_ind; intros Hnd Hgr.
  - simpl. rewrite merged_upto_nil. split; [done|]. intros i e q Hi _ _.
    split; [done|]. apply not_elem_of_nil.
  - rewrite foldl_snoc, fmap_app. rewrite fmap_app in Hnd.
    apply NoDup_app in Hnd as (Hnd & Hp & _).
    assert (Hp' : p ∉ BL.*1).
    { intros Hin. apply (Hp p Hin). simpl. by left. }
    specialize (IH Hnd (λ q l H, Hgr q l (proj2 (elem_of_app _ _ _) (or_introl H)))).
    destruct (foldl stepL (es0, []) BL) as [es' rm']. cbn [fst snd] in IH.
    destruct IH as [IH1 IH2].
    assert (Hids : ids = group es0 p).
    { apply Hgr. apply elem_of_app. right. by left. }
    assert (Hkeep : ∀ i, i ∈ ids → es' !! i = es0 !! i ∧ i ∉ rm').
    { intros i Hi. rewrite Hids in Hi. apply elem_of_group in Hi as (e & Hi & Hk); [|done].
      rewrite Hi. by eapply IH2. }
    unfold stepL. cbn [snd fst].
    case_bool_decide as Hsmall; cbn [fst snd].
    + split.
      * rewrite IH1. apply map_eq. intros i.
        rewrite !lookup_merged_upto.
        destruct (es0 !! i) as [e|]; [|done]. simpl.
        destruct (key e) as [q|] eqn:Hk; [|done].
        destruct (decide (q = p)) as [->|Hne].
        -- rewrite decide_False by done. rewrite decide_True by (apply elem_of_app; right; by left).
           unfold rule. rewrite <- Hids. by rewrite bool_decide_true.
        -- destruct (decide (q ∈ BL.*1)) as [Hq|Hq].
           ++ rewrite decide_True by (apply elem_of_app; by left). done.
           ++ rewrite decide_False; [done|]. rewrite elem_of_app. simpl.
              rewrite list_elem_of_singleton. tauto.
      * intros i e q Hi Hk Hq. apply (IH2 i e q Hi Hk).
        intros Hin. apply Hq. apply elem_of_app. by left.
    + rewrite (labels_ext _ es0) by (intros j Hj; by apply Hkeep).
      destruct ids as [|i0 tl]; [simpl in Hsmall; lia|]. cbn [head tail].
      assert (Hnd' : NoDup (i0 :: tl)) by (rewrite Hids; by apply NoDup_group).
      apply NoDup_cons in Hnd' as [Hi0 _].
      split.
      * apply map_eq. intros i. rewrite foldl_delete_lookup.
        assert (Hold := f_equal (λ m, m !! i) IH1). simpl in Hold.
        rewrite foldl_delete_lookup in Hold.
        destruct (decide (i ∈ tl)) as [Hi|Hi].
        { rewrite decide_True by (apply elem_of_app; by right).
          assert (Hi' : i ∈ group es0 p) by (rewrite <- Hids; by right).
          apply elem_of_group in Hi' as (e & Hie & Hk); [|done].
          rewrite lookup_merged_upto, Hie. simpl. rewrite Hk.
          rewrite decide_True by (apply elem_of_app; right; by left).
          unfold rule. rewrite <- Hids.
          rewrite bool_decide_false by done.
          rewrite bool_decide_false; [done|]. simpl. intros [= ->]. done. }
        destruct (decide (i = i0)) as [->|Hne].
        { destruct (Hkeep i0) as [Hk1 Hk2]; [by left|].
          rewrite decide_False by (rewrite elem_of_app; tauto).
          rewrite lookup_alter_eq, Hk1.
          assert (Hi' : i0 ∈ group es0 p) by (rewrite <- Hids; by left).
          apply elem_of_group in Hi' as (e & Hie & Hk); [|done].
          rewrite lookup_merged_upto, Hie. simpl. rewrite Hk.
          rewrite decide_True by (apply elem_of_app; right; by left).
          unfold rule. rewrite <- Hids.
          rewrite bool_decide_false by done.
          by rewrite bool_decide_true. }
        assert (Hq : ∀ e q, es0 !! i = Some e → key e = Some q → q ≠ p).
        { intros e q Hie Hk ->.
          assert (Hi' : i ∈ group es0 p) by (apply elem_of_group; eauto).
          rewrite <- Hids in Hi'. apply elem_of_cons in Hi'. tauto. }
        rewrite lookup_alter_ne by done.
        assert (Hsame : merged_upto (BL.*1 ++ [p]) es0 !! i = merged_upto BL.*1 es0 !! i).
        { destruct (es0 !! i) as [e|] eqn:Hie.
          - destruct (key e) as [q|] eqn:Hk.
            + eapply merged_upto_snoc_ne; eauto.
            + rewrite !lookup_merged_upto, Hie. simpl. by rewrite Hk.
          - rewrite !lookup_merged_upto, Hie. done. }
        simpl. rewrite Hsame, <- Hold.
        destruct (decide (i ∈ rm')) as [Hr|Hr].
        -- rewrite decide_True by (apply elem_of_app; by left). done.
        -- rewrite decide_False by (rewrite elem_of_app; tauto). done.
      * intros i e q Hi Hk Hq.
        assert (q ≠ p).
        { intros ->. apply Hq. apply elem_of_app. right. by left. }
        destruct (IH2 i e q Hi Hk) as [H1 H2].
        { intros Hin. apply Hq. apply elem_of_app. by left. }
        assert (i ∉ i0 :: tl).
        { rewrite Hids. intros Hin. apply elem_of_group in Hin as (e' & Hie' & Hk'); [|done].
          congruence. }
        split.
        -- rewrite lookup_alter_ne; [done|]. intros ->. apply H0. by left.
        -- rewrite elem_of_app. intros [?|?]; [done|]. apply H0. by right.
Qed.

Lemma buckets_of_lookup es p :
  buckets_of es !! p = if decide (group es p = []) then None else Some (group es p).
Proof. apply buckets_lookup. Qed.

Lemma buckets_entries es p ids :
  (p, ids) ∈ map_to_list (buckets_of es) → ids = group es p.
Proof.
  intros H. apply elem_of_map_to_list in H. rewrite buckets_of_lookup in H.
  case_decide; congruence.
Qed.

Lemma merged_upto_all es :
  wf_ids es → merged_upto (map_to_list (buckets_of es)).*1 es = merged es.
Proof.
  intros Hwf. apply map_eq. intros i. rewrite lookup_merged_upto.
  unfold merged. rewrite map_lookup_imap.
  destruct (es !! i) as [e|] eqn:Hi; [|done]. simpl.
  destruct (key e) as [p|] eqn:Hk; [|done].
  rewrite decide_True; [done|].
  apply list_elem_of_fmap. exists (p, group es p). split; [done|].
  apply elem_of_map_to_list. rewrite buckets_of_lookup.
  rewrite decide_False; [done|].
  assert (Hin : i ∈ group es p) by (apply elem_of_group; eauto).
  intros Hnil. rewrite Hnil in Hin. by apply elem_of_nil in Hin.
Qed.

Theorem stepH_merged es c :
  wf_ids es →
  (foldl stepH (c, es) (map_to_list (buckets_of es))).2 = merged es.
Proof.
  intros Hwf. rewrite foldl_stepH_edges; [by apply merged_upto_all|done|..].
  - apply NoDup_fst_map_to_list.
  - apply buckets_entries.
Qed.

Theorem stepL_merged es :
  wf_ids es →
  let r := foldl stepL (es, []) (map_to_list (buckets_of es)) in
  foldl (λ es eid, delete eid es) r.1 r.2 = merged es.
Proof.
  intros Hwf. simpl.
  destruct (foldl_stepL_edges es (map_to_list (buckets_of es))) as [H _];
    [done|apply NoDup_fst_map_to_list|apply buckets_entries|].
  rewrite H. by apply merged_upto_all.
Qed.

Lemma stepH_changed BL : ∀ c es,
  (foldl stepH (c, es) BL).1 =
    c || existsb (λ entry : nat * nat * list nat,
                    negb (bool_decide (length entry.2 < 2))) BL.
Proof.
  induction BL as [|entry BL IH]; intros c es; simpl.
  - by rewrite orb_false_r.
  - case_bool_decide; simpl; rewrite IH; [done|].
    by rewrite orb_true_r.
Qed.

Lemma length_group_two es p :
  2 ≤ length (group es p) ↔
  ∃ i j e1 e2, i ≠ j ∧ es !! i = Some e1 ∧ es !! j = Some e2
               ∧ key e1 = Some p ∧ key e2 = Some p.
Proof.
  unfold group, ids_of. rewrite length_fmap, length_filter_fmap.
  rewrite two_le_length_NoDup by (apply NoDup_filter, NoDup_map_to_list).
  split.
  - intros ([i e1] & [j e2] & Hne & Hx & Hy).
    apply list_elem_of_filter in Hx as [Hk1 Hx], Hy as [Hk2 Hy].
    apply elem_of_map_to_list in Hx, Hy. simpl in *.
    exists i, j, e1, e2. split; [|done]. intros ->. congruence.
  - intros (i & j & e1 & e2 & Hne & Hi & Hj & Hk1 & Hk2).
    exists (i, e1), (j, e2). split; [congruence|].
    split; apply list_elem_of_filter; (split; [done|by apply elem_of_map_to_list]).
Qed.

Theorem stepH_changed_iff es c' es' :
  foldl stepH (false, es) (map_to_list (buckets_of es)) = (c', es') →
  c' = true ↔
  ∃ i j e1 e2 p, i ≠ j ∧ es !! i = Some e1 ∧ es !! j = Some e2
                 ∧ key e1 = Some p ∧ key e2 = Some p.
Proof.
  intros Hf. assert (Hc := stepH_changed (map_to_list (buckets_of es)) false es).
  rewrite Hf in Hc. simpl in Hc. rewrite Hc, existsb_exists. split.
  - intros ([p ids] & Hin & Hbig). apply list_elem_of_In in Hin.
    apply buckets_entries in Hin as ->. simpl in Hbig.
    apply negb_true_iff, bool_decide_eq_false in Hbig.
    assert (H2 : 2 ≤ length (group es p)) by lia.
    apply length_group_two in H2 as (i & j & e1 & e2 & ?).
    by exists i, j, e1, e2, p.
  - intros (i & j & e1 & e2 & p & H).
    assert (H2 : 2 ≤ length (group es p)) by (apply length_group_two; eauto 10).
    exists (p, group es p). split.
    + apply list_elem_of_In, elem_of_map_to_list. rewrite buckets_of_lookup.
      rewrite decide_False; [done|]. intros Hnil. rewrite Hnil in H2. simpl in H2. lia.
    + simpl. apply negb_true_iff, bool_decide_eq_false. lia.
Qed.

Lemma lookup_merged_Some es i e' :
  merged es !! i = Some e' →
  ∃ e, es !! i = Some e ∧ (e' = e ∨ ∃ l, e' = set_lbl l e).
Proof.
  unfold merged. rewrite map_lookup_imap.
  destruct (es !! i) as [e|]; [|done]. simpl. intros H. exists e. split; [done|].
  destruct (key e); [|left; congruence].
  unfold rule in H. repeat case_bool_decide; simplify_eq; eauto.
Qed.

Hypothesis key_set_lbl : ∀ l e, key (set_lbl l e) = key e.

Hypothesis eid_set_lbl : ∀ l e, eid (set_lbl l e) = eid e.

Lemma wf_ids_merged es : wf_ids es → wf_ids (merged es).
Proof.
  intros Hwf i e' H. apply lookup_merged_Some in H as (e & Hi & [->|[l ->]]).
  - by apply Hwf.
  - rewrite eid_set_lbl. by apply Hwf.
Qed.

Lemma lookup_merged es i :
  merged es !! i =
    es !! i ≫= λ e,
      match key e with
      | None => Some e
      | Some p => rule es i e p
      end.
Proof. unfold merged. by rewrite map_lookup_imap. Qed.

Lemma lookup_merged_key es i a p :
  wf_ids es → merged es !! i = Some a → key a = Some p →
  i ∈ group es p ∧ (length (group es p) < 2 ∨ head (group es p) = Some i).
Proof.
  intros Hwf. rewrite lookup_merged.
  destruct (es !! i) as [e|] eqn:Hie; [|done]. simpl.
  destruct (key e) as [q|] eqn:Hk.
  - unfold rule. repeat case_bool_decide; intros [= <-] Hq.
    + assert (q = p) as -> by congruence.
      split; [|by left]. apply elem_of_group; eauto.
    + rewrite key_set_lbl in Hq. assert (q = p) as -> by congruence.
      split; [|by right]. apply elem_of_group; eauto.
  - intros [= <-]. congruence.
Qed.

Lemma merged_no_parallel es i j a b p :
  wf_ids es →
  merged es !! i = Some a → merged es !! j = Some b →
  key a = Some p → key b = Some p → i = j.
Proof.
  intros Hwf Hi Hj Ha Hb.
  destruct (lookup_merged_key _ _ _ _ Hwf Hi Ha) as [Hgi Hci].
  destruct (lookup_merged_key _ _ _ _ Hwf Hj Hb) as [Hgj Hcj].
  destruct (group es p) as [|x [|y l]] eqn:Hg.
  - by apply elem_of_nil in Hgi.
  - apply list_elem_of_singleton in Hgi, Hgj. congruence.
  - simpl in *. destruct Hci as [?|Hci]; [lia|]. destruct Hcj as [?|Hcj]; [lia|].
    congruence.
Qed.

Lemma length_group_merged es p :
  wf_ids es → length (group (merged es) p) < 2.
Proof.
  intros Hwf.
  assert (Hwf' := wf_ids_merged _ Hwf).
  assert (Hnd := NoDup_group (merged es) p Hwf').
  assert (Heq : ∀ x y, x ∈ group (merged es) p → y ∈ group (merged es) p → x = y).
  { intros x y Hx Hy.
    apply elem_of_group in Hx as (a & Hx & Ha); [|done].
    apply elem_of_group in Hy as (b & Hy & Hb); [|done].
    exact (merged_no_parallel es x y a b p Hwf Hx Hy Ha Hb). }
  destruct (group (merged es) p) as [|x [|y l]]; simpl; [lia..|].
  exfalso. apply NoDup_cons in Hnd as [Hx _]. apply Hx.
  rewrite (Heq x y); [by left|by left|right; by left].
Qed.

Lemma merged_small es :
  (∀ p, length (group es p) < 2) → merged es = es.
Proof.
  intros Hs. apply map_eq. intros i. rewrite lookup_merged.
  destruct (es !! i) as [e|]; [|done]. simpl.
  destruct (key e) as [p|]; [|done]. unfold rule.
  by rewrite bool_decide_true.
Qed.

Theorem merged_idempotent es : wf_ids es → merged (merged es) = merged es.
Proof. intros Hwf. apply merged_small. intros p. by apply length_group_merged. Qed.

Lemma labels_group es p :
  wf_ids es →
  labels es (group es p) = lbl <$> filter (λ e, key e = Some p) (map_to_list es).*2.
Proof.
  intros Hwf. unfold group, ids_of, labels.
  assert (Hin : ∀ e, e ∈ filter (λ e, key e = Some p) (map_to_list es).*2 →
                     es !! eid e = Some e).
  { intros e He. apply list_elem_of_filter in He as [_ He].
    apply list_elem_of_fmap in He as ([j e'] & -> & Hje).
    apply elem_of_map_to_list in Hje. simpl. by rewrite (Hwf _ _ Hje). }
  induction (filter (λ e, key e = Some p) (map_to_list es).*2) as [|e l IH]; [done|].
  rewrite !fmap_cons. cbn [omap list_omap]. rewrite Hin by (by left).
  cbn [fmap option_fmap option_map]. f_equal. apply IH.
  intros e' He'. apply Hin. by right.
Qed.

Theorem merged_group es p i0 tl :
  wf_ids es → group es p = i0 :: tl → tl ≠ [] →
  ∃ e0, es !! i0 = Some e0 ∧ key e0 = Some p
        ∧ merged es !! i0 = Some (set_lbl (mk (labels es (i0 :: tl))) e0)
        ∧ ∀ j, j ∈ tl → merged es !! j = None.
Proof.
  intros Hwf Hg Htl.
  assert (Hbig : ¬ length (group es p) < 2).
  { rewrite Hg. destruct tl; [done|]. simpl. lia. }
  assert (Hi0 : i0 ∈ group es p) by (rewrite Hg; by left).
  apply elem_of_group in Hi0 as (e0 & Hi0 & Hk0); [|done].
  exists e0. split; [done|]. split; [done|]. split.
  - rewrite lookup_merged, Hi0. simpl. rewrite Hk0. unfold rule.
    rewrite bool_decide_false by done. rewrite Hg. by rewrite bool_decide_true.
  - intros j Hj.
    assert (Hj' : j ∈ group es p) by (rewrite Hg; by right).
    apply elem_of_group in Hj' as (e & Hje & Hk); [|done].
    rewrite lookup_merged, Hje. simpl. rewrite Hk. unfold rule.
    rewrite bool_decide_false by done. rewrite Hg.
    rewrite bool_decide_false; [done|]. simpl. intros [= ->].
    assert (Hnd := NoDup_group es p Hwf). rewrite Hg in Hnd.
    apply NoDup_cons in Hnd as [? _]. done.
Qed.

Lemma merged_other es i e :
  es !! i = Some e → key e = None → merged es !! i = Some e.
Proof. intros Hi Hk. rewrite lookup_merged, Hi. simpl. by rewrite Hk. Qed.

Lemma lookup_of_forEach es e :
  wf_ids es → e ∈ (map_to_list es).*2 → es !! eid e = Some e.
Proof.
  intros Hwf He. apply list_elem_of_fmap in He as ([j e'] & -> & Hje).
  apply elem_of_map_to_list in Hje. simpl. by rewrite (Hwf _ _ Hje).
Qed.

Theorem merged_groups es p :
  wf_ids es →
  match filter (λ e, key e = Some p) (map_to_list es).*2 with
  | [] => True
  | [e] => merged es !! eid e = Some e
  | e0 :: rest =>
      merged es !! eid e0 = Some (set_lbl (mk (lbl <$> e0 :: rest)) e0)
      ∧ Forall (λ e, merged es !! eid e = None) rest
  end.
Proof.
  intros Hwf.
  assert (Hl := labels_group es p Hwf).
  assert (Hg : group es p = eid <$> filter (λ e, key e = Some p) (map_to_list es).*2)
    by done.
  assert (Hin : ∀ e, e ∈ filter (λ e, key e = Some p) (map_to_list es).*2 →
                     es !! eid e = Some e ∧ key e = Some p).
  { intros e He. apply list_elem_of_filter in He as [Hk He].
    split; [by apply lookup_of_forEach|done]. }
  destruct (filter (λ e, key e = Some p) (map_to_list es).*2) as [|e0 [|e1 rest]].
  - done.
  - destruct (Hin e0) as [Hi Hk]; [by left|].
    rewrite lookup_merged, Hi. simpl. rewrite Hk. unfold rule. rewrite Hg.
    by rewrite bool_decide_true by (simpl; lia).
  - rewrite !fmap_cons in Hg.
    destruct (merged_group es p _ _ Hwf Hg) as (e0' & Hi0 & _ & Hm & Hrest); [done|].
    destruct (Hin e0) as [Hi _]; [by left|].
    assert (e0' = e0) as -> by congruence.
    rewrite <- Hg, Hl in Hm. split; [done|].
    apply Forall_forall. intros e He. apply Hrest.
    rewrite <- fmap_cons. by apply list_elem_of_fmap_2.
Qed.

Lemma stepH_unchanged BL : ∀ c es,
  existsb (λ entry : SymRef * SymRef * list nat,
             negb (bool_decide (length entry.2 < 2))) BL = false →
  foldl stepH (c, es) BL = (c, es).
Proof.
  induction BL as [|entry BL IH]; intros c es; simpl; [done|].
  case_bool_decide; simpl; [|done]. apply IH.
Qed.

End MergeFacts.

(** ** [mergeMultiEdges] of linear graphs *)

Module GraphFacts.
Import ChcDirectedGraph GraphSpec.

Lemma mergeMultiEdges_unfold g :
  mergeMultiEdges g =
    let r := foldl (stepL fla set_fla (mkOr (logic g))) (edges g, [])
                   (map_to_list (buckets_of key id (edges g))) in
    set_edges (foldl (λ es eid, delete eid es) r.1 r.2) g.
Proof.
  unfold mergeMultiEdges.
  change (foldl _ (edges g, []) _)
    with (foldl (stepL fla set_fla (mkOr (logic g))) (edges g, [])
                (map_to_list (buckets_of key id (edges g)))).
  by destruct (foldl _ _ _).
Qed.

Lemma edges_mergeMultiEdges g :
  wf g →
  edges (mergeMultiEdges g) = merged key id fla set_fla (mkOr (logic g)) (edges g).
Proof.
  intros Hwf. rewrite mergeMultiEdges_unfold. simpl.
  by apply (stepL_merged key id fla set_fla (mkOr (logic g))).
Qed.

Lemma wf_mergeMultiEdges g : wf g → wf (mergeMultiEdges g).
Proof.
  intros Hwf. unfold wf. rewrite edges_mergeMultiEdges by done.
  by apply wf_ids_merged.
Qed.

Lemma group_parallelEdges g src dst :
  group key id (edges g) (src, dst) = id <$> parallelEdges g src dst.
Proof.
  unfold group, ids_of, parallelEdges, forEachEdge. f_equal.
  apply list_filter_iff. intros e. unfold key. split.
  - by intros [= -> ->].
  - by intros [-> ->].
Qed.

End GraphFacts.

(** ** [mergeMultiEdges] of hypergraphs *)

Module HyperGraphFacts.
Import ChcDirectedHyperGraph HyperGraphSpec.

Lemma buckets_fold l : ∀ b,
  foldl (λ buckets edge,
           match from edge with
           | [source] => push_back (source, to edge) (id edge) buckets
           | _ => buckets
           end) b l
  = foldl (add_bucket key id) b l.
Proof.
  induction l as [|e l IH]; intros b; [done|]. simpl. rewrite IH.
  unfold add_bucket, key. by destruct (from e) as [|? [|]].
Qed.

Lemma hyper_mergeMultiEdges_unfold g :
  mergeMultiEdges g =
    let r := foldl (stepH fla set_fla (mkOr (logic g))) (false, edges g)
                   (map_to_list (buckets_of key id (edges g))) in
    (r.1, set_edges r.2 g).
Proof.
  unfold mergeMultiEdges. rewrite buckets_fold.
  change (foldl _ (false, edges g) _)
    with (foldl (stepH fla set_fla (mkOr (logic g))) (false, edges g)
                (map_to_list (buckets_of key id (edges g)))).
  by destruct (foldl _ _ _).
Qed.

Lemma hyper_edges_mergeMultiEdges g :
  wf g →
  edges (mergeMultiEdges g).2
  = merged key id fla set_fla (mkOr (logic g)) (edges g).
Proof.
  intros Hwf. rewrite hyper_mergeMultiEdges_unfold. simpl.
  by apply (stepH_merged key id fla set_fla (mkOr (logic g))).
Qed.

Lemma hyper_wf_mergeMultiEdges g : wf g → wf (mergeMultiEdges g).2.
Proof.
  intros Hwf. unfold wf. rewrite hyper_edges_mergeMultiEdges by done.
  by apply wf_ids_merged.
Qed.

Lemma hyper_group_parallelEdges g src dst :
  group key id (edges g) (src, dst) = id <$> parallelEdges g src dst.
Proof.
  unfold group, ids_of, parallelEdges, forEachEdge. f_equal.
  apply list_filter_iff. intros e. unfold key. split.
  - destruct (from e) as [|? [|]]; [done| |done]. by intros [= -> ->].
  - by intros [-> ->].
Qed.

End HyperGraphFacts.

(** ** Every edge is stored under its id *)

Lemma wf_newEdge (g : ChcDirectedGraph.t) src dst label :
  GraphSpec.wf g → GraphSpec.wf (ChcDirectedGraph.newEdge src dst label g).2.
Proof.
  intros Hwf i e. cbn [ChcDirectedGraph.newEdge]. simpl.
  rewrite lookup_insert. case_decide as Hi.
  - intros [= <-]. done.
  - apply Hwf.
Qed.

(** The graphs the constructor builds satisfy it. *)
Lemma wf_make es p l : GraphSpec.wf (ChcDirectedGraph.make es p l).
Proof.
  unfold ChcDirectedGraph.make.
  assert (Hgen : ∀ g0, GraphSpec.wf g0 →
            GraphSpec.wf
              (foldl (λ g e, (ChcDirectedGraph.newEdge (ChcDirectedGraph.from e)
                                (ChcDirectedGraph.to e) (ChcDirectedGraph.fla e) g).2)
                     g0 es)).
  { induction es as [|e es IH]; intros g0 Hg0; [done|].
    cbn [foldl]. apply IH. by apply wf_newEdge. }
  apply Hgen. intros i e. simpl. by rewrite lookup_empty.
Qed.

Lemma hyper_wf_newEdge (g : ChcDirectedHyperGraph.t) srcs dst label :
  HyperGraphSpec.wf g →
  HyperGraphSpec.wf (ChcDirectedHyperGraph.newEdge srcs dst label g).2.
Proof.
  intros Hwf i e. cbn [ChcDirectedHyperGraph.newEdge]. simpl.
  rewrite lookup_insert. case_decide as Hi.
  - intros [= <-]. done.
  - apply Hwf.
Qed.

(** ** The claims about [mergeMultiEdges] *)

Module G := ChcDirectedGraph.
Module H := ChcDirectedHyperGraph.

Lemma linear_mergeMultiEdges_eq g :
  GraphSpec.wf g →
  G.mergeMultiEdges g
  = G.set_edges (merged GraphSpec.key G.id G.fla G.set_fla
                        (mkOr (G.logic g)) (G.edges g)) g.
Proof.
  intros Hwf. rewrite <- GraphFacts.edges_mergeMultiEdges by done.
  rewrite GraphFacts.mergeMultiEdges_unfold. done.
Qed.

Lemma hyper_mergeMultiEdges_eq h :
  HyperGraphSpec.wf h →
  (H.mergeMultiEdges h).2
  = H.set_edges (merged HyperGraphSpec.key H.id H.fla H.set_fla
                        (mkOr (H.logic h)) (H.edges h)) h.
Proof.
  intros Hwf. rewrite <- HyperGraphFacts.hyper_edges_mergeMultiEdges by done.
  rewrite HyperGraphFacts.hyper_mergeMultiEdges_unfold. done.
Qed.

Lemma linear_no_multi_edges g :
  GraphSpec.wf g → GraphSpec.no_multi_edges (G.mergeMultiEdges g).
Proof.
  intros Hwf i j e1 e2 Hi Hj Hf Ht.
  rewrite GraphFacts.edges_mergeMultiEdges in Hi, Hj by done.
  eapply (merged_no_parallel GraphSpec.key G.id G.fla G.set_fla);
    [done|exact Hwf|exact Hi|exact Hj|reflexivity|].
  unfold GraphSpec.key. by rewrite Hf, Ht.
Qed.

Lemma linear_groups_merged g :
  GraphSpec.wf g → GraphSpec.groups_merged g (G.mergeMultiEdges g).
Proof.
  intros Hwf src dst. rewrite GraphFacts.edges_mergeMultiEdges by done.
  assert (Hm := merged_groups GraphSpec.key G.id G.fla G.set_fla
                  (mkOr (G.logic g)) (G.edges g) (src, dst) Hwf).
  unfold GraphSpec.parallelEdges, G.forEachEdge.
  rewrite (list_filter_iff _ (λ e, GraphSpec.key e = Some (src, dst))); [done|].
  intros e. unfold GraphSpec.key. split.
  - by intros [-> ->].
  - by intros [= -> ->].
Qed.

Lemma hyper_no_linear_multi_edges h :
  HyperGraphSpec.wf h →
  HyperGraphSpec.no_linear_multi_edges (H.mergeMultiEdges h).2.
Proof.
  intros Hwf i j e1 e2 source Hi Hj Hf1 Hf2 Ht.
  rewrite HyperGraphFacts.hyper_edges_mergeMultiEdges in Hi, Hj by done.
  eapply (merged_no_parallel HyperGraphSpec.key H.id H.fla H.set_fla);
    [done|exact Hwf|exact Hi|exact Hj|..].
  - unfold HyperGraphSpec.key. by rewrite Hf1.
  - unfold HyperGraphSpec.key. by rewrite Hf2, Ht.
Qed.

Lemma hyper_groups_merged h :
  HyperGraphSpec.wf h →
  HyperGraphSpec.groups_merged h (H.mergeMultiEdges h).2.
Proof.
  intros Hwf src dst. rewrite HyperGraphFacts.hyper_edges_mergeMultiEdges by done.
  assert (Hm := merged_groups HyperGraphSpec.key H.id H.fla H.set_fla
                  (mkOr (H.logic h)) (H.edges h) (src, dst) Hwf).
  unfold HyperGraphSpec.parallelEdges, H.forEachEdge.
  rewrite (list_filter_iff _ (λ e, HyperGraphSpec.key e = Some (src, dst)));
    [done|].
  intros e. unfold HyperGraphSpec.key. split.
  - by intros [-> ->].
  - destruct (H.from e) as [|? [|]]; [done| |done]. by intros [= -> ->].
Qed.

Lemma hyper_hyperedges_kept h :
  HyperGraphSpec.wf h →
  HyperGraphSpec.hyperedges_kept h (H.mergeMultiEdges h).2.
Proof.
  intros Hwf i e Hi Hlen. rewrite HyperGraphFacts.hyper_edges_mergeMultiEdges by done.
  apply merged_other; [done|]. unfold HyperGraphSpec.key.
  by destruct (H.from e) as [|? [|]].
Qed.

(** C2, as the code has it.  After [mergeMultiEdges] no two distinct edges of
    a linear graph share their endpoints, and no two distinct edges of a
    hypergraph that have a single source share source and target.  Of the
    edges between two vertices the first one is left, and when there were
    several its label is the disjunction of all their labels.  Hyperedges with
    several sources are left as they are. *)
Theorem mergeMultiEdges_merges_parallel_edges
    (g : ChcDirectedGraph.t) (h : ChcDirectedHyperGraph.t) :
  GraphSpec.wf g → HyperGraphSpec.wf h →
  let g' := ChcDirectedGraph.mergeMultiEdges g in
  let h' := (ChcDirectedHyperGraph.mergeMultiEdges h).2 in
  GraphSpec.no_multi_edges g'
  ∧ GraphSpec.groups_merged g g'
  ∧ HyperGraphSpec.no_linear_multi_edges h'
  ∧ HyperGraphSpec.groups_merged h h'
  ∧ HyperGraphSpec.hyperedges_kept h h'.
Proof.
  intros Hg Hh. simpl. split; [by apply linear_no_multi_edges|].
  split; [by apply linear_groups_merged|].
  split; [by apply hyper_no_linear_multi_edges|].
  split; [by apply hyper_groups_merged|by apply hyper_hyperedges_kept].
Qed.

Lemma mergeMultiEdges_merges_parallel_edges_witness :
  let g' := ChcDirectedGraph.mergeMultiEdges Examples.g_multi in
  let h' := (ChcDirectedHyperGraph.mergeMultiEdges Examples.h_multi).2 in
  GraphSpec.no_multi_edges g'
  ∧ GraphSpec.groups_merged Examples.g_multi g'
  ∧ HyperGraphSpec.no_linear_multi_edges h'
  ∧ HyperGraphSpec.groups_merged Examples.h_multi h'
  ∧ HyperGraphSpec.hyperedges_kept Examples.h_multi h'.
Proof.
  apply (mergeMultiEdges_merges_parallel_edges Examples.g_multi Examples.h_multi).
  - unfold GraphSpec.wf, wf_ids. compute_done.
  - unfold HyperGraphSpec.wf, wf_ids. compute_done.
Defined.

(** C2 as stated fails on hypergraphs: two hyperedges with the same two
    sources and the same target are both still there after
    [mergeMultiEdges]. *)
Lemma mergeMultiEdges_keeps_parallel_hyperedges :
  ¬ HyperGraphSpec.no_multi_edges
      (ChcDirectedHyperGraph.mergeMultiEdges Examples.h_hyper_multi).2.
Proof.
  intros Hno.
  specialize (Hno 0 1 (Examples.hedge [5; 6] 7 (App 50 []) 0)
                      (Examples.hedge [5; 6] 7 (App 51 []) 1)).
  discriminate Hno; reflexivity.
Qed.

Lemma hyper_mergeMultiEdges_changed_iff h :
  (H.mergeMultiEdges h).1 = true ↔
  ∃ i j e1 e2 p, i ≠ j ∧ H.edges h !! i = Some e1 ∧ H.edges h !! j = Some e2
                 ∧ HyperGraphSpec.key e1 = Some p ∧ HyperGraphSpec.key e2 = Some p.
Proof.
  rewrite HyperGraphFacts.hyper_mergeMultiEdges_unfold. cbn [fst].
  destruct (foldl _ _ _) as [c es] eqn:Hf. cbn [fst].
  exact (stepH_changed_iff _ _ _ _ _ _ _ _ Hf).
Qed.

Lemma hyper_key_Some e p :
  HyperGraphSpec.key e = Some p ↔ H.from e = [p.1] ∧ H.to e = p.2.
Proof.
  unfold HyperGraphSpec.key. destruct p as [s d]. simpl.
  destruct (H.from e) as [|a [|b l]].
  - split; [done|]. by intros [? _].
  - split.
    + by intros [= -> ->].
    + by intros [[= ->] ->].
  - split; [done|]. by intros [? _].
Qed.

(** C8.  A second [mergeMultiEdges] leaves the graph as the first one made
    it, for linear graphs and for hypergraphs; on a hypergraph it returns
    [false]. *)
Theorem mergeMultiEdges_idempotent
    (g : ChcDirectedGraph.t) (h : ChcDirectedHyperGraph.t) :
  GraphSpec.wf g → HyperGraphSpec.wf h →
  ChcDirectedGraph.mergeMultiEdges (ChcDirectedGraph.mergeMultiEdges g)
    = ChcDirectedGraph.mergeMultiEdges g
  ∧ ChcDirectedHyperGraph.mergeMultiEdges
      (ChcDirectedHyperGraph.mergeMultiEdges h).2
    = (false, (ChcDirectedHyperGraph.mergeMultiEdges h).2).
Proof.
  intros Hg Hh. split.
  - rewrite (linear_mergeMultiEdges_eq (G.mergeMultiEdges g))
      by (by apply GraphFacts.wf_mergeMultiEdges).
    rewrite (linear_mergeMultiEdges_eq g) by done. cbn [G.set_edges G.edges G.logic].
    by rewrite merged_idempotent.
  - assert (Hwf' := HyperGraphFacts.hyper_wf_mergeMultiEdges h Hh).
    assert (Hfst : (H.mergeMultiEdges (H.mergeMultiEdges h).2).1 = false).
    { apply not_true_is_false. rewrite hyper_mergeMultiEdges_changed_iff.
      intros (i & j & e1 & e2 & p & Hne & Hi & Hj & Hk1 & Hk2). apply Hne.
      rewrite HyperGraphFacts.hyper_edges_mergeMultiEdges in Hi, Hj by done.
      exact (merged_no_parallel HyperGraphSpec.key H.id H.fla H.set_fla _
               (λ _ _, eq_refl) _ i j e1 e2 p Hh Hi Hj Hk1 Hk2). }
    assert (Hsnd : (H.mergeMultiEdges (H.mergeMultiEdges h).2).2
                   = (H.mergeMultiEdges h).2).
    { rewrite (hyper_mergeMultiEdges_eq (H.mergeMultiEdges h).2) by done.
      rewrite (hyper_mergeMultiEdges_eq h) by done.
      cbn [H.set_edges H.edges H.logic]. by rewrite merged_idempotent. }
    destruct (H.mergeMultiEdges (H.mergeMultiEdges h).2) as [c h''].
    simpl in Hfst, Hsnd. by subst.
Qed.

Lemma mergeMultiEdges_idempotent_witness :
  ChcDirectedGraph.mergeMultiEdges
      (ChcDirectedGraph.mergeMultiEdges Examples.g_multi)
    = ChcDirectedGraph.mergeMultiEdges Examples.g_multi
  ∧ ChcDirectedHyperGraph.mergeMultiEdges
      (ChcDirectedHyperGraph.mergeMultiEdges Examples.h_multi).2
    = (false, (ChcDirectedHyperGraph.mergeMultiEdges Examples.h_multi).2).
Proof.
  apply (mergeMultiEdges_idempotent Examples.g_multi Examples.h_multi).
  - unfold GraphSpec.wf, wf_ids. compute_done.
  - unfold HyperGraphSpec.wf, wf_ids. compute_done.
Defined.

(** C9.  On a hypergraph whose edges are stored under their ids,
    [ChcDirectedHyperGraph::mergeMultiEdges] returns [true] exactly when the
    graph had two distinct edges with the same single source and the same
    target, and exactly when some merging happened: a group of such edges
    is one edge afterwards, with the disjunction of their labels, and the
    others are gone.  It returns [false] exactly when the graph is as it
    was. *)
Theorem mergeMultiEdges_returns_whether_merged (h : ChcDirectedHyperGraph.t) :
  HyperGraphSpec.wf h →
  let r := (ChcDirectedHyperGraph.mergeMultiEdges h).1 in
  let h' := (ChcDirectedHyperGraph.mergeMultiEdges h).2 in
  (r = true ↔
   ∃ i j e1 e2 source,
     i ≠ j
     ∧ ChcDirectedHyperGraph.edges h !! i = Some e1
     ∧ ChcDirectedHyperGraph.edges h !! j = Some e2
     ∧ ChcDirectedHyperGraph.from e1 = [source]
     ∧ ChcDirectedHyperGraph.from e2 = [source]
     ∧ ChcDirectedHyperGraph.to e1 = ChcDirectedHyperGraph.to e2)
  ∧ (r = true ↔ HyperGraphSpec.some_merged h h')
  ∧ (r = false ↔ h' = h).
Proof.
  intros Hwf r h'.
  assert (Hpair : r = true ↔
            ∃ src dst, 2 ≤ length (HyperGraphSpec.parallelEdges h src dst)).
  { unfold r. rewrite hyper_mergeMultiEdges_changed_iff. split.
    - intros (i & j & e1 & e2 & [s d] & Hne & Hi & Hj & Hk1 & Hk2).
      exists s, d.
      rewrite <- (length_fmap H.id), <- HyperGraphFacts.hyper_group_parallelEdges.
      apply length_group_two. by exists i, j, e1, e2.
    - intros (s & d & Hlen).
      rewrite <- (length_fmap H.id), <- HyperGraphFacts.hyper_group_parallelEdges in Hlen.
      apply length_group_two in Hlen as (i & j & e1 & e2 & Hne & Hi & Hj & Hk1 & Hk2).
      by exists i, j, e1, e2, (s, d). }
  assert (Hmerged : r = true ↔ HyperGraphSpec.some_merged h h').
  { rewrite Hpair. split.
    - intros (s & d & Hlen).
      assert (Hm := hyper_groups_merged h Hwf s d).
      destruct (HyperGraphSpec.parallelEdges h s d) as [|e0 [|e1 rest]] eqn:Hp;
        [simpl in Hlen; lia..|].
      destruct Hm as [H0 Hrest]. by exists s, d, e0, e1, rest.
    - intros (s & d & e0 & e1 & rest & Hp & _). exists s, d. rewrite Hp. simpl. lia. }
  split; [|split; [exact Hmerged|]].
  - unfold r. rewrite hyper_mergeMultiEdges_changed_iff. split.
    + intros (i & j & e1 & e2 & [s d] & Hne & Hi & Hj & Hk1 & Hk2).
      apply hyper_key_Some in Hk1 as [Hf1 Ht1], Hk2 as [Hf2 Ht2]. simpl in *.
      exists i, j, e1, e2, s. repeat (split; [done|]). congruence.
    + intros (i & j & e1 & e2 & s & Hne & Hi & Hj & Hf1 & Hf2 & Ht).
      exists i, j, e1, e2, (s, H.to e1). repeat (split; [done|]).
      split; apply hyper_key_Some; simpl; [done|]. by rewrite Ht.
  - split.
    + unfold r, h'. rewrite HyperGraphFacts.hyper_mergeMultiEdges_unfold. cbn [fst snd].
      rewrite stepH_changed. cbn [orb].
      destruct (existsb _ _) eqn:Hnone; [done|]. intros _.
      rewrite stepH_unchanged by done. by destruct h.
    + intros Heq. destruct r eqn:Hr; [|done]. exfalso.
      destruct Hmerged as [Hm _].
      destruct (Hm eq_refl) as (s & d & e0 & e1 & rest & Hp & _ & Hgone).
      apply Forall_cons in Hgone as [Hgone _]. rewrite Heq in Hgone.
      assert (Hin : e1 ∈ H.forEachEdge h).
      { assert (He : e1 ∈ HyperGraphSpec.parallelEdges h s d).
        { rewrite Hp. right. by left. }
        unfold HyperGraphSpec.parallelEdges in He.
        by apply list_elem_of_filter in He as [_ He]. }
      apply (lookup_of_forEach H.id) in Hin; [|exact Hwf]. congruence.
Qed.

Lemma mergeMultiEdges_returns_whether_merged_witness :
  let r := (ChcDirectedHyperGraph.mergeMultiEdges Examples.h_multi).1 in
  let h' := (ChcDirectedHyperGraph.mergeMultiEdges Examples.h_multi).2 in
  (r = true ↔
   ∃ i j e1 e2 source,
     i ≠ j
     ∧ ChcDirectedHyperGraph.edges Examples.h_multi !! i = Some e1
     ∧ ChcDirectedHyperGraph.edges Examples.h_multi !! j = Some e2
     ∧ ChcDirectedHyperGraph.from e1 = [source]
     ∧ ChcDirectedHyperGraph.from e2 = [source]
     ∧ ChcDirectedHyperGraph.to e1 = ChcDirectedHyperGraph.to e2)
  ∧ (r = true ↔ HyperGraphSpec.some_merged Examples.h_multi h')
  ∧ (r = false ↔ h' = Examples.h_multi).
Proof.
  apply (mergeMultiEdges_returns_whether_merged Examples.h_multi).
  unfold HyperGraphSpec.wf, wf_ids. compute_done.
Defined.

(** ** Adjacency maps *)

Lemma lookup_touch `{Countable K} {A} (k k' : K) (m : gmap K (list A)) :
  touch k m !! k' =
    if decide (k = k') then Some (default [] (m !! k')) else m !! k'.
Proof.
  unfold touch. case_decide as Hk.
  - subst. destruct (m !! k') eqn:Hm; [done|]. by rewrite lookup_insert_eq.
  - destruct (m !! k) eqn:Hm; [done|]. by rewrite lookup_insert_ne.
Qed.

Lemma lookup_push_back `{Countable K} {A} (k k' : K) (x : A) (m : gmap K (list A)) :
  push_back k x m !! k' =
    if decide (k = k') then Some (default [] (m !! k') ++ [x]) else m !! k'.
Proof.
  unfold push_back. case_decide as Hk.
  - subst. by rewrite lookup_insert_eq.
  - by rewrite lookup_insert_ne.
Qed.

(** ** Contraction of a vertex of a linear graph *)

Module GraphContract.
Import ChcDirectedGraph GraphSpec.

Lemma elem_of_endpoints_cons e l s :
  s ∈ endpoints (e :: l) ↔ from e = s ∨ to e = s ∨ s ∈ endpoints l.
Proof.
  unfold endpoints. rewrite bind_cons, elem_of_app, !elem_of_cons, elem_of_nil.
  intuition auto.
Qed.

Lemma filter_nil_endpoints l s :
  s ∉ endpoints l →
  filter (λ e, to e = s) l = [] ∧ filter (λ e, from e = s) l = [].
Proof.
  induction l as [|e l IH]; [done|]. rewrite elem_of_endpoints_cons.
  intros Hs. rewrite !filter_cons_False by tauto. apply IH. tauto.
Qed.

Lemma adj_incoming l : ∀ a s,
  incoming (foldl adjStep a l) !! s =
    if decide (s ∈ endpoints l)
    then Some (default [] (incoming a !! s) ++ (id <$> filter (λ e, to e = s) l))
    else incoming a !! s.
Proof.
  induction l as [|e l IH]; intros a s.
  - destruct (decide (s ∈ endpoints [])) as [H|H]; [by apply elem_of_nil in H|done].
  - cbn [foldl]. rewrite IH. unfold adjStep. cbn [incoming].
    rewrite lookup_touch, lookup_push_back.
    assert (Hc := elem_of_endpoints_cons e l s).
    assert (Hnil : s ∉ endpoints l → filter (λ e, to e = s) l = []).
    { intros Hs. apply filter_nil_endpoints in Hs. tauto. }
    destruct (decide (to e = s)) as [Ht|Ht].
    + rewrite filter_cons_True by done. rewrite fmap_cons.
      destruct (decide (s ∈ endpoints (e :: l))) as [_|Hn]; [|tauto].
      destruct (decide (from e = s)); cbn [default from_option Datatypes.id];
        (destruct (decide (s ∈ endpoints l)) as [Hs|Hs];
         [by rewrite <- app_assoc|by rewrite (Hnil Hs)]).
    + rewrite filter_cons_False by done.
      destruct (decide (from e = s)) as [Hf|Hf].
      * destruct (decide (s ∈ endpoints (e :: l))) as [_|Hn]; [|tauto].
        cbn [default from_option Datatypes.id].
        destruct (decide (s ∈ endpoints l)) as [Hs|Hs]; [done|].
        by rewrite (Hnil Hs), app_nil_r.
      * destruct (decide (s ∈ endpoints l)).
        -- destruct (decide (s ∈ endpoints (e :: l))) as [_|Hn]; [done|tauto].
        -- destruct (decide (s ∈ endpoints (e :: l))) as [Hn|_]; [tauto|done].
Qed.

Lemma adj_outgoing l : ∀ a s,
  outgoing (foldl adjStep a l) !! s =
    if decide (s ∈ endpoints l)
    then Some (default [] (outgoing a !! s) ++ (id <$> filter (λ e, from e = s) l))
    else outgoing a !! s.
Proof.
  induction l as [|e l IH]; intros a s.
  - destruct (decide (s ∈ endpoints [])) as [H|H]; [by apply elem_of_nil in H|done].
  - cbn [foldl]. rewrite IH. unfold adjStep. cbn [outgoing].
    rewrite lookup_touch, lookup_push_back.
    assert (Hc := elem_of_endpoints_cons e l s).
    assert (Hnil : s ∉ endpoints l → filter (λ e, from e = s) l = []).
    { intros Hs. apply filter_nil_endpoints in Hs. tauto. }
    destruct (decide (from e = s)) as [Ht|Ht].
    + rewrite filter_cons_True by done. rewrite fmap_cons.
      destruct (decide (s ∈ endpoints (e :: l))) as [_|Hn]; [|tauto].
      destruct (decide (to e = s)); cbn [default from_option Datatypes.id];
        (destruct (decide (s ∈ endpoints l)) as [Hs|Hs];
         [by rewrite <- app_assoc|by rewrite (Hnil Hs)]).
    + rewrite filter_cons_False by done.
      destruct (decide (to e = s)) as [Hf|Hf].
      * destruct (decide (s ∈ endpoints (e :: l))) as [_|Hn]; [|tauto].
        cbn [default from_option Datatypes.id].
        destruct (decide (s ∈ endpoints l)) as [Hs|Hs]; [done|].
        by rewrite (Hnil Hs), app_nil_r.
      * destruct (decide (s ∈ endpoints l)).
        -- destruct (decide (s ∈ endpoints (e :: l))) as [_|Hn]; [done|tauto].
        -- destruct (decide (s ∈ endpoints (e :: l))) as [Hn|_]; [tauto|done].
Qed.


Lemma getEdge_run c i e : edges c !! i = Some e → getEdge i c = (inr e, c).
Proof. intros H. unfold getEdge. st_unfold. by rewrite H. Qed.

Lemma mergeEdges_run c i o ein eout :
  edges c !! i = Some ein → edges c !! o = Some eout → to ein = from eout →
  mergeEdges i o c =
    (inr tt,
     set_edges (<[fresh (dom (edges c)) :=
                    mergedEdge c ein eout (fresh (dom (edges c)))]> (edges c)) c).
Proof.
  intros Hi Ho Hc. unfold mergeEdges.
  rewrite st_bind_run, (getEdge_run _ _ _ Hi).
  rewrite st_bind_run, (getEdge_run _ _ _ Ho).
  rewrite bool_decide_false by (intros H; by apply H).
  unfold mergeLabels, newEdge. st_unfold.
  rewrite bool_decide_true by done. done.
Qed.

Section Contract.
Variable g : t.
Variable sym : SymRef.

Local Abbreviation Base := (Base g sym).
Local Abbreviation Prod := (Prod g).
Hypothesis Hwf : wf_ids id (edges g).

Lemma Prod_mono c c' i o : Grows c c' → Prod c i o → Prod c' i o.
Proof.
  intros Hg Hp ein eout Hi Ho. destruct (Hp ein eout Hi Ho) as [n Hn].
  exists n. by apply Hg.
Qed.

Lemma mergedEdge_ext c ein eout n :
  predicates c = predicates g → logic c = logic g →
  mergedEdge c ein eout n = mergedEdge g ein eout n.
Proof.
  intros Hp Hl. unfold mergedEdge, mergedLabel, getStateVersion, getNextStateVersion.
  by rewrite Hp, Hl.
Qed.

Lemma merge_step c i o ein eout :
  Base c → edges g !! i = Some ein → edges g !! o = Some eout →
  to ein = sym → from eout = sym →
  ∃ c', mergeEdges i o c = (inr tt, c') ∧ Base c' ∧ Grows c c' ∧ Prod c' i o.
Proof.
  intros (Hp & Hl & Hgrow & Honly) Hi Ho Hto Hfrom.
  eexists. split.
  { apply (mergeEdges_run c i o ein eout); [by apply Hgrow|by apply Hgrow|congruence]. }
  set (n := fresh (dom (edges c))).
  assert (Hn : edges c !! n = None).
  { apply not_elem_of_dom. apply is_fresh. }
  rewrite (mergedEdge_ext c) by done.
  split; [|split].
  - split; [done|]. split; [done|]. split.
    + intros m e He. simpl. rewrite lookup_insert_ne; [by apply Hgrow|].
      intros <-. apply Hgrow in He. congruence.
    + intros m e. simpl. rewrite lookup_insert. case_decide as Hm.
      * intros [= <-]. subst m. right. by exists i, o, ein, eout.
      * apply Honly.
  - intros m e He. simpl. rewrite lookup_insert_ne; [done|]. congruence.
  - intros ein' eout' Hi' Ho'. exists n. simpl. rewrite lookup_insert_eq.
    congruence.
Qed.

Let L := forEachEdge g.
Let ins := id <$> filter (λ e, to e = sym) L.
Let outs := id <$> filter (λ e, from e = sym) L.

Lemma elem_of_forEachEdge e : e ∈ L ↔ edges g !! id e = Some e.
Proof.
  unfold L, forEachEdge. split.
  - by apply lookup_of_forEach.
  - intros H. apply list_elem_of_fmap. exists (id e, e). split; [done|].
    by apply elem_of_map_to_list.
Qed.

Lemma elem_of_ins i :
  i ∈ ins ↔ ∃ ein, edges g !! i = Some ein ∧ to ein = sym.
Proof.
  unfold ins. rewrite list_elem_of_fmap. split.
  - intros (e & -> & He). apply list_elem_of_filter in He as [Ht He].
    apply elem_of_forEachEdge in He. eauto.
  - intros (e & Hi & Ht). exists e. assert (Hid := Hwf _ _ Hi). simpl in Hid.
    subst. split; [done|]. apply list_elem_of_filter. split; [done|].
    by apply elem_of_forEachEdge.
Qed.

Lemma elem_of_outs o :
  o ∈ outs ↔ ∃ eout, edges g !! o = Some eout ∧ from eout = sym.
Proof.
  unfold outs. rewrite list_elem_of_fmap. split.
  - intros (e & -> & He). apply list_elem_of_filter in He as [Ht He].
    apply elem_of_forEachEdge in He. eauto.
  - intros (e & Hi & Ht). exists e. assert (Hid := Hwf _ _ Hi). simpl in Hid.
    subst. split; [done|]. apply list_elem_of_filter. split; [done|].
    by apply elem_of_forEachEdge.
Qed.

Lemma endpoints_vertex : is_vertex g sym → sym ∈ endpoints L.
Proof.
  intros (n & e & Hn & He). simpl in He.
  assert (Hin : e ∈ L).
  { apply elem_of_forEachEdge. by rewrite (Hwf _ _ Hn). }
  clear -Hin He. induction Hin as [e l|e e' l Hin IH];
    apply elem_of_endpoints_cons; tauto.
Qed.

Hypothesis Hloop : no_self_loop g sym.

Lemma inner_loop c i ein :
  Base c → edges g !! i = Some ein → to ein = sym →
  ∃ c', for_each outs (λ outgoingId,
          e ← getEdge outgoingId;
          _ ← assert (bool_decide (to e ≠ from e));
          mergeEdges i outgoingId) c = (inr tt, c')
        ∧ Base c' ∧ Grows c c' ∧ ∀ o, o ∈ outs → Prod c' i o.
Proof.
  intros Hb Hi Ht.
  apply (for_each_inv (λ done c', Base c' ∧ Grows c c' ∧ ∀ o, o ∈ done → Prod c' i o)).
  - split; [done|]. split; [by intros ??|]. intros o Ho. by apply elem_of_nil in Ho.
  - intros done o rest c1 Houts (Hb1 & Hg1 & Hp1).
    assert (Ho : o ∈ outs).
    { rewrite Houts. apply elem_of_app. right. by left. }
    apply elem_of_outs in Ho as (eout & Ho & Hf).
    destruct (merge_step c1 i o ein eout Hb1 Hi Ho Ht Hf) as (c2 & Hm & Hb2 & Hg2 & Hp2).
    exists c2. split.
    + rewrite st_bind_run, (getEdge_run _ _ eout) by (by apply Hb1).
      rewrite bool_decide_true; [exact Hm|].
      intros Heq. apply (Hloop _ _ Ho). split; [done|congruence].
    + split; [done|]. split; [intros n e He; by apply Hg2, Hg1|].
      intros o' Ho'. apply elem_of_app in Ho' as [Ho'|Ho'].
      * eapply Prod_mono; [exact Hg2|by apply Hp1].
      * apply list_elem_of_singleton in Ho' as ->. done.
Qed.

Lemma outer_loop :
  ∃ c', for_each ins (λ incomingId,
          e ← getEdge incomingId;
          _ ← assert (bool_decide (to e ≠ from e));
          for_each outs (λ outgoingId,
            e ← getEdge outgoingId;
            _ ← assert (bool_decide (to e ≠ from e));
            mergeEdges incomingId outgoingId)) g = (inr tt, c')
        ∧ Base c' ∧ ∀ i o, i ∈ ins → o ∈ outs → Prod c' i o.
Proof.
  apply (for_each_inv (λ done c', Base c' ∧ ∀ i o, i ∈ done → o ∈ outs → Prod c' i o)).
  - split; [by repeat split; auto|]. intros i o Hi. by apply elem_of_nil in Hi.
  - intros done i rest c1 Hins (Hb1 & Hp1).
    assert (Hi : i ∈ ins).
    { rewrite Hins. apply elem_of_app. right. by left. }
    apply elem_of_ins in Hi as (ein & Hi & Ht).
    destruct (inner_loop c1 i ein Hb1 Hi Ht) as (c2 & Hm & Hb2 & Hg2 & Hp2).
    exists c2. split.
    + rewrite st_bind_run, (getEdge_run _ _ ein) by (by apply Hb1).
      rewrite bool_decide_true; [exact Hm|].
      intros Heq. apply (Hloop _ _ Hi). split; [congruence|done].
    + split; [done|]. intros i' o Hi' Ho.
      apply elem_of_app in Hi' as [Hi'|Hi'].
      * eapply Prod_mono; [exact Hg2|by apply Hp1].
      * apply list_elem_of_singleton in Hi' as ->. by apply Hp2.
Qed.

Theorem contractVertex_run :
  is_vertex g sym →
  ∃ g', contractVertex sym g = (inr tt, g') ∧ contracted sym g g'
        ∧ predicates g' = predicates g ∧ logic g' = logic g.
Proof.
  intros Hv. apply endpoints_vertex in Hv.
  destruct outer_loop as (c & Hloops & (Hp & Hl & Hgrow & Honly) & Hprod).
  exists (set_edges
            (filter (λ kv, bool_decide (from kv.2 = sym)
                           || bool_decide (to kv.2 = sym) = false)
                    (edges c)) c).
  split.
  { unfold contractVertex. rewrite st_bind_run. cbn [get].
    change (adjacencyFrom g) with (foldl adjStep {| incoming := ∅; outgoing := ∅ |} L).
    unfold getIncomingEdgesFor, getOutgoingEdgesFor.
    rewrite adj_incoming, adj_outgoing, !decide_True by done.
    cbn [incoming outgoing]. rewrite !lookup_empty. cbn [default from_option app].
    unfold at_ at 1 2. rewrite st_bind_run. cbn [mret St_ret st_ret].
    rewrite st_bind_run. cbn [mret St_ret st_ret].
    rewrite st_bind_run. fold ins outs. rewrite Hloops.
    reflexivity. }
  split; [|done].
  assert (Hflt : ∀ n e, edges (set_edges
            (filter (λ kv, bool_decide (from kv.2 = sym)
                           || bool_decide (to kv.2 = sym) = false)
                    (edges c)) c) !! n = Some e ↔
            edges c !! n = Some e ∧ from e ≠ sym ∧ to e ≠ sym).
  { intros n e. cbn [edges set_edges]. rewrite map_lookup_filter_Some. simpl.
    rewrite orb_false_iff, !bool_decide_eq_false. done. }
  split; [|split; [|split]].
  - intros n e He. apply Hflt in He. tauto.
  - intros n e He Hf Ht. apply Hflt. split; [by apply Hgrow|done].
  - intros i o ein eout Hi Ho Ht Hf.
    destruct (Hprod i o) with (ein := ein) (eout := eout) as [n Hn]; try done.
    { apply elem_of_ins. eauto. }
    { apply elem_of_outs. eauto. }
    exists n. apply Hflt. split; [done|]. simpl. split.
    + intros Heq. apply (Hloop _ _ Hi). done.
    + intros Heq. apply (Hloop _ _ Ho). done.
  - intros n e He. apply Hflt in He as [He _]. by apply Honly.
Qed.

End Contract.

Section ContractFails.
Variable g : t.
Variable sym : SymRef.
Hypothesis Hwf : wf_ids id (edges g).
Variable k : EId.
Variable el : DirectedEdge.
Hypothesis Hk : edges g !! k = Some el.
Hypothesis Hfrom : from el = sym.
Hypothesis Hto : to el = sym.

Let L := forEachEdge g.
Let ins := id <$> filter (λ e, to e = sym) L.
Let outs := id <$> filter (λ e, from e = sym) L.

Lemma inner_loop_fails c i ein :
  Grows g c → edges g !! i = Some ein → to ein = sym →
  ∃ c', for_each outs (λ outgoingId,
          e ← getEdge outgoingId;
          _ ← assert (bool_decide (to e ≠ from e));
          mergeEdges i outgoingId) c = (inl assertion_failure, c').
Proof.
  intros Hg Hi Ht.
  apply (for_each_throws (Grows g)); [done|..].
  - exists k. split.
    { apply (elem_of_outs g sym Hwf). by exists el. }
    intros c1 Hg1. exists c1.
    rewrite st_bind_run, (getEdge_run _ _ el) by (by apply Hg1).
    rewrite bool_decide_false; [done|]. intros H. apply H. congruence.
  - intros o c1 Ho Hg1. apply (elem_of_outs g sym Hwf) in Ho as (eout & Ho & Hf).
    rewrite st_bind_run, (getEdge_run _ _ eout) by (by apply Hg1).
    destruct (decide (to eout = from eout)) as [Heq|Hne].
    + exists c1. right. rewrite bool_decide_false; [done|]. intros H. by apply H.
    + eexists. left. rewrite bool_decide_true by done. split.
      * apply (mergeEdges_run c1 i o ein eout);
          [by apply Hg1|by apply Hg1|congruence].
      * intros n e He. simpl. rewrite lookup_insert_ne; [by apply Hg1|].
        intros <-. apply Hg1 in He.
        assert (Hn : edges c1 !! fresh (dom (edges c1)) = None)
          by apply not_elem_of_dom, is_fresh.
        congruence.
Qed.

Theorem contractVertex_self_loop :
  ∃ g', contractVertex sym g = (inl assertion_failure, g').
Proof.
  assert (Hv : sym ∈ endpoints L).
  { apply (endpoints_vertex g sym Hwf). exists k, el. split; [done|]. by left. }
  assert (Hins : k ∈ ins).
  { apply (elem_of_ins g sym Hwf). by exists el. }
  assert (Hbody : ∃ c', for_each ins (λ incomingId,
          e ← getEdge incomingId;
          _ ← assert (bool_decide (to e ≠ from e));
          for_each outs (λ outgoingId,
            e ← getEdge outgoingId;
            _ ← assert (bool_decide (to e ≠ from e));
            mergeEdges incomingId outgoingId)) g = (inl assertion_failure, c')).
  { fold ins in Hins. destruct ins as [|i rest] eqn:Hins'; [by apply elem_of_nil in Hins|].
    assert (Hi : i ∈ ins) by (rewrite Hins'; by left).
    apply (elem_of_ins g sym Hwf) in Hi as (ein & Hi & Ht).
    rewrite for_each_cons, st_bind_run, (getEdge_run _ _ ein) by done.
    destruct (decide (to ein = from ein)) as [Heq|Hne].
    - exists g. rewrite bool_decide_false; [done|]. intros H. by apply H.
    - rewrite bool_decide_true by done.
      destruct (inner_loop_fails g i ein) as [c' Hc']; [by intros ??|done|done|].
      exists c'. cbn [assert]. rewrite st_bind_run. cbn [mret St_ret st_ret].
      by rewrite Hc'. }
  destruct Hbody as [c' Hc']. exists c'.
  unfold contractVertex. rewrite st_bind_run. cbn [get].
  change (adjacencyFrom g) with (foldl adjStep {| incoming := ∅; outgoing := ∅ |} L).
  unfold getIncomingEdgesFor, getOutgoingEdgesFor.
  rewrite adj_incoming, adj_outgoing, !decide_True by done.
  cbn [incoming outgoing]. rewrite !lookup_empty. cbn [default from_option app].
  unfold at_ at 1 2. rewrite st_bind_run. cbn [mret St_ret st_ret].
  rewrite st_bind_run. cbn [mret St_ret st_ret].
  rewrite st_bind_run. fold ins outs. rewrite Hc'.
  reflexivity.
Qed.

End ContractFails.

End GraphContract.

(** With a self-loop at [v], an assertion of [contractVertex(v)] fails. *)
Lemma contractVertex_self_loop_asserts (g : ChcDirectedGraph.t) (sym : SymRef) :
  GraphSpec.wf g → ¬ GraphSpec.no_self_loop g sym →
  ∃ g', ChcDirectedGraph.contractVertex sym g = (inl assertion_failure, g').
Proof.
  intros Hwf Hloop. apply map_not_Forall in Hloop; [|apply _].
  destruct Hloop as (k & el & Hk & Hel).
  apply dec_stable in Hel as [Hfrom Hto].
  exact (GraphContract.contractVertex_self_loop g sym Hwf k el Hk Hfrom Hto).
Qed.

(** C10.  On a linear graph, [contractVertex(v)] needs [v] to have no
    self-loop.  With none, no assertion fails and no exception is thrown: the
    call returns, every pair of an edge into [v] and an edge out of [v] has
    been merged into an edge from the source of the first to the target of the
    second, and [v] is gone with all the edges that touched it. *)
Theorem contractVertex_requires_no_self_loop
    (g : ChcDirectedGraph.t) (sym : SymRef) :
  GraphSpec.wf g → GraphSpec.is_vertex g sym → GraphSpec.no_self_loop g sym →
  ∃ g', ChcDirectedGraph.contractVertex sym g = (inr tt, g')
        ∧ GraphSpec.contracted sym g g'.
Proof.
  intros Hwf Hv Hloop.
  destruct (GraphContract.contractVertex_run g sym Hwf Hloop Hv)
    as (g' & Hrun & Hc & _).
  by exists g'.
Qed.

Lemma contractVertex_requires_no_self_loop_witness :
  ∃ g', ChcDirectedGraph.contractVertex 5 Examples.g_multi = (inr tt, g')
        ∧ GraphSpec.contracted 5 Examples.g_multi g'.
Proof.
  apply (contractVertex_requires_no_self_loop Examples.g_multi 5).
  - unfold GraphSpec.wf, wf_ids. compute_done.
  - unfold GraphSpec.is_vertex. compute_done.
  - unfold GraphSpec.no_self_loop. compute_done.
Defined.

(** ** Contraction of a vertex of a hypergraph *)

Module HyperContract.
Import ChcDirectedHyperGraph HyperGraphSpec.

Lemma filter_eq_nil (srcs : list nat) (s : nat) :
  s ∉ srcs → filter (λ y, y = s) srcs = [].
Proof.
  induction srcs as [|y srcs IH]; [done|]. intros Hs.
  apply not_elem_of_cons in Hs as [Hne Hs].
  rewrite filter_cons_False by congruence. by apply IH.
Qed.

Lemma sources_fold (x : nat) (srcs : list nat) :
  ∀ (inc out : gmap nat (list nat)) (s : nat),
  let r := foldl (λ '(inc, out) sym, (touch sym inc, push_back sym x out))
                 (inc, out) srcs in
  r.1 !! s = (if decide (s ∈ srcs) then Some (default [] (inc !! s)) else inc !! s)
  ∧ r.2 !! s = (if decide (s ∈ srcs)
                then Some (default [] (out !! s)
                           ++ ((λ _, x) <$> filter (λ y, y = s) srcs))
                else out !! s).
Proof.
  induction srcs as [|y srcs IH]; intros inc out s.
  - simpl. destruct (decide (s ∈ [])) as [H|H]; [by apply elem_of_nil in H|done].
  - cbn [foldl]. destruct (IH (touch y inc) (push_back y x out) s) as [IH1 IH2].
    cbn zeta in IH1, IH2. cbn zeta. rewrite IH1, IH2.
    rewrite lookup_touch, lookup_push_back.
    destruct (decide (y = s)) as [->|Hne].
    + rewrite filter_cons_True by done. rewrite fmap_cons.
      destruct (decide (s ∈ s :: srcs)) as [_|Hn]; [|exfalso; apply Hn; by left].
      cbn [default from_option Datatypes.id].
      destruct (decide (s ∈ srcs)) as [Hs|Hs].
      * by rewrite <- app_assoc.
      * by rewrite (filter_eq_nil _ _ Hs).
    + rewrite filter_cons_False by done.
      destruct (decide (s ∈ srcs)) as [Hs|Hs].
      * destruct (decide (s ∈ y :: srcs)) as [_|Hn]; [done|exfalso; apply Hn; by right].
      * destruct (decide (s ∈ y :: srcs)) as [Hn|_]; [|done].
        apply elem_of_cons in Hn as [?|?]; [congruence|done].
Qed.

Lemma hyper_elem_of_endpoints_cons e l s :
  s ∈ endpoints (e :: l) ↔ to e = s ∨ s ∈ from e ∨ s ∈ endpoints l.
Proof.
  unfold endpoints. rewrite bind_cons, elem_of_app, elem_of_cons.
  intuition auto.
Qed.

Lemma not_endpoint l s :
  s ∉ endpoints l →
  filter (λ e, to e = s) l = [] ∧ outgoingIds l s = [].
Proof.
  induction l as [|e l IH]; [done|]. rewrite hyper_elem_of_endpoints_cons.
  intros Hs. rewrite filter_cons_False by tauto.
  unfold outgoingIds. rewrite bind_cons. fold (outgoingIds l s).
  destruct IH as [-> ->]; [tauto|]. split; [done|].
  unfold occurrences. rewrite filter_eq_nil by tauto. done.
Qed.

Lemma adjStep_incoming a e s :
  incoming (adjStep a e) !! s =
    if decide (to e = s) then Some (default [] (incoming a !! s) ++ [id e])
    else if decide (s ∈ from e) then Some (default [] (incoming a !! s))
    else incoming a !! s.
Proof.
  unfold adjStep.
  destruct (sources_fold (id e) (from e)
              (push_back (to e) (id e) (incoming a)) (outgoing a) s) as [H1 _].
  cbn zeta in H1. destruct (foldl _ _ _) as [inc out]. cbn [incoming fst] in *.
  rewrite H1, lookup_push_back.
  destruct (decide (to e = s)); [|done]. by destruct (decide (s ∈ from e)).
Qed.

Lemma adjStep_outgoing a e s :
  outgoing (adjStep a e) !! s =
    if decide (s ∈ from e)
    then Some (default [] (outgoing a !! s) ++ occurrences e s)
    else if decide (to e = s) then Some (default [] (outgoing a !! s))
    else outgoing a !! s.
Proof.
  unfold adjStep.
  destruct (sources_fold (id e) (from e)
              (push_back (to e) (id e) (incoming a)) (outgoing a) s) as [_ H2].
  cbn zeta in H2. destruct (foldl _ _ _) as [inc out]. cbn [outgoing snd] in *.
  rewrite lookup_touch, H2. unfold occurrences.
  destruct (decide (s ∈ from e)); by destruct (decide (to e = s)).
Qed.

Lemma hyper_adj_incoming l : ∀ a s,
  incoming (foldl adjStep a l) !! s =
    if decide (s ∈ endpoints l)
    then Some (default [] (incoming a !! s) ++ (id <$> filter (λ e, to e = s) l))
    else incoming a !! s.
Proof.
  induction l as [|e l IH]; intros a s.
  - destruct (decide (s ∈ endpoints [])) as [H|H]; [by apply elem_of_nil in H|done].
  - cbn [foldl]. rewrite IH, adjStep_incoming.
    assert (Hc := hyper_elem_of_endpoints_cons e l s).
    assert (Hnil : s ∉ endpoints l → filter (λ e, to e = s) l = []).
    { intros Hs. by apply not_endpoint in Hs as [? _]. }
    destruct (decide (to e = s)) as [Ht|Ht].
    + rewrite filter_cons_True by done. rewrite fmap_cons.
      destruct (decide (s ∈ endpoints (e :: l))) as [_|Hn]; [|tauto].
      cbn [default from_option Datatypes.id].
      destruct (decide (s ∈ endpoints l)) as [Hs|Hs];
        [by rewrite <- app_assoc|by rewrite (Hnil Hs)].
    + rewrite filter_cons_False by done.
      destruct (decide (s ∈ from e)) as [Hf|Hf].
      * destruct (decide (s ∈ endpoints (e :: l))) as [_|Hn]; [|tauto].
        cbn [default from_option Datatypes.id].
        destruct (decide (s ∈ endpoints l)) as [Hs|Hs]; [done|].
        by rewrite (Hnil Hs), app_nil_r.
      * destruct (decide (s ∈ endpoints l)).
        -- destruct (decide (s ∈ endpoints (e :: l))) as [_|Hn]; [done|tauto].
        -- destruct (decide (s ∈ endpoints (e :: l))) as [Hn|_]; [tauto|done].
Qed.

Lemma hyper_adj_outgoing l : ∀ a s,
  outgoing (foldl adjStep a l) !! s =
    if decide (s ∈ endpoints l)
    then Some (default [] (outgoing a !! s) ++ outgoingIds l s)
    else outgoing a !! s.
Proof.
  induction l as [|e l IH]; intros a s.
  - destruct (decide (s ∈ endpoints [])) as [H|H]; [by apply elem_of_nil in H|done].
  - cbn [foldl]. rewrite IH, adjStep_outgoing.
    assert (Hc := hyper_elem_of_endpoints_cons e l s).
    assert (Hnil : s ∉ endpoints l → outgoingIds l s = []).
    { intros Hs. by apply not_endpoint in Hs as [_ ?]. }
    unfold outgoingIds at 2. rewrite bind_cons. fold (outgoingIds l s).
    destruct (decide (s ∈ from e)) as [Ht|Ht].
    + destruct (decide (s ∈ endpoints (e :: l))) as [_|Hn]; [|tauto].
      cbn [default from_option Datatypes.id].
      destruct (decide (s ∈ endpoints l)) as [Hs|Hs];
        [by rewrite <- app_assoc|by rewrite (Hnil Hs), app_nil_r].
    + assert (Hocc : occurrences e s = []).
      { unfold occurrences. by rewrite filter_eq_nil. }
      rewrite Hocc. cbn [app].
      destruct (decide (to e = s)) as [Hf|Hf].
      * destruct (decide (s ∈ endpoints (e :: l))) as [_|Hn]; [|tauto].
        cbn [default from_option Datatypes.id].
        destruct (decide (s ∈ endpoints l)) as [Hs|Hs]; [done|].
        by rewrite (Hnil Hs), app_nil_r.
      * destruct (decide (s ∈ endpoints l)).
        -- destruct (decide (s ∈ endpoints (e :: l))) as [_|Hn]; [done|tauto].
        -- destruct (decide (s ∈ endpoints (e :: l))) as [Hn|_]; [tauto|done].
Qed.

Lemma hyper_getEdge_run c i e : edges c !! i = Some e → getEdge i c = (inr e, c).
Proof. intros H. unfold getEdge. st_unfold. by rewrite H. Qed.

Lemma bind_getEdge {B} c i e (k : DirectedHyperEdge → St t B) :
  edges c !! i = Some e → (getEdge i ≫= k) c = k e c.
Proof. intros H. by rewrite st_bind_run, (hyper_getEdge_run _ _ _ H). Qed.

Lemma bind_getSources {B} c i e (k : list SymRef → St t B) :
  edges c !! i = Some e → (getSources i ≫= k) c = k (from e) c.
Proof.
  intros H. unfold getSources. by rewrite st_bind_assoc, (bind_getEdge _ _ _ _ H).
Qed.

Lemma bind_getTarget {B} c i e (k : SymRef → St t B) :
  edges c !! i = Some e → (getTarget i ≫= k) c = k (to e) c.
Proof.
  intros H. unfold getTarget. by rewrite st_bind_assoc, (bind_getEdge _ _ _ _ H).
Qed.

Lemma bind_getEdgeLabel {B} c i e (k : PTRef → St t B) :
  edges c !! i = Some e → (getEdgeLabel i ≫= k) c = k (fla e) c.
Proof.
  intros H. unfold getEdgeLabel.
  by rewrite st_bind_assoc, (bind_getEdge _ _ _ _ H).
Qed.

Lemma hyper_mergeEdges_run c i o ein eout s :
  edges c !! i = Some ein → edges c !! o = Some eout →
  from ein = [s] → from eout = [to ein] →
  ∃ e, mergeEdges [i; o] c
       = (inr e, set_edges (<[fresh (dom (edges c)) := e]> (edges c)) c).
Proof.
  intros Hi Ho Hs Hc. unfold mergeEdges, mergeLabels. cbn [head last].
  st_norm. rewrite (bind_getSources _ _ _ _ Hi), Hs. cbn [length head].
  rewrite bool_decide_true by done.
  st_norm. rewrite (bind_getTarget _ _ _ _ Ho).
  st_norm. cbn [length]. rewrite ?bool_decide_true by lia.
  st_norm. rewrite (bind_getSources _ _ _ _ Hi), Hs. cbn [head].
  st_norm. rewrite (bind_getTarget _ _ _ _ Ho).
  cbn [map_m]. st_norm. rewrite (bind_getEdgeLabel _ _ _ _ Hi).
  st_norm. rewrite (bind_getEdgeLabel _ _ _ _ Ho).
  st_norm. cbn [chainSubst]. st_norm. rewrite (bind_getTarget _ _ _ _ Hi).
  st_norm. rewrite (bind_getSources _ _ _ _ Ho), Hc. cbn [length head].
  rewrite !bool_decide_true by done. cbn [andb].
  st_norm. unfold newEdge. st_norm.
  eexists. apply hyper_getEdge_run. apply lookup_insert_eq.
Qed.

Section Contract.
Variable g : t.
Variable sym : SymRef.
Hypothesis Hwf : wf_ids id (edges g).
Hypothesis Hsrc : nonempty_sources g.

Let L := forEachEdge g.
Let ins := id <$> filter (λ e, to e = sym) L.
Let outs := outgoingIds L sym.

Lemma hyper_elem_of_forEachEdge e : e ∈ L ↔ edges g !! id e = Some e.
Proof.
  unfold L, forEachEdge. split.
  - by apply lookup_of_forEach.
  - intros H. apply list_elem_of_fmap. exists (id e, e). split; [done|].
    by apply elem_of_map_to_list.
Qed.

Lemma hyper_elem_of_ins i :
  i ∈ ins ↔ ∃ ein, edges g !! i = Some ein ∧ to ein = sym.
Proof.
  unfold ins. rewrite list_elem_of_fmap. split.
  - intros (e & -> & He). apply list_elem_of_filter in He as [Ht He].
    apply hyper_elem_of_forEachEdge in He. eauto.
  - intros (e & Hi & Ht). exists e. assert (Hid := Hwf _ _ Hi). simpl in Hid.
    split; [done|]. apply list_elem_of_filter. split; [done|].
    apply hyper_elem_of_forEachEdge. by rewrite Hid.
Qed.

Lemma hyper_elem_of_outs o :
  o ∈ outs ↔ ∃ eout, edges g !! o = Some eout ∧ sym ∈ from eout.
Proof.
  unfold outs, outgoingIds. rewrite list_elem_of_bind. split.
  - intros (e & Ho & He). unfold occurrences in Ho.
    apply list_elem_of_fmap in Ho as (x & -> & Hx).
    apply list_elem_of_filter in Hx as [-> Hx].
    apply hyper_elem_of_forEachEdge in He. eauto.
  - intros (e & Ho & Hs). exists e. assert (Hid := Hwf _ _ Ho). simpl in Hid.
    split.
    + unfold occurrences. apply list_elem_of_fmap. exists sym. split; [done|].
      by apply list_elem_of_filter.
    + apply hyper_elem_of_forEachEdge. by rewrite Hid.
Qed.

Lemma hyper_endpoints_vertex n e :
  edges g !! n = Some e → to e = sym ∨ sym ∈ from e → sym ∈ endpoints L.
Proof.
  intros Hn He.
  assert (Hin : e ∈ L).
  { apply hyper_elem_of_forEachEdge. by rewrite (Hwf _ _ Hn). }
  clear -Hin He. induction Hin as [e l|e e' l Hin IH];
    apply hyper_elem_of_endpoints_cons; tauto.
Qed.

(** The body of the inner loop, for the edge [i] into [sym], which has the
    single source [s]. *)
Lemma inner_body c i ein s o :
  extends g c → edges g !! i = Some ein → to ein = sym → from ein = [s] →
  o ∈ outs →
  ∃ c', ((srcs ← getSources o;
           if bool_decide (1 < length srcs) then throw unable
           else _ ← mergeEdges [i; o]; mret tt) c = (inr tt, c')
         ∨ (srcs ← getSources o;
           if bool_decide (1 < length srcs) then throw unable
           else _ ← mergeEdges [i; o]; mret tt) c = (inl unable, c'))
        ∧ extends g c'.
Proof.
  intros (Hg & Hp & Hl) Hi Ht Hs Ho.
  apply hyper_elem_of_outs in Ho as (eout & Ho & Hin).
  rewrite (bind_getSources _ _ _ _ (Hg _ _ Ho)).
  case_bool_decide as Hlen.
  - exists c. split; [by right|done].
  - assert (Hfrom : from eout = [to ein]).
    { destruct (from eout) as [|x [|y l]]; simpl in Hlen; [|..].
      - by apply elem_of_nil in Hin.
      - apply list_elem_of_singleton in Hin. congruence.
      - lia. }
    destruct (hyper_mergeEdges_run c i o ein eout s) as [e He];
      [by apply Hg|by apply Hg|done|done|].
    eexists. split.
    + left. rewrite st_bind_run, He. reflexivity.
    + split; [|done]. intros n e' Hn. simpl.
      rewrite lookup_insert_ne; [by apply Hg|].
      intros <-. apply Hg in Hn.
      assert (Hf : edges c !! fresh (dom (edges c)) = None)
        by apply not_elem_of_dom, is_fresh.
      congruence.
Qed.

Lemma inner_body_throws c o eout :
  extends g c → edges g !! o = Some eout → 1 < length (from eout) →
  ∀ i, (srcs ← getSources o;
        if bool_decide (1 < length srcs) then throw unable
        else _ ← mergeEdges [i; o]; mret tt) c = (inl unable, c).
Proof.
  intros (Hg & _) Ho Hlen i.
  rewrite (bind_getSources _ _ _ _ (Hg _ _ Ho)).
  by rewrite bool_decide_true.
Qed.

Local Abbreviation outer_body := (outer_body outs).

Lemma outer_body_may c i :
  extends g c → i ∈ ins →
  ∃ c', (outer_body i c = (inr tt, c') ∨ outer_body i c = (inl unable, c'))
        ∧ extends g c'.
Proof.
  intros Hc Hi. apply hyper_elem_of_ins in Hi as (ein & Hi & Ht).
  unfold outer_body. rewrite (bind_getSources _ _ _ _ (proj1 Hc _ _ Hi)).
  case_bool_decide as Hlen.
  - exists c. split; [by right|done].
  - assert (Hfrom : ∃ s, from ein = [s]).
    { assert (Hne := Hsrc _ _ Hi). simpl in Hne.
      destruct (from ein) as [|x [|y l]]; simpl in Hlen; [done|eauto|lia]. }
    destruct Hfrom as [s Hs].
    apply (for_each_may_throw (extends g)); [done|].
    intros o c1 Ho Hc1. by apply (inner_body c1 i ein s o).
Qed.

Lemma outer_body_hyper_in c k el :
  extends g c → edges g !! k = Some el → 1 < length (from el) →
  outer_body k c = (inl unable, c).
Proof.
  intros Hc Hk Hlen. unfold outer_body.
  rewrite (bind_getSources _ _ _ _ (proj1 Hc _ _ Hk)).
  by rewrite bool_decide_true.
Qed.

Lemma outer_body_hyper_out c i k el :
  extends g c → i ∈ ins →
  edges g !! k = Some el → sym ∈ from el → 1 < length (from el) →
  ∃ c', outer_body i c = (inl unable, c') ∧ extends g c'.
Proof.
  intros Hc Hi Hk Hin Hlen. apply hyper_elem_of_ins in Hi as (ein & Hi & Ht).
  unfold outer_body. rewrite (bind_getSources _ _ _ _ (proj1 Hc _ _ Hi)).
  case_bool_decide as Hlen'.
  - by exists c.
  - assert (Hfrom : ∃ s, from ein = [s]).
    { assert (Hne := Hsrc _ _ Hi). simpl in Hne.
      destruct (from ein) as [|x [|y l]]; simpl in Hlen'; [done|eauto|lia]. }
    destruct Hfrom as [s Hs].
    apply (for_each_must_throw (extends g)); [done|..].
    + exists k. split; [apply hyper_elem_of_outs; eauto|].
      intros c1 Hc1. exists c1. by apply (inner_body_throws c1 k el).
    + intros o c1 Ho Hc1. by apply (inner_body c1 i ein s o).
Qed.

Theorem contractVertex_throws :
  has_incoming g sym → incident_hyperedge g sym →
  ∃ g', contractVertex sym g = (inl unable, g') ∧ extends g g'.
Proof.
  intros (j & ej & Hj & Htj) (k & el & Hk & Hinc & Hlen). simpl in *.
  assert (Hv : sym ∈ endpoints L) by (eapply hyper_endpoints_vertex; eauto).
  assert (Hjin : j ∈ ins) by (apply hyper_elem_of_ins; eauto).
  assert (Hloop : ∃ g', for_each ins outer_body g = (inl unable, g') ∧ extends g g').
  { apply (for_each_must_throw (extends g)); [done|..].
    - destruct Hinc as [Hto|Hfrom].
      + exists k. split; [apply hyper_elem_of_ins; eauto|].
        intros c Hc. exists c. by apply (outer_body_hyper_in c k el).
      + exists j. split; [done|]. intros c Hc.
        destruct (outer_body_hyper_out c j k el) as (c' & Hc' & _); eauto.
    - intros i c Hi Hc. by apply outer_body_may. }
  destruct Hloop as (g' & Hrun & Hext). exists g'. split; [|done].
  unfold contractVertex. st_norm.
  change (adjacencyFrom g) with (foldl adjStep {| incoming := ∅; outgoing := ∅ |} L).
  unfold getIncomingEdgesFor, getOutgoingEdgesFor.
  rewrite hyper_adj_incoming, hyper_adj_outgoing, !decide_True by done.
  cbn [incoming outgoing]. rewrite !lookup_empty. cbn [default from_option app].
  st_norm. fold ins outs.
  change (for_each ins _) with (for_each ins outer_body).
  rewrite st_bind_run, Hrun. reflexivity.
Qed.

End Contract.

End HyperContract.

(** C6, as the code has it.  When [v] has an incoming edge and some edge at
    [v] has more than one source, [contractVertex(v)] throws "Unable to
    contract vertex with hyperedge!".  At the throw no edge of the graph has
    been deleted or changed: every edge is still there under its id (merged
    edges of the pairs handled before may have been added). *)
Theorem contractVertex_hyperedge_throws
    (g : ChcDirectedHyperGraph.t) (sym : SymRef) :
  HyperGraphSpec.wf g → HyperGraphSpec.nonempty_sources g →
  HyperGraphSpec.has_incoming g sym → HyperGraphSpec.incident_hyperedge g sym →
  ∃ g', ChcDirectedHyperGraph.contractVertex sym g
        = (inl (logic_error "Unable to contract vertex with hyperedge!"), g')
        ∧ HyperGraphSpec.extends g g'.
Proof.
  intros Hwf Hsrc Hin Hhyper.
  exact (HyperContract.contractVertex_throws g sym Hwf Hsrc Hin Hhyper).
Qed.

Lemma contractVertex_hyperedge_throws_witness :
  ∃ g', ChcDirectedHyperGraph.contractVertex 5 Examples.h_hyper_out
        = (inl (logic_error "Unable to contract vertex with hyperedge!"), g')
        ∧ HyperGraphSpec.extends Examples.h_hyper_out g'.
Proof.
  apply (contractVertex_hyperedge_throws Examples.h_hyper_out 5).
  - unfold HyperGraphSpec.wf, wf_ids. compute_done.
  - unfold HyperGraphSpec.nonempty_sources. compute_done.
  - unfold HyperGraphSpec.has_incoming. compute_done.
  - unfold HyperGraphSpec.incident_hyperedge. compute_done.
Defined.

(** C6 as stated fails: the vertex 5 of [h_partial] has the incoming edge
    0, the outgoing edge 2 and the outgoing hyperedge 3.  The edges 0 and 2
    are merged into a new edge before the hyperedge is met, so the error
    surfaces with the graph changed. *)
Lemma contractVertex_hyperedge_partial_mutation :
  ¬ HyperGraphSpec.contract_fails_unchanged Examples.h_partial 5.
Proof.
  intros Hc. destruct Hc as [e He].
  - unfold HyperGraphSpec.incident_hyperedge. compute_done.
  - vm_compute in He. discriminate He.
Qed.

(** What the code does there: it throws after it has added the merged edge,
    from 4 to 6, under the id 4. *)
Lemma contractVertex_partial_run :
  let r := ChcDirectedHyperGraph.contractVertex 5 Examples.h_partial in
  r.1 = inl (logic_error "Unable to contract vertex with hyperedge!")
  ∧ ChcDirectedHyperGraph.edges Examples.h_partial !! 4 = None
  ∧ (λ e, (ChcDirectedHyperGraph.from e, ChcDirectedHyperGraph.to e))
      <$> ChcDirectedHyperGraph.edges r.2 !! 4 = Some ([4], 6)
  ∧ size (ChcDirectedHyperGraph.edges r.2) = 5.
Proof.
  cbn zeta. split; [by vm_compute|].
  split; [by vm_compute|]. split; [by vm_compute|]. compute_done.
Qed.

(** The case that the statement above leaves open: the vertex 5 of a graph
    whose only edge is the hyperedge from 5 and 6 to 7, which has no
    incoming edge, is contracted without any error, and the hyperedge is
    deleted. *)
Lemma contractVertex_hyperedge_not_reported :
  ¬ HyperGraphSpec.contract_fails_unchanged Examples.h_no_incoming 5.
Proof.
  intros Hc. destruct Hc as [e He].
  - unfold HyperGraphSpec.incident_hyperedge. compute_done.
  - vm_compute in He. discriminate He.
Qed.

(** What the code does there: it returns, with the edge removed. *)
Lemma contractVertex_no_incoming_run :
  (ChcDirectedHyperGraph.contractVertex 5 Examples.h_no_incoming).1 = inr tt
  ∧ ChcDirectedHyperGraph.edges
      (ChcDirectedHyperGraph.contractVertex 5 Examples.h_no_incoming).2 = ∅.
Proof. split; [reflexivity|]. apply map_eq. intros i. by vm_compute. Qed.

(** ** The vertices of a graph *)

Lemma foldl_targets {E} (tgt : E → SymRef) (l : list E) : ∀ (vs : gset SymRef) x,
  x ∈ foldl (λ vs edge, {[ tgt edge ]} ∪ vs) vs l ↔
  x ∈ vs ∨ ∃ e, e ∈ l ∧ tgt e = x.
Proof.
  induction l as [|e l IH]; intros vs x; simpl.
  - split; [by left|]. intros [?|(e & He & _)]; [done|by apply elem_of_nil in He].
  - rewrite IH, elem_of_union, elem_of_singleton. split.
    + intros [[->|?]|(e' & He' & <-)].
      * right. exists e. split; [by left|done].
      * by left.
      * right. exists e'. split; [by right|done].
    + intros [?|(e' & He' & <-)]; [by left; right|].
      apply elem_of_cons in He' as [->|He']; [by left; left|].
      right. by exists e'.
Qed.

(** [getVertices] returns the targets of the edges and the entry. *)
Lemma linear_getVertices_targets (g : ChcDirectedGraph.t) (x : SymRef) :
  x ∈ ChcDirectedGraph.getVertices g ↔
  x = ChcDirectedGraph.getEntry g
  ∨ ∃ e, e ∈ ChcDirectedGraph.forEachEdge g ∧ ChcDirectedGraph.to e = x.
Proof.
  unfold ChcDirectedGraph.getVertices.
  rewrite elem_of_elements, elem_of_union, elem_of_singleton, foldl_targets.
  rewrite elem_of_empty. tauto.
Qed.

Lemma hyper_getVertices_targets (g : ChcDirectedHyperGraph.t) (x : SymRef) :
  x ∈ ChcDirectedHyperGraph.getVertices g ↔
  x = ChcDirectedHyperGraph.getEntry g
  ∨ ∃ e, e ∈ ChcDirectedHyperGraph.forEachEdge g
         ∧ ChcDirectedHyperGraph.to e = x.
Proof.
  unfold ChcDirectedHyperGraph.getVertices.
  rewrite elem_of_elements, elem_of_union, elem_of_singleton, foldl_targets.
  rewrite elem_of_empty. tauto.
Qed.

(** C1 at a failing input.  In the graph whose only edge goes from 5 to 7,
    with the entry 0, the symbol 5 is the source of an edge;
    [getVertices] returns 7 and 0, and not 5.  The adjacency representation
    of the same graph has an entry for 5. *)
Theorem getVertices_misses_source_only_vertex :
  (map_Exists (λ _ e, ChcDirectedGraph.from e = 5)
     (ChcDirectedGraph.edges Examples.g_source_only)
   ∧ (5 ∉ ChcDirectedGraph.getVertices Examples.g_source_only)
   ∧ 7 ∈ ChcDirectedGraph.getVertices Examples.g_source_only
   ∧ is_Some ((outgoing (ChcDirectedGraph.adjacencyFrom Examples.g_source_only))
                !! 5))
  ∧ (map_Exists (λ _ e, 5 ∈ ChcDirectedHyperGraph.from e)
       (ChcDirectedHyperGraph.edges Examples.h_source_only)
     ∧ (5 ∉ ChcDirectedHyperGraph.getVertices Examples.h_source_only)
     ∧ 7 ∈ ChcDirectedHyperGraph.getVertices Examples.h_source_only
     ∧ is_Some ((outgoing (ChcDirectedHyperGraph.adjacencyFrom
                             Examples.h_source_only)) !! 5)).
Proof.
  repeat split; compute_done.
Qed.

(** ** Engines *)

(** C7.  [AcceleratedBmcBase::solve] on a hypergraph throws "Not supported
    yet!", whatever the hypergraph is, and does not touch it. *)
Theorem solve_hypergraph_not_supported (system : ChcDirectedHyperGraph.t) :
  AcceleratedBmcBase.solve system
  = (inl (logic_error "Not supported yet!"), system).
Proof. reflexivity. Qed.

(** ** k-induction *)

Module KindFacts.
Import Kind KindSpec.

#[local] Opaque maxK.

Lemma iterate_inv {S R} (I : S → Prop) (Q : S → R → Prop)
    (body : S → S * option R) :
  (∀ s, I s → match body s with
              | (s', None) => I s'
              | (s', Some r) => Q s' r
              end) →
  ∀ n s, I s → match iterate n body s with
               | (s', None) => I s'
               | (s', Some r) => Q s' r
               end.
Proof.
  intros Hbody. induction n as [n IH|n IH|]; intros s Hs; simpl.
  - specialize (Hbody s Hs). destruct (body s) as [s1 [r|]]; [done|].
    pose proof (IH s1 Hbody) as H1.
    destruct (iterate n body s1) as [s2 [r|]]; [done|]. by apply IH.
  - pose proof (IH s Hs) as H1.
    destruct (iterate n body s) as [s1 [r|]]; [done|]. by apply IH.
  - by apply Hbody.
Qed.

Section Engine.
Variable mkNot : PTRef → PTRef.
Variable sendFlaThroughTime : PTRef → nat → PTRef.
Variable reverseTransitionRelation : TransitionSystem → PTRef.
Variable smtCheck : list PTRef → sstat.
Variable computeWitness : bool.
Variable system : TransitionSystem.

Local Abbreviation round :=
  (round sendFlaThroughTime smtCheck computeWitness
         (getInit system) (getQuery system) (getTransition system)
         (reverseTransitionRelation system)
         (mkNot (getQuery system)) (mkNot (getInit system))).
Local Abbreviation base_at := (base_at sendFlaThroughTime system).
Local Abbreviation unrolling := (unrolling sendFlaThroughTime system).

Local Abbreviation unsafe_post :=
  (unsafe_post sendFlaThroughTime smtCheck computeWitness system).

Lemma round_base st :
  base_at st →
  match round st with
  | (st', None) => base_at st'
  | (st', Some r) => unsafe_post st' r
  end.
Proof.
  unfold base_at. intros Hb. unfold Kind.round.
  set (base1 := insertFormula (sendFlaThroughTime (getQuery system) (k st))
                  (push (solverBase st))).
  assert (Ha : assertions base1 = unrolling (k st)).
  { unfold base1, assertions, insertFormula, push. simpl. rewrite Hb. simpl.
    done. }
  assert (Hpop : frames (insertFormula (sendFlaThroughTime (getTransition system) (k st))
                           (pop base1))
                 = [getInit system
                    :: (sendFlaThroughTime (getTransition system) <$> seq 0 (k st + 1))]).
  { unfold base1, insertFormula, pop, push. simpl. rewrite Hb. simpl.
    by rewrite seq_app, fmap_app. }
  unfold check at 1. rewrite Ha.
  destruct (smtCheck (unrolling (k st))) eqn:Hcheck.
  - intros _. simpl. rewrite Ha. unfold result. simpl. done.
  - destruct (check smtCheck (solverStepForward st)); try done;
      destruct (check smtCheck (solverStepBackward st)); done.
  - destruct (check smtCheck (solverStepForward st)); try done;
      destruct (check smtCheck (solverStepBackward st)); done.
Qed.

Lemma base_at_start : base_at (start system).
Proof. reflexivity. Qed.

Theorem solveTransitionSystem_unsafe st r :
  solveTransitionSystem mkNot sendFlaThroughTime reverseTransitionRelation
    smtCheck computeWitness system = (st, r) →
  unsafe_post st r.
Proof.
  unfold solveTransitionSystem. 
  change (insertFormula (getInit system) newSolver) with {| frames := [[getInit system]] |}.
  change (insertFormula (getQuery system) newSolver) with {| frames := [[getQuery system]] |}.
  fold (start system).
  assert (Hit := iterate_inv base_at unsafe_post round round_base maxK
                   (start system) base_at_start).
  destruct (check smtCheck _).
  - destruct (iterate _ _ _) as [st' [r'|]]; intros [= <- <-]; [done|].
    by intros ?.
  - intros [= <- <-]. by intros ?.
  - destruct (iterate _ _ _) as [st' [r'|]]; intros [= <- <-]; [done|].
    by intros ?.
Qed.

Theorem solveTransitionSystem_empty_init_run :
  smtCheck [getInit system] = s_False →
  solveTransitionSystem mkNot sendFlaThroughTime reverseTransitionRelation
    smtCheck computeWitness system
  = (start system, {| answer := SAFE; witness := NoWitness |}).
Proof.
  intros Hs. unfold solveTransitionSystem.
  change (check smtCheck (insertFormula (getInit system) newSolver))
    with (smtCheck [getInit system]).
  rewrite Hs. reflexivity.
Qed.

End Engine.
End KindFacts.

(** C4.  When the k-induction engine returns UNSAFE, with the counter at [k],
    the Base context holds [init], the transitions sent to the times
    [0..k-1] and the query sent to time [k], and nothing else; the solver
    has answered SAT on exactly these formulas; so, the solver being sound,
    some model satisfies [init(x0) ∧ transition(x0,x1) ∧ … ∧ query(x_k)].
    With [computeWitness] the witness is the one built for depth [k]. *)
Theorem kind_unsafe_unrolling_satisfiable
    (mkNot : PTRef → PTRef) (sendFlaThroughTime : PTRef → nat → PTRef)
    (reverseTransitionRelation : Kind.TransitionSystem → PTRef)
    (smtCheck : list PTRef → Kind.sstat) (computeWitness : bool)
    (Model : Type) (holds : Model → PTRef → Prop)
    (system : Kind.TransitionSystem) (st : Kind.LoopState)
    (r : VerificationResult) :
  (∀ fs, smtCheck fs = Kind.s_True → ∃ m, Forall (holds m) fs) →
  Kind.solveTransitionSystem mkNot sendFlaThroughTime reverseTransitionRelation
    smtCheck computeWitness system = (st, r) →
  answer r = UNSAFE →
  Kind.assertions (Kind.solverBase st)
    = KindSpec.unrolling sendFlaThroughTime system (Kind.k st)
  ∧ smtCheck (KindSpec.unrolling sendFlaThroughTime system (Kind.k st)) = Kind.s_True
  ∧ witness r = (if computeWitness
                 then InvalidityWitness_fromTransitionSystem (Kind.k st)
                 else NoWitness)
  ∧ ∃ m, holds m (Kind.getInit system)
         ∧ (∀ i, i < Kind.k st →
              holds m (sendFlaThroughTime (Kind.getTransition system) i))
         ∧ holds m (sendFlaThroughTime (Kind.getQuery system) (Kind.k st)).
Proof.
  intros Hsound Hrun Hunsafe.
  destruct (KindFacts.solveTransitionSystem_unsafe _ _ _ _ _ _ _ _ Hrun Hunsafe)
    as (Hbase & Hsat & Hw).
  repeat (split; [done|]).
  destruct (Hsound _ Hsat) as [m Hm]. exists m.
  unfold KindSpec.unrolling in Hm.
  apply Forall_cons in Hm as [Hinit Hm]. apply Forall_app in Hm as [Htr Hq].
  split; [done|]. split.
  - intros i Hi. rewrite Forall_fmap, Forall_forall in Htr.
    apply (Htr i). apply elem_of_seq. lia.
  - exact (Forall_inv Hq).
Qed.

Lemma kind_unsafe_unrolling_satisfiable_witness :
  let run := Kind.solveTransitionSystem (λ t, App 25 [t]) KindSpec.shift
               Kind.getTransition KindSpec.answer_four true KindSpec.counter in
  Kind.k run.1 = 2
  ∧ Kind.assertions (Kind.solverBase run.1)
    = KindSpec.unrolling KindSpec.shift KindSpec.counter 2
  ∧ ∃ m : unit, True
       ∧ (∀ i, i < Kind.k run.1 → True)
       ∧ True.
Proof.
  intros run.
  destruct (kind_unsafe_unrolling_satisfiable (λ t, App 25 [t]) KindSpec.shift
              Kind.getTransition KindSpec.answer_four true unit (λ _ _, True)
              KindSpec.counter run.1 run.2)
    as (Hbase & _ & _ & Hm).
  - intros fs _. exists tt. by apply Forall_forall.
  - exact (surjective_pairing run).
  - vm_compute. reflexivity.
  - split; [vm_compute; reflexivity|]. split; [|exact Hm].
    rewrite Hbase. vm_compute. reflexivity.
Defined.

(** C5.  When the first check, on the Base context with [init] alone,
    answers UNSAT, the engine returns SAFE, without a witness, at once: the
    counter is 0 and the three contexts hold what they were started with. *)
Theorem kind_empty_init_safe
    (mkNot : PTRef → PTRef) (sendFlaThroughTime : PTRef → nat → PTRef)
    (reverseTransitionRelation : Kind.TransitionSystem → PTRef)
    (smtCheck : list PTRef → Kind.sstat) (computeWitness : bool)
    (system : Kind.TransitionSystem) :
  smtCheck [Kind.getInit system] = Kind.s_False →
  Kind.solveTransitionSystem mkNot sendFlaThroughTime reverseTransitionRelation
    smtCheck computeWitness system
  = (KindSpec.start system, {| answer := SAFE; witness := NoWitness |}).
Proof. apply KindFacts.solveTransitionSystem_empty_init_run. Qed.

Lemma kind_empty_init_safe_witness :
  Kind.solveTransitionSystem (λ t, App 25 [t]) KindSpec.shift
    Kind.getTransition KindSpec.answer_unsat true
    {| Kind.getInit := App 26 []; Kind.getTransition := App 27 [];
       Kind.getQuery := App 20 [Var 0 0; App 24 []] |}
  = (KindSpec.start
       {| Kind.getInit := App 26 []; Kind.getTransition := App 27 [];
          Kind.getQuery := App 20 [Var 0 0; App 24 []] |},
     {| answer := SAFE; witness := NoWitness |}).
Proof.
  apply (kind_empty_init_safe (λ t, App 25 [t]) KindSpec.shift
           Kind.getTransition KindSpec.answer_unsat true).
  reflexivity.
Defined.

(** ** Reversal of a linear graph *)

Module ReverseFacts.
Import ChcDirectedGraph ReverseSpec.

Lemma PTRef_ind' (P : PTRef → Prop) :
  (∀ x v, P (Var x v)) →
  (∀ f args, Forall P args → P (App f args)) →
  ∀ t, P t.
Proof.
  intros HV HA. fix IH 1. intros [x v|f args].
  - apply HV.
  - apply HA. induction args as [|a args IHargs]; constructor.
    + apply IH.
    + apply IHargs.
Qed.

Lemma mapArgs_lookup (a b : Z) (xs : list nat) : ∀ (σ : gmap (nat * Z) PTRef) x v,
  mapArgs (List.map (λ x, Var x a) xs) (List.map (λ x, Var x b) xs) σ !! (x, v) =
    match σ !! (x, v) with
    | Some t => Some t
    | None => if decide (v = a ∧ x ∈ xs) then Some (Var x b) else None
    end.
Proof.
  induction xs as [|y xs IH]; intros σ x v; simpl.
  - destruct (σ !! (x, v)); [done|].
    rewrite decide_False; [done|]. intros [_ H]. by apply elem_of_nil in H.
  - rewrite IH. unfold subst_insert.
    destruct (decide ((y, a) = (x, v))) as [[= -> ->]|Hne].
    + destruct (σ !! (x, v)) eqn:Hσ; [by rewrite Hσ|].
      rewrite lookup_insert_eq. rewrite decide_True; [done|]. split; [done|by left].
    + destruct (σ !! (y, a)) eqn:Hy.
      * destruct (σ !! (x, v)); [done|].
        destruct (decide (v = a ∧ x ∈ xs)) as [[-> Hx]|Hn].
        -- rewrite decide_True; [done|]. split; [done|by right].
        -- destruct (decide (v = a ∧ x ∈ y :: xs)) as [[-> Hx]|_]; [|done].
           apply elem_of_cons in Hx as [->|Hx]; [done|tauto].
      * rewrite lookup_insert_ne by done.
        destruct (σ !! (x, v)); [done|].
        destruct (decide (v = a ∧ x ∈ xs)) as [[-> Hx]|Hn].
        -- rewrite decide_True; [done|]. split; [done|by right].
        -- destruct (decide (v = a ∧ x ∈ y :: xs)) as [[-> Hx]|_]; [|done].
           apply elem_of_cons in Hx as [->|Hx]; [done|tauto].
Qed.

Lemma reverseSubst_lookup g src dst x v :
  reverseSubst g src dst !! (x, v) =
    if decide (v = 0%Z ∧ x ∈ representation (predicates g) src)
    then Some (Var x 1)
    else if decide (v = 1%Z ∧ x ∈ representation (predicates g) dst)
         then Some (Var x 0)
         else None.
Proof.
  unfold reverseSubst, mapFromPredicate, getStateVersion, getNextStateVersion,
    getStateVersionOf, getNextStateVersionOf. cbn [predicateArgsInOrder].
  rewrite !mapArgs_lookup, lookup_empty.
  destruct (decide (v = 0%Z ∧ _)); [done|]. done.
Qed.

Lemma reverse_twice_var g e x v :
  var_ok g e (x, v) →
  varSubstitute (varSubstitute (Var x v) (reverseSubst g (from e) (to e)))
                (reverseSubst g (to e) (from e))
  = Var x v.
Proof.
  intros Hok. cbn [varSubstitute]. rewrite reverseSubst_lookup.
  destruct (decide (v = 0%Z ∧ x ∈ representation (predicates g) (from e)))
    as [[-> Hx]|Hn1].
  { cbn [default from_option Datatypes.id]. cbn [varSubstitute]. rewrite reverseSubst_lookup.
    rewrite decide_False by (intros [? _]; done).
    rewrite decide_True by done. done. }
  destruct (decide (v = 1%Z ∧ x ∈ representation (predicates g) (to e)))
    as [[-> Hx]|Hn2].
  { cbn [default from_option Datatypes.id]. cbn [varSubstitute]. rewrite reverseSubst_lookup.
    rewrite decide_True by done. done. }
  cbn [default from_option Datatypes.id]. cbn [varSubstitute]. rewrite reverseSubst_lookup.
  unfold var_ok in Hok. simpl in Hok.
  rewrite decide_False by tauto. rewrite decide_False by tauto. done.
Qed.

Lemma reverse_twice_term g e : ∀ t,
  Forall (var_ok g e) (vars t) →
  varSubstitute (varSubstitute t (reverseSubst g (from e) (to e)))
                (reverseSubst g (to e) (from e))
  = t.
Proof.
  intros t. pattern t. apply PTRef_ind'; clear t; [intros x v|intros f args IH]; intros Hok.
  - apply reverse_twice_var. by apply Forall_inv in Hok.
  - cbn [varSubstitute vars] in *. f_equal. rewrite List.map_map.
    induction args as [|a args IHargs]; [done|].
    simpl in Hok. apply Forall_app in Hok as [Ha Hargs].
    apply Forall_cons in IH as [IHa IH]. simpl. f_equal; [by apply IHa|].
    by apply IHargs.
Qed.

Lemma foldl_snoc_fmap {A B} (f : A → B) (l : list A) : ∀ acc,
  foldl (λ acc a, acc ++ [f a]) acc l = acc ++ (f <$> l).
Proof.
  induction l as [|a l IH]; intros acc; simpl.
  - by rewrite app_nil_r.
  - by rewrite IH, <- app_assoc.
Qed.

Lemma forEachEdge_newEdge g src dst label :
  forEachEdge (newEdge src dst label g).2
  ≡ₚ {| from := src; to := dst; fla := label; id := fresh (dom (edges g)) |}
     :: forEachEdge g.
Proof.
  unfold forEachEdge.
  change (edges (newEdge src dst label g).2)
    with (<[fresh (dom (edges g)) :=
              {| from := src; to := dst; fla := label;
                 id := fresh (dom (edges g)) |}]> (edges g)).
  rewrite map_to_list_insert by apply not_elem_of_dom, is_fresh.
  by rewrite fmap_cons.
Qed.

Lemma make_fold es : ∀ g0,
  let g1 := foldl (λ g e, (newEdge (from e) (to e) (fla e) g).2) g0 es in
  edge_data <$> forEachEdge g1 ≡ₚ (edge_data <$> forEachEdge g0) ++ (edge_data <$> es)
  ∧ predicates g1 = predicates g0 ∧ logic g1 = logic g0.
Proof.
  induction es as [|e es IH]; intros g0.
  - simpl. by rewrite app_nil_r.
  - cbn [foldl]. cbn zeta in IH.
    destruct (IH (newEdge (from e) (to e) (fla e) g0).2) as (Hp & Hpr & Hl).
    cbn zeta. split; [|by rewrite Hpr, Hl].
    rewrite Hp, forEachEdge_newEdge, !fmap_cons.
    by rewrite <- Permutation_middle.
Qed.

Lemma make_data es p l :
  edge_data <$> forEachEdge (make es p l) ≡ₚ edge_data <$> es
  ∧ predicates (make es p l) = p ∧ logic (make es p l) = l.
Proof.
  unfold make.
  destruct (make_fold es {| edges := ∅; predicates := p; logic := l |})
    as (Hp & Hpr & Hl).
  split; [|done]. rewrite Hp. unfold forEachEdge. cbn [edges].
  by rewrite map_to_list_empty.
Qed.

Lemma reverse_data g :
  edge_data <$> forEachEdge (reverse g)
    ≡ₚ reverseData g <$> (edge_data <$> forEachEdge g)
  ∧ predicates (reverse g) = predicates g ∧ logic (reverse g) = logic g.
Proof.
  unfold reverse. rewrite foldl_snoc_fmap. cbn [app].
  destruct (make_data (reverseEdge g <$> forEachEdge g) (predicates g) (logic g))
    as (Hp & Hpr & Hl).
  split; [|done]. rewrite Hp, <- !list_fmap_compose. done.
Qed.

Lemma reverseData_ext g g' d :
  predicates g' = predicates g → reverseData g' d = reverseData g d.
Proof.
  intros Hp. unfold reverseData, reverseSubst, getStateVersion, getNextStateVersion.
  by rewrite Hp.
Qed.

Theorem reverse_reverse_data g :
  labels_wf g →
  edge_data <$> forEachEdge (reverse (reverse g)) ≡ₚ edge_data <$> forEachEdge g.
Proof.
  intros Hwf.
  destruct (reverse_data g) as (H1 & Hp1 & _).
  destruct (reverse_data (reverse g)) as (H2 & _ & _).
  rewrite H2, H1, <- !list_fmap_compose.
  assert (Heq : (reverseData (reverse g) ∘ reverseData g ∘ edge_data)
                  <$> forEachEdge g = edge_data <$> forEachEdge g).
  { apply list_fmap_ext. intros i e Hie.
    assert (He : Forall (var_ok g e) (vars (fla e))).
    { apply list_elem_of_lookup_2 in Hie. unfold forEachEdge in Hie.
      apply list_elem_of_fmap in Hie as ([n e'] & -> & Hn).
      apply elem_of_map_to_list in Hn. exact (Hwf _ _ Hn). }
    cbn [compose]. rewrite (reverseData_ext g) by done.
    unfold reverseData, edge_data. cbn [fst snd].
    by rewrite reverse_twice_term. }
  by rewrite Heq.
Qed.

End ReverseFacts.

(** C3.  Reversing a linear graph twice gives back its edges, each with its
    endpoints and its label, up to the ids: [reverse] swaps the endpoints of
    every edge and substitutes, simultaneously, the state variables of the
    old source by their next-state versions and the next-state variables of
    the old target by their state versions, and on a label over the variables
    of its endpoints the second substitution undoes the first. *)
Theorem reverse_reverse_same_edges (g : ChcDirectedGraph.t) :
  ReverseSpec.labels_wf g →
  ReverseSpec.same_edges g (ChcDirectedGraph.reverse (ChcDirectedGraph.reverse g))
  ∧ ChcDirectedGraph.predicates (ChcDirectedGraph.reverse (ChcDirectedGraph.reverse g))
    = ChcDirectedGraph.predicates g
  ∧ ReverseSpec.edge_data <$> ChcDirectedGraph.forEachEdge (ChcDirectedGraph.reverse g)
    ≡ₚ ReverseSpec.reverseData g
         <$> (ReverseSpec.edge_data <$> ChcDirectedGraph.forEachEdge g)
  ∧ ∀ src dst x v,
      ReverseSpec.reverseSubst g src dst !! (x, v) =
        if decide (v = 0%Z
                   ∧ x ∈ representation (ChcDirectedGraph.predicates g) src)
        then Some (Var x 1)
        else if decide (v = 1%Z
                        ∧ x ∈ representation (ChcDirectedGraph.predicates g) dst)
             then Some (Var x 0)
             else None.
Proof.
  intros Hwf. split; [by apply ReverseFacts.reverse_reverse_data|].
  destruct (ReverseFacts.reverse_data g) as (H1 & Hp1 & _).
  destruct (ReverseFacts.reverse_data (ChcDirectedGraph.reverse g)) as (_ & Hp2 & _).
  split; [by rewrite Hp2|]. split; [done|].
  intros src dst x v. apply ReverseFacts.reverseSubst_lookup.
Qed.

Lemma reverse_reverse_same_edges_witness :
  ReverseSpec.same_edges Examples.g_multi
    (ChcDirectedGraph.reverse (ChcDirectedGraph.reverse Examples.g_multi)).
Proof.
  apply (reverse_reverse_same_edges Examples.g_multi).
  unfold ReverseSpec.labels_wf. compute_done.
Defined.

(** ** The operations on the example graphs *)

Example mergeMultiEdges_g_multi :
  size (ChcDirectedGraph.edges Examples.g_multi) = 3
  ∧ size (ChcDirectedGraph.edges
            (ChcDirectedGraph.mergeMultiEdges Examples.g_multi)) = 2.
Proof. split; compute_done. Qed.

Example mergeMultiEdges_h_multi :
  (ChcDirectedHyperGraph.mergeMultiEdges Examples.h_multi).1 = true
  ∧ size (ChcDirectedHyperGraph.edges
            (ChcDirectedHyperGraph.mergeMultiEdges Examples.h_multi).2) = 1
  ∧ (ChcDirectedHyperGraph.mergeMultiEdges Examples.h_hyper_multi).1 = false.
Proof. repeat split; compute_done. Qed.

Example contractVertex_g_multi :
  (ChcDirectedGraph.contractVertex 5 Examples.g_multi).1 = inr tt
  ∧ size (ChcDirectedGraph.edges
            (ChcDirectedGraph.contractVertex 5 Examples.g_multi).2) = 2.
Proof. split; compute_done. Qed.

Example reverseEdge_g_multi :
  ChcDirectedGraph.reverseEdge Examples.g_multi
    {| ChcDirectedGraph.from := 5; ChcDirectedGraph.to := 7;
       ChcDirectedGraph.fla := App 50 [Var 10 0; Var 20 1];
       ChcDirectedGraph.id := 0 |}
  = {| ChcDirectedGraph.from := 7; ChcDirectedGraph.to := 5;
       ChcDirectedGraph.fla := App 50 [Var 10 1; Var 20 0];
       ChcDirectedGraph.id := 0 |}.
Proof. reflexivity. Qed.

Example kind_counter :
  let run := Kind.solveTransitionSystem (λ t, App 25 [t]) KindSpec.shift
               Kind.getTransition KindSpec.answer_four true KindSpec.counter in
  run.2 = {| answer := UNSAFE;
             witness := InvalidityWitness_fromTransitionSystem 2 |}
  ∧ Kind.k run.1 = 2.
Proof. split; vm_compute; reflexivity. Qed.

(** * Further properties *)

(** ** The rounds of k-induction *)

Module KindRounds.
Import Kind KindSpec.

#[local] Opaque maxK.

Lemma rounds_add {S R} (body : S → S * option R) n m : ∀ s,
  rounds (n + m) body s =
    match rounds n body s with
    | (s', None) => rounds m body s'
    | r => r
    end.
Proof.
  induction n as [|n IH]; intros s; [done|].
  cbn [Nat.add rounds]. destruct (body s) as [s' [r|]]; [done|]. apply IH.
Qed.

Lemma iterate_rounds {S R} (body : S → S * option R) p : ∀ s,
  iterate p body s = rounds (Pos.to_nat p) body s.
Proof.
  induction p as [p IH|p IH|]; intros s; cbn [iterate].
  - rewrite Pos2Nat.inj_xI. cbn [rounds].
    destruct (body s) as [s1 [r|]]; [done|].
    replace (2 * Pos.to_nat p) with (Pos.to_nat p + Pos.to_nat p) by lia.
    rewrite rounds_add, <- IH.
    destruct (iterate p body s1) as [s2 [r|]]; [done|]. apply IH.
  - rewrite Pos2Nat.inj_xO.
    replace (2 * Pos.to_nat p) with (Pos.to_nat p + Pos.to_nat p) by lia.
    rewrite rounds_add, <- IH.
    destruct (iterate p body s) as [s2 [r|]]; [done|]. apply IH.
  - change (Pos.to_nat 1) with 1. cbn [rounds].
    by destruct (body s) as [s1 [r|]].
Qed.

Section Engine.
Variable mkNot : PTRef → PTRef.
Variable sendFlaThroughTime : PTRef → nat → PTRef.
Variable reverseTransitionRelation : TransitionSystem → PTRef.
Variable smtCheck : list PTRef → sstat.
Variable computeWitness : bool.
Variable system : TransitionSystem.

Local Abbreviation round :=
  (round sendFlaThroughTime smtCheck computeWitness
         (getInit system) (getQuery system) (getTransition system)
         (reverseTransitionRelation system)
         (mkNot (getQuery system)) (mkNot (getInit system))).
Local Abbreviation contexts_at :=
  (contexts_at mkNot sendFlaThroughTime reverseTransitionRelation system).
Local Abbreviation decision :=
  (decision mkNot sendFlaThroughTime reverseTransitionRelation smtCheck
            computeWitness system).
Local Abbreviation forward :=
  (forward mkNot sendFlaThroughTime reverseTransitionRelation system).
Local Abbreviation backward := (backward mkNot sendFlaThroughTime system).
Local Abbreviation unrolling := (unrolling sendFlaThroughTime system).

Lemma step_frames_S first f g n :
  step_frames sendFlaThroughTime first f g (n + 1)
  = [sendFlaThroughTime f n; sendFlaThroughTime g (n + 1)]
    :: step_frames sendFlaThroughTime first f g n.
Proof.
  unfold step_frames. rewrite seq_app, fmap_app. cbn [seq fmap list_fmap Nat.add].
  rewrite app_comm_cons, reverse_app. done.
Qed.

(** What a round does, read off the three checks of its depth. *)
Lemma round_decision st :
  contexts_at st →
  match decision (k st) with
  | Some r =>
      ∃ st', round st = (st', Some r) ∧ k st' = k st
             ∧ frames (solverStepBackward st') = frames (solverStepBackward st)
             ∧ (smtCheck (forward (k st)) = s_False →
                frames (solverStepForward st') = frames (solverStepForward st))
  | None => ∃ st', round st = (st', None) ∧ contexts_at st' ∧ k st' = k st + 1
  end.
Proof.
  intros (Hb & Hf & Hw). unfold KindSpec.base_at in Hb.
  unfold KindSpec.decision, Kind.round.
  set (base1 := insertFormula (sendFlaThroughTime (getQuery system) (k st))
                  (push (solverBase st))).
  assert (Ha : check smtCheck base1 = smtCheck (unrolling (k st))).
  { unfold check. f_equal.
    unfold base1, assertions, insertFormula, push. simpl. rewrite Hb. done. }
  assert (Hfa : check smtCheck (solverStepForward st) = smtCheck (forward (k st))).
  { unfold check, assertions, KindSpec.forward. by rewrite Hf. }
  assert (Hwa : check smtCheck (solverStepBackward st) = smtCheck (backward (k st))).
  { unfold check, assertions, KindSpec.backward. by rewrite Hw. }
  assert (Hnext : ∀ fw bw,
    frames fw = [sendFlaThroughTime (reverseTransitionRelation system) (k st);
                 sendFlaThroughTime (mkNot (getQuery system)) (k st + 1)]
                :: frames (solverStepForward st) →
    frames bw = [sendFlaThroughTime (getTransition system) (k st);
                 sendFlaThroughTime (mkNot (getInit system)) (k st + 1)]
                :: frames (solverStepBackward st) →
    contexts_at
      {| k := k st + 1;
         solverBase := insertFormula (sendFlaThroughTime (getTransition system) (k st))
                         (pop base1);
         solverStepForward := fw; solverStepBackward := bw |}).
  { intros fw bw Hfw Hbw. split; [|split]; cbn [k solverBase solverStepForward solverStepBackward].
    - unfold KindSpec.base_at. cbn [k solverBase].
      unfold base1, insertFormula, pop, push. simpl. rewrite Hb. simpl.
      by rewrite seq_app, fmap_app.
    - by rewrite Hfw, Hf, step_frames_S.
    - by rewrite Hbw, Hw, step_frames_S. }
  rewrite Ha, Hfa, Hwa.
  destruct (smtCheck (unrolling (k st))) eqn:Hc1.
  1: { eexists. split; [reflexivity|]. done. }
  all: destruct (smtCheck (forward (k st))) eqn:Hc2.
  all: try (eexists; split; [reflexivity|]; done).
  all: destruct (smtCheck (backward (k st))) eqn:Hc3.
  all: try (eexists; split; [reflexivity|]; done).
  all: eexists; split; [reflexivity|]; split; [|done]; by apply Hnext.
Qed.

Lemma contexts_at_start : contexts_at (start system).
Proof. done. Qed.

(** [n] rounds from the head of round [k st]. *)
Lemma rounds_decision n : ∀ st,
  contexts_at st →
  match rounds n round st with
  | (st', None) =>
      contexts_at st' ∧ k st' = k st + n
      ∧ ∀ j, j < n → decision (k st + j) = None
  | (st', Some r) =>
      ∃ d, d < n ∧ k st' = k st + d ∧ decision (k st + d) = Some r
           ∧ (∀ j, j < d → decision (k st + j) = None)
           ∧ frames (solverStepBackward st')
             = step_frames sendFlaThroughTime (getInit system)
                 (getTransition system) (mkNot (getInit system)) (k st')
           ∧ (smtCheck (forward (k st')) = s_False →
              frames (solverStepForward st')
              = step_frames sendFlaThroughTime (getQuery system)
                  (reverseTransitionRelation system)
                  (mkNot (getQuery system)) (k st'))
  end.
Proof.
  induction n as [|n IH]; intros st Hst.
  - cbn [rounds]. split; [done|]. split; [lia|]. intros j Hj. lia.
  - cbn [rounds]. pose proof (round_decision st Hst) as Hr.
    destruct (decision (k st)) as [r|] eqn:Hd.
    + destruct Hr as (st' & -> & Hk & Hbw & Hfw). exists 0.
      rewrite Nat.add_0_r. split; [lia|]. split; [done|]. split; [done|].
      split; [intros j Hj; lia|].
      destruct Hst as (_ & Hf & Hw). rewrite Hk. split; [by rewrite Hbw|].
      intros Hc. by rewrite Hfw.
    + destruct Hr as (st' & -> & Hst' & Hk).
      specialize (IH st' Hst'). rewrite Hk in IH.
      destruct (rounds n round st') as [st'' [r|]].
      * destruct IH as (d & Hdn & Hk' & Hdec & Hund & Hfr).
        exists (S d). split; [lia|]. split; [lia|].
        replace (k st + S d) with (k st + 1 + d) by lia. split; [done|].
        split; [|done]. intros j Hj. destruct j as [|j].
        -- by rewrite Nat.add_0_r.
        -- replace (k st + S j) with (k st + 1 + j) by lia. apply Hund. lia.
      * destruct IH as (Hc & Hk' & Hund). split; [done|]. split; [lia|].
        intros j Hj. destruct j as [|j].
        -- by rewrite Nat.add_0_r.
        -- replace (k st + S j) with (k st + 1 + j) by lia. apply Hund. lia.
Qed.

Lemma solveTransitionSystem_rounds :
  solveTransitionSystem mkNot sendFlaThroughTime reverseTransitionRelation
    smtCheck computeWitness system
  = match smtCheck [getInit system] with
    | s_False => (start system, {| answer := SAFE; witness := NoWitness |})
    | _ =>
        match rounds (Pos.to_nat maxK) round (start system) with
        | (st', Some r) => (st', r)
        | (st', None) => (st', {| answer := UNKNOWN; witness := NoWitness |})
        end
    end.
Proof.
  unfold solveTransitionSystem.
  change (insertFormula (getInit system) newSolver) with {| frames := [[getInit system]] |}.
  change (insertFormula (getQuery system) newSolver) with {| frames := [[getQuery system]] |}.
  fold (start system). rewrite iterate_rounds.
  change (check smtCheck {| frames := [[getInit system]] |})
    with (smtCheck [getInit system]).
  done.
Qed.

Lemma decision_answer d r :
  decision d = Some r →
  (answer r = UNSAFE ∧ smtCheck (unrolling d) = s_True
   ∧ witness r = (if computeWitness then InvalidityWitness_fromTransitionSystem d
                  else NoWitness))
  ∨ (answer r = SAFE ∧ smtCheck (unrolling d) ≠ s_True
     ∧ smtCheck (forward d) = s_False
     ∧ witness r = (if computeWitness then witnessFromForwardInduction d
                    else NoWitness))
  ∨ (answer r = SAFE ∧ smtCheck (unrolling d) ≠ s_True
     ∧ smtCheck (forward d) ≠ s_False ∧ smtCheck (backward d) = s_False
     ∧ witness r = (if computeWitness then witnessFromBackwardInduction d
                    else NoWitness)).
Proof.
  unfold KindSpec.decision, result.
  destruct (smtCheck (unrolling d)); [intros [= <-]; by left|..];
    (destruct (smtCheck (forward d));
      [|intros [= <-]; right; left; by repeat split|]);
    (destruct (smtCheck (backward d)); intros [= <-]);
    right; right; by repeat split.
Qed.

Lemma decision_None d :
  decision d = None ↔
  smtCheck (unrolling d) ≠ s_True ∧ smtCheck (forward d) ≠ s_False
  ∧ smtCheck (backward d) ≠ s_False.
Proof.
  unfold KindSpec.decision.
  destruct (smtCheck (unrolling d)), (smtCheck (forward d)),
    (smtCheck (backward d)); split; try done; intros (? & ? & ?); done.
Qed.

(** The three ways a run ends. *)
Lemma solveTransitionSystem_cases st r :
  solveTransitionSystem mkNot sendFlaThroughTime reverseTransitionRelation
    smtCheck computeWitness system = (st, r) →
  (smtCheck [getInit system] = s_False ∧ st = start system
   ∧ r = {| answer := SAFE; witness := NoWitness |})
  ∨ (smtCheck [getInit system] ≠ s_False
     ∧ k st < Pos.to_nat maxK ∧ decision (k st) = Some r
     ∧ (∀ j, j < k st → decision j = None)
     ∧ frames (solverStepBackward st)
       = step_frames sendFlaThroughTime (getInit system)
           (getTransition system) (mkNot (getInit system)) (k st)
     ∧ (smtCheck (forward (k st)) = s_False →
        frames (solverStepForward st)
        = step_frames sendFlaThroughTime (getQuery system)
            (reverseTransitionRelation system)
            (mkNot (getQuery system)) (k st)))
  ∨ (smtCheck [getInit system] ≠ s_False
     ∧ r = {| answer := UNKNOWN; witness := NoWitness |}
     ∧ k st = Pos.to_nat maxK
     ∧ ∀ j, j < Pos.to_nat maxK → decision j = None).
Proof.
  rewrite solveTransitionSystem_rounds.
  pose proof (rounds_decision (Pos.to_nat maxK) (start system) contexts_at_start) as Hr.
  change (k (start system)) with 0 in Hr.
  assert (Hrun : match rounds (Pos.to_nat maxK) round (start system) with
                 | (st', Some r) => (st', r)
                 | (st', None) => (st', {| answer := UNKNOWN; witness := NoWitness |})
                 end = (st, r) →
           (k st < Pos.to_nat maxK ∧ decision (k st) = Some r
            ∧ (∀ j, j < k st → decision j = None)
            ∧ frames (solverStepBackward st)
              = step_frames sendFlaThroughTime (getInit system)
                  (getTransition system) (mkNot (getInit system)) (k st)
            ∧ (smtCheck (forward (k st)) = s_False →
               frames (solverStepForward st)
               = step_frames sendFlaThroughTime (getQuery system)
                   (reverseTransitionRelation system)
                   (mkNot (getQuery system)) (k st)))
           ∨ (r = {| answer := UNKNOWN; witness := NoWitness |}
              ∧ k st = Pos.to_nat maxK
              ∧ ∀ j, j < Pos.to_nat maxK → decision j = None)).
  { destruct (rounds (Pos.to_nat maxK) round (start system)) as [st' [r'|]];
      intros [= <- <-].
    - left. destruct Hr as (d & Hd & Hk & Hdec & Hund & Hfr).
      cbn [Nat.add] in *. subst d. done.
    - right. destruct Hr as (_ & Hk & Hund). done. }
  destruct (smtCheck [getInit system]) eqn:Hinit.
  - intros H. right. destruct (Hrun H) as [H1|H1]; [left|right]; done.
  - intros [= <- <-]. by left.
  - intros H. right. destruct (Hrun H) as [H1|H1]; [left|right]; done.
Qed.

(** The run when the depth [d] is the first one decided. *)
Lemma solveTransitionSystem_decided d r :
  smtCheck [getInit system] ≠ s_False →
  d < Pos.to_nat maxK →
  (∀ j, j < d → decision j = None) →
  decision d = Some r →
  ∃ st, solveTransitionSystem mkNot sendFlaThroughTime reverseTransitionRelation
          smtCheck computeWitness system = (st, r) ∧ k st = d.
Proof.
  intros Hinit Hd Hund Hdec.
  destruct (solveTransitionSystem mkNot sendFlaThroughTime
              reverseTransitionRelation smtCheck computeWitness system)
    as [st r'] eqn:Hrun.
  exists st.
  destruct (solveTransitionSystem_cases st r' Hrun)
    as [(Hi & _)|[(_ & Hk & Hdec' & Hund' & _)|(_ & _ & _ & Hall)]].
  - done.
  - destruct (Nat.lt_trichotomy (k st) d) as [Hlt|[Heq|Hgt]].
    + rewrite (Hund _ Hlt) in Hdec'. done.
    + subst d. split; [|done]. congruence.
    + rewrite (Hund' _ Hgt) in Hdec. done.
  - rewrite (Hall _ Hd) in Hdec. done.
Qed.

(** The run when no depth is decided. *)
Lemma solveTransitionSystem_undecided :
  smtCheck [getInit system] ≠ s_False →
  (∀ j, j < Pos.to_nat maxK → decision j = None) →
  ∃ st, solveTransitionSystem mkNot sendFlaThroughTime reverseTransitionRelation
          smtCheck computeWitness system
        = (st, {| answer := UNKNOWN; witness := NoWitness |})
        ∧ k st = Pos.to_nat maxK.
Proof.
  intros Hinit Hall.
  destruct (solveTransitionSystem mkNot sendFlaThroughTime
              reverseTransitionRelation smtCheck computeWitness system)
    as [st r'] eqn:Hrun.
  exists st.
  destruct (solveTransitionSystem_cases st r' Hrun)
    as [(Hi & _)|[(_ & Hk & Hdec' & _)|(_ & -> & Hk & _)]].
  - done.
  - rewrite (Hall _ Hk) in Hdec'. done.
  - done.
Qed.

End Engine.
End KindRounds.

(** X1.  When the k-induction engine answers UNSAFE with the counter at [k],
    no earlier depth was decided: for every [j < k] the solver did not
    answer SAT on the base case of depth [j], nor UNSAT on the forward or on
    the backward step of depth [j]; and it did not answer UNSAT on [init]
    alone.  So [k] is the least depth whose base case the solver finds
    satisfiable. *)
Theorem kind_unsafe_depth_is_least
    (mkNot : PTRef → PTRef) (sendFlaThroughTime : PTRef → nat → PTRef)
    (reverseTransitionRelation : Kind.TransitionSystem → PTRef)
    (smtCheck : list PTRef → Kind.sstat) (computeWitness : bool)
    (system : Kind.TransitionSystem) (st : Kind.LoopState)
    (r : VerificationResult) (j : nat) :
  Kind.solveTransitionSystem mkNot sendFlaThroughTime reverseTransitionRelation
    smtCheck computeWitness system = (st, r) →
  answer r = UNSAFE →
  j < Kind.k st →
  smtCheck (KindSpec.unrolling sendFlaThroughTime system j) ≠ Kind.s_True
  ∧ smtCheck (KindSpec.forward mkNot sendFlaThroughTime
                reverseTransitionRelation system j) ≠ Kind.s_False
  ∧ smtCheck (KindSpec.backward mkNot sendFlaThroughTime system j) ≠ Kind.s_False
  ∧ smtCheck [Kind.getInit system] ≠ Kind.s_False.
Proof.
  intros Hrun Hans Hj.
  destruct (KindRounds.solveTransitionSystem_cases _ _ _ _ _ _ _ _ Hrun)
    as [(_ & _ & ->)|[(Hi & _ & _ & Hund & _)|(_ & -> & _)]]; [done| |done].
  specialize (Hund j Hj). apply KindRounds.decision_None in Hund.
  destruct Hund as (? & ? & ?). done.
Qed.

Lemma kind_unsafe_depth_is_least_witness :
  KindSpec.answer_four (KindSpec.unrolling KindSpec.shift KindSpec.counter 1)
    ≠ Kind.s_True.
Proof.
  pose (run := Kind.solveTransitionSystem (λ t, App 25 [t]) KindSpec.shift
                 Kind.getTransition KindSpec.answer_four true KindSpec.counter).
  refine (proj1 (kind_unsafe_depth_is_least (λ t, App 25 [t]) KindSpec.shift
            Kind.getTransition KindSpec.answer_four true KindSpec.counter
            run.1 run.2 1 _ _ _)).
  - exact (surjective_pairing run).
  - vm_compute. reflexivity.
  - vm_compute. lia.
Defined.

(** X2.  When the engine answers SAFE, one of three checks answered UNSAT:
    the first check, of [init] alone (then the counter is 0 and there is no
    witness, also when witnesses are computed); or the check of the
    StepForward context of round [k], which holds [query] and, for every
    [i < k], the reversed transition at time [i] and the negated query at
    time [i + 1]; or the check of the StepBackward context of round [k],
    which holds [init] and, for every [i < k], the transition at time [i]
    and the negated [init] at time [i + 1].  The witness, when computed, is
    the one of this induction and this [k]. *)
Theorem kind_safe_by_induction_check
    (mkNot : PTRef → PTRef) (sendFlaThroughTime : PTRef → nat → PTRef)
    (reverseTransitionRelation : Kind.TransitionSystem → PTRef)
    (smtCheck : list PTRef → Kind.sstat) (computeWitness : bool)
    (system : Kind.TransitionSystem) (st : Kind.LoopState)
    (r : VerificationResult) :
  Kind.solveTransitionSystem mkNot sendFlaThroughTime reverseTransitionRelation
    smtCheck computeWitness system = (st, r) →
  answer r = SAFE →
  (smtCheck [Kind.getInit system] = Kind.s_False
   ∧ Kind.k st = 0 ∧ witness r = NoWitness)
  ∨ (smtCheck (KindSpec.forward mkNot sendFlaThroughTime
                 reverseTransitionRelation system (Kind.k st)) = Kind.s_False
     ∧ Kind.assertions (Kind.solverStepForward st)
       = KindSpec.forward mkNot sendFlaThroughTime reverseTransitionRelation
           system (Kind.k st)
     ∧ witness r = (if computeWitness
                    then witnessFromForwardInduction (Kind.k st)
                    else NoWitness))
  ∨ (smtCheck (KindSpec.backward mkNot sendFlaThroughTime system (Kind.k st))
       = Kind.s_False
     ∧ Kind.assertions (Kind.solverStepBackward st)
       = KindSpec.backward mkNot sendFlaThroughTime system (Kind.k st)
     ∧ witness r = (if computeWitness
                    then witnessFromBackwardInduction (Kind.k st)
                    else NoWitness)).
Proof.
  intros Hrun Hans.
  destruct (KindRounds.solveTransitionSystem_cases _ _ _ _ _ _ _ _ Hrun)
    as [(Hi & -> & ->)|[(Hi & _ & Hdec & _ & Hbw & Hfw)|(_ & -> & _)]];
    [by left| |done].
  right. apply KindRounds.decision_answer in Hdec
    as [(Hu & _)|[(_ & _ & Hc & Hw)|(_ & _ & _ & Hc & Hw)]]; [congruence|left|right].
  - split; [done|]. split; [|done].
    unfold Kind.assertions, KindSpec.forward. by rewrite Hfw.
  - split; [done|]. split; [|done].
    unfold Kind.assertions, KindSpec.backward. by rewrite Hbw.
Qed.

Lemma kind_safe_by_induction_check_witness :
  let run := Kind.solveTransitionSystem (λ t, App 25 [t]) KindSpec.shift
               Kind.getTransition KindSpec.answer_three true KindSpec.counter in
  (KindSpec.answer_three [Kind.getInit KindSpec.counter] = Kind.s_False
   ∧ Kind.k run.1 = 0 ∧ witness run.2 = NoWitness)
  ∨ (KindSpec.answer_three
       (KindSpec.forward (λ t, App 25 [t]) KindSpec.shift Kind.getTransition
          KindSpec.counter (Kind.k run.1)) = Kind.s_False
     ∧ Kind.assertions (Kind.solverStepForward run.1)
       = KindSpec.forward (λ t, App 25 [t]) KindSpec.shift Kind.getTransition
           KindSpec.counter (Kind.k run.1)
     ∧ witness run.2 = witnessFromForwardInduction (Kind.k run.1))
  ∨ (KindSpec.answer_three
       (KindSpec.backward (λ t, App 25 [t]) KindSpec.shift KindSpec.counter
          (Kind.k run.1)) = Kind.s_False
     ∧ Kind.assertions (Kind.solverStepBackward run.1)
       = KindSpec.backward (λ t, App 25 [t]) KindSpec.shift KindSpec.counter
           (Kind.k run.1)
     ∧ witness run.2 = witnessFromBackwardInduction (Kind.k run.1)).
Proof.
  intros run.
  apply (kind_safe_by_induction_check (λ t, App 25 [t]) KindSpec.shift
           Kind.getTransition KindSpec.answer_three true KindSpec.counter
           run.1 run.2).
  - exact (surjective_pairing run).
  - vm_compute. reflexivity.
Defined.

(** X3.  The engine answers at the first depth that one of its checks
    decides.  When [init] alone is not found unsatisfiable, the depth [d] is
    below the bound of the loop, no depth before [d] is decided and the
    checks of depth [d] decide [r], the run returns [r] with the counter at
    [d]: the loop does not stop earlier and does not run further. *)
Theorem kind_answers_at_first_decided_depth
    (mkNot : PTRef → PTRef) (sendFlaThroughTime : PTRef → nat → PTRef)
    (reverseTransitionRelation : Kind.TransitionSystem → PTRef)
    (smtCheck : list PTRef → Kind.sstat) (computeWitness : bool)
    (system : Kind.TransitionSystem) (d : nat) (r : VerificationResult) :
  smtCheck [Kind.getInit system] ≠ Kind.s_False →
  (Z.of_nat d < Z.pos Kind.maxK)%Z →
  (∀ j, j < d →
     KindSpec.decision mkNot sendFlaThroughTime reverseTransitionRelation
       smtCheck computeWitness system j = None) →
  KindSpec.decision mkNot sendFlaThroughTime reverseTransitionRelation
    smtCheck computeWitness system d = Some r →
  ∃ st, Kind.solveTransitionSystem mkNot sendFlaThroughTime
          reverseTransitionRelation smtCheck computeWitness system = (st, r)
        ∧ Kind.k st = d.
Proof.
  intros Hinit Hd Hund Hdec.
  apply KindRounds.solveTransitionSystem_decided; try done. lia.
Qed.

Lemma kind_answers_at_first_decided_depth_witness :
  ∃ st, Kind.solveTransitionSystem (λ t, App 25 [t]) KindSpec.shift
          Kind.getTransition KindSpec.answer_four true KindSpec.counter
        = (st, {| answer := UNSAFE;
                  witness := InvalidityWitness_fromTransitionSystem 2 |})
        ∧ Kind.k st = 2.
Proof.
  apply (kind_answers_at_first_decided_depth (λ t, App 25 [t]) KindSpec.shift
           Kind.getTransition KindSpec.answer_four true KindSpec.counter 2).
  - vm_compute. discriminate.
  - vm_compute. reflexivity.
  - intros j Hj. destruct j as [|[|j]]; [vm_compute; reflexivity..|lia].
  - vm_compute. reflexivity.
Defined.

(** X4.  The engine answers UNKNOWN exactly when no check decides at any
    depth below the bound of the loop, [2^64 - 1]; the counter then is at
    the bound.  An answer [s_Undef] of the solver does not end the run: a
    base case that is not SAT and a step that is not UNSAT let the loop go
    on. *)
Theorem kind_unknown_iff_undecided
    (mkNot : PTRef → PTRef) (sendFlaThroughTime : PTRef → nat → PTRef)
    (reverseTransitionRelation : Kind.TransitionSystem → PTRef)
    (smtCheck : list PTRef → Kind.sstat) (computeWitness : bool)
    (system : Kind.TransitionSystem) :
  let run := Kind.solveTransitionSystem mkNot sendFlaThroughTime
               reverseTransitionRelation smtCheck computeWitness system in
  answer run.2 = UNKNOWN
  ↔ (smtCheck [Kind.getInit system] ≠ Kind.s_False
     ∧ Z.of_nat (Kind.k run.1) = Z.pos Kind.maxK
     ∧ ∀ j, (Z.of_nat j < Z.pos Kind.maxK)%Z →
         smtCheck (KindSpec.unrolling sendFlaThroughTime system j) ≠ Kind.s_True
         ∧ smtCheck (KindSpec.forward mkNot sendFlaThroughTime
                       reverseTransitionRelation system j) ≠ Kind.s_False
         ∧ smtCheck (KindSpec.backward mkNot sendFlaThroughTime system j)
           ≠ Kind.s_False).
Proof.
  intros run. split.
  - intros Hans.
    destruct (KindRounds.solveTransitionSystem_cases _ _ _ _ _ _ _ _
                (surjective_pairing run))
      as [(_ & _ & Hr)|[(_ & _ & Hdec & _)|(Hi & _ & Hk & Hall)]].
    + rewrite Hr in Hans. done.
    + apply KindRounds.decision_answer in Hdec
        as [(Hu & _)|[(Hu & _)|(Hu & _)]]; congruence.
    + split; [done|]. split; [lia|]. intros j Hj.
      apply (KindRounds.decision_None mkNot sendFlaThroughTime
               reverseTransitionRelation smtCheck computeWitness system).
      apply Hall. lia.
  - intros (Hi & _ & Hall).
    destruct (KindRounds.solveTransitionSystem_undecided mkNot sendFlaThroughTime
                reverseTransitionRelation smtCheck computeWitness system Hi)
      as (st & Hrun & _).
    + intros j Hj. apply KindRounds.decision_None, Hall. lia.
    + unfold run. by rewrite Hrun.
Qed.

(** A solver that never decides makes the engine run all its rounds. *)
Example kind_undecided_unknown :
  answer (Kind.solveTransitionSystem (λ t, App 25 [t]) KindSpec.shift
            Kind.getTransition KindSpec.answer_undef true KindSpec.counter).2
  = UNKNOWN.
Proof.
  destruct (KindRounds.solveTransitionSystem_undecided (λ t, App 25 [t])
              KindSpec.shift Kind.getTransition KindSpec.answer_undef true
              KindSpec.counter) as (st & Hrun & _).
  - done.
  - intros j _. reflexivity.
  - by rewrite Hrun.
Qed.

(** ** Further facts about merging *)

Section MergeTargets.
  Context {E : Type}.
  Variable key : E → option (SymRef * SymRef).
  Variable eid : E → EId.
  Variable lbl : E → PTRef.
  Variable set_lbl : PTRef → E → E.
  Variable mk : list PTRef → PTRef.
  Variable tgt : E → SymRef.

  Local Abbreviation group := (group key eid).
  Local Abbreviation merged := (merged key eid lbl set_lbl mk).
  Local Abbreviation wf_ids := (wf_ids eid).

  Hypothesis key_set_lbl : ∀ l e, key (set_lbl l e) = key e.
  Hypothesis tgt_set_lbl : ∀ l e, tgt (set_lbl l e) = tgt e.
  Hypothesis tgt_key : ∀ e p, key e = Some p → tgt e = p.2.

Lemma merged_targets es x :
  wf_ids es →
  (∃ i e, merged es !! i = Some e ∧ tgt e = x)
  ↔ (∃ i e, es !! i = Some e ∧ tgt e = x).
Proof.
  intros Hwf. split.
  - intros (i & e' & Hi & Ht).
    apply lookup_merged_Some in Hi as (e & Hi & [->|[l ->]]).
    + by exists i, e.
    + exists i, e. by rewrite tgt_set_lbl in Ht.
  - intros (i & e & Hi & Ht).
    destruct (key e) as [p|] eqn:Hk.
    + assert (Hin : i ∈ group es p) by (apply elem_of_group; eauto).
      destruct (group es p) as [|i0 tl] eqn:Hg; [by apply elem_of_nil in Hin|].
      destruct tl as [|i1 tl].
      * exists i, e. split; [|done].
        rewrite (lookup_merged key eid lbl set_lbl mk), Hi. simpl. rewrite Hk.
        unfold rule. rewrite Hg. by rewrite bool_decide_true by (simpl; lia).
      * destruct (merged_group key eid lbl set_lbl mk es p i0 (i1 :: tl))
          as (e0 & Hi0 & Hk0 & Hm & _); [done..|].
        exists i0, (set_lbl (mk (labels lbl es (i0 :: i1 :: tl))) e0).
        split; [done|]. rewrite tgt_set_lbl.
        rewrite (tgt_key _ _ Hk0). rewrite <- Ht. symmetry. by apply tgt_key.
    + exists i, e. split; [|done]. by apply merged_other.
Qed.

End MergeTargets.

(** ** The vertices *)

Lemma elem_of_values {E} (es : gmap nat E) (e : E) :
  e ∈ (map_to_list es).*2 ↔ ∃ i, es !! i = Some e.
Proof.
  rewrite list_elem_of_fmap. split.
  - intros ([i e'] & -> & H). exists i. by apply elem_of_map_to_list.
  - intros [i H]. exists (i, e). split; [done|]. by apply elem_of_map_to_list.
Qed.

Lemma targets_ext {E} (tgt : E → SymRef) (es es' : gmap nat E) :
  (∀ x, (∃ i e, es' !! i = Some e ∧ tgt e = x)
        ↔ (∃ i e, es !! i = Some e ∧ tgt e = x)) →
  foldl (λ vs edge, {[ tgt edge ]} ∪ vs) (∅ : gset SymRef) (map_to_list es').*2
  = foldl (λ vs edge, {[ tgt edge ]} ∪ vs) ∅ (map_to_list es).*2.
Proof.
  intros Hext. apply set_eq. intros x. rewrite !foldl_targets.
  split; (intros [?|(e & He & Ht)]; [by left|right]);
    apply elem_of_values in He as [i Hi].
  - destruct (proj1 (Hext x)) as (j & e' & Hj & Ht'); [by exists i, e|].
    exists e'. split; [|done]. apply elem_of_values. by exists j.
  - destruct (proj2 (Hext x)) as (j & e' & Hj & Ht'); [by exists i, e|].
    exists e'. split; [|done]. apply elem_of_values. by exists j.
Qed.

(** X5.  [getVertices], of a linear graph and of a hypergraph, returns
    without repetition the entry and the targets of the edges, and nothing
    else: a symbol is returned exactly when it is the entry or some edge
    leads to it. *)
Theorem getVertices_targets_and_entry
    (g : ChcDirectedGraph.t) (h : ChcDirectedHyperGraph.t) (x : SymRef) :
  NoDup (ChcDirectedGraph.getVertices g)
  ∧ (x ∈ ChcDirectedGraph.getVertices g
     ↔ x = ChcDirectedGraph.getEntry g
       ∨ ∃ i e, ChcDirectedGraph.edges g !! i = Some e
                ∧ ChcDirectedGraph.to e = x)
  ∧ NoDup (ChcDirectedHyperGraph.getVertices h)
  ∧ (x ∈ ChcDirectedHyperGraph.getVertices h
     ↔ x = ChcDirectedHyperGraph.getEntry h
       ∨ ∃ i e, ChcDirectedHyperGraph.edges h !! i = Some e
                ∧ ChcDirectedHyperGraph.to e = x).
Proof.
  split; [unfold ChcDirectedGraph.getVertices; apply NoDup_elements|]. split.
  { rewrite linear_getVertices_targets. unfold ChcDirectedGraph.forEachEdge.
    split; (intros [?|H]; [by left|right]).
    - destruct H as (e & He & Ht). apply elem_of_values in He as [i Hi]. eauto.
    - destruct H as (i & e & Hi & Ht). exists e. split; [|done].
      apply elem_of_values. eauto. }
  split; [unfold ChcDirectedHyperGraph.getVertices; apply NoDup_elements|].
  rewrite hyper_getVertices_targets. unfold ChcDirectedHyperGraph.forEachEdge.
  split; (intros [?|H]; [by left|right]).
  - destruct H as (e & He & Ht). apply elem_of_values in He as [i Hi]. eauto.
  - destruct H as (i & e & Hi & Ht). exists e. split; [|done].
    apply elem_of_values. eauto.
Qed.

Lemma hyper_key_target e p :
  HyperGraphSpec.key e = Some p → ChcDirectedHyperGraph.to e = p.2.
Proof.
  unfold HyperGraphSpec.key.
  destruct (ChcDirectedHyperGraph.from e) as [|s [|]]; [done| |done].
  by intros [= <-].
Qed.

(** X6.  [mergeMultiEdges] does not change what [getVertices] returns, for
    a linear graph and for a hypergraph: every group of parallel edges keeps
    its first edge, with the target of the group. *)
Theorem mergeMultiEdges_keeps_vertices
    (g : ChcDirectedGraph.t) (h : ChcDirectedHyperGraph.t) :
  GraphSpec.wf g → HyperGraphSpec.wf h →
  ChcDirectedGraph.getVertices (ChcDirectedGraph.mergeMultiEdges g)
  = ChcDirectedGraph.getVertices g
  ∧ ChcDirectedHyperGraph.getVertices (ChcDirectedHyperGraph.mergeMultiEdges h).2
    = ChcDirectedHyperGraph.getVertices h.
Proof.
  intros Hg Hh. split.
  - rewrite linear_mergeMultiEdges_eq by done.
    unfold ChcDirectedGraph.getVertices, ChcDirectedGraph.forEachEdge,
      ChcDirectedGraph.getEntry.
    cbn [ChcDirectedGraph.edges ChcDirectedGraph.set_edges ChcDirectedGraph.logic].
    f_equal. f_equal. apply targets_ext. intros x.
    apply (merged_targets GraphSpec.key ChcDirectedGraph.id ChcDirectedGraph.fla
             ChcDirectedGraph.set_fla _ ChcDirectedGraph.to); try done.
    by intros e p [= <-].
  - rewrite hyper_mergeMultiEdges_eq by done.
    unfold ChcDirectedHyperGraph.getVertices, ChcDirectedHyperGraph.forEachEdge,
      ChcDirectedHyperGraph.getEntry.
    cbn [ChcDirectedHyperGraph.edges ChcDirectedHyperGraph.set_edges
         ChcDirectedHyperGraph.logic].
    f_equal. f_equal. apply targets_ext. intros x.
    apply (merged_targets HyperGraphSpec.key ChcDirectedHyperGraph.id
             ChcDirectedHyperGraph.fla ChcDirectedHyperGraph.set_fla _
             ChcDirectedHyperGraph.to); try done.
    apply hyper_key_target.
Qed.

Lemma mergeMultiEdges_keeps_vertices_witness :
  ChcDirectedGraph.getVertices (ChcDirectedGraph.mergeMultiEdges Examples.g_multi)
  = ChcDirectedGraph.getVertices Examples.g_multi
  ∧ ChcDirectedHyperGraph.getVertices
      (ChcDirectedHyperGraph.mergeMultiEdges Examples.h_multi).2
    = ChcDirectedHyperGraph.getVertices Examples.h_multi.
Proof.
  apply (mergeMultiEdges_keeps_vertices Examples.g_multi Examples.h_multi).
  - unfold GraphSpec.wf, wf_ids. compute_done.
  - unfold HyperGraphSpec.wf, wf_ids. compute_done.
Defined.

(** ** The adjacency lists *)

(** X7.  The adjacency lists built from a linear graph have the same keys
    in both maps: the symbols that are the source or the target of some
    edge.  For such a symbol [incoming] lists the ids of the edges that lead
    to it and [outgoing] the ids of the edges that leave it, each in the
    order [forEachEdge] visits the edges; any other symbol has no entry. *)
Theorem adjacencyFrom_lists_every_endpoint (g : ChcDirectedGraph.t) (s : SymRef) :
  let a := ChcDirectedGraph.adjacencyFrom g in
  let l := ChcDirectedGraph.forEachEdge g in
  dom (incoming a) = dom (outgoing a)
  ∧ incoming a !! s
    = (if decide (s ∈ GraphSpec.endpoints l)
       then Some (ChcDirectedGraph.id <$> filter (λ e, ChcDirectedGraph.to e = s) l)
       else None)
  ∧ outgoing a !! s
    = (if decide (s ∈ GraphSpec.endpoints l)
       then Some (ChcDirectedGraph.id <$> filter (λ e, ChcDirectedGraph.from e = s) l)
       else None).
Proof.
  intros a l.
  assert (Hin : ∀ x, incoming a !! x
    = (if decide (x ∈ GraphSpec.endpoints l)
       then Some (ChcDirectedGraph.id <$> filter (λ e, ChcDirectedGraph.to e = x) l)
       else None)).
  { intros x. unfold a.
    change (ChcDirectedGraph.adjacencyFrom g)
      with (foldl GraphSpec.adjStep {| incoming := ∅; outgoing := ∅ |} l).
    rewrite GraphContract.adj_incoming. cbn [incoming]. by rewrite lookup_empty. }
  assert (Hout : ∀ x, outgoing a !! x
    = (if decide (x ∈ GraphSpec.endpoints l)
       then Some (ChcDirectedGraph.id <$> filter (λ e, ChcDirectedGraph.from e = x) l)
       else None)).
  { intros x. unfold a.
    change (ChcDirectedGraph.adjacencyFrom g)
      with (foldl GraphSpec.adjStep {| incoming := ∅; outgoing := ∅ |} l).
    rewrite GraphContract.adj_outgoing. cbn [outgoing]. by rewrite lookup_empty. }
  split; [|by split].
  apply set_eq. intros x. rewrite !elem_of_dom, Hin, Hout.
  destruct (decide (x ∈ GraphSpec.endpoints l)); [by split; eauto|].
  split; intros [? ?]; done.
Qed.

(** X8.  The adjacency lists built from a hypergraph have the same keys in
    both maps: the targets and the sources of the edges.  [incoming] lists
    the ids of the edges that lead to the symbol; [outgoing] lists the id of
    an edge once for each slot of its sources that holds the symbol, so an
    edge with a repeated source is listed more than once. *)
Theorem adjacencyFrom_lists_every_source_slot
    (h : ChcDirectedHyperGraph.t) (s : SymRef) :
  let a := ChcDirectedHyperGraph.adjacencyFrom h in
  let l := ChcDirectedHyperGraph.forEachEdge h in
  dom (incoming a) = dom (outgoing a)
  ∧ incoming a !! s
    = (if decide (s ∈ HyperGraphSpec.endpoints l)
       then Some (ChcDirectedHyperGraph.id
                    <$> filter (λ e, ChcDirectedHyperGraph.to e = s) l)
       else None)
  ∧ outgoing a !! s
    = (if decide (s ∈ HyperGraphSpec.endpoints l)
       then Some (l ≫= λ e,
                    (λ _, ChcDirectedHyperGraph.id e)
                      <$> filter (λ x, x = s) (ChcDirectedHyperGraph.from e))
       else None).
Proof.
  intros a l.
  assert (Hin : ∀ x, incoming a !! x
    = (if decide (x ∈ HyperGraphSpec.endpoints l)
       then Some (ChcDirectedHyperGraph.id
                    <$> filter (λ e, ChcDirectedHyperGraph.to e = x) l)
       else None)).
  { intros x. unfold a.
    change (ChcDirectedHyperGraph.adjacencyFrom h)
      with (foldl HyperGraphSpec.adjStep {| incoming := ∅; outgoing := ∅ |} l).
    rewrite HyperContract.hyper_adj_incoming. cbn [incoming].
    by rewrite lookup_empty. }
  assert (Hout : ∀ x, outgoing a !! x
    = (if decide (x ∈ HyperGraphSpec.endpoints l)
       then Some (HyperGraphSpec.outgoingIds l x)
       else None)).
  { intros x. unfold a.
    change (ChcDirectedHyperGraph.adjacencyFrom h)
      with (foldl HyperGraphSpec.adjStep {| incoming := ∅; outgoing := ∅ |} l).
    rewrite HyperContract.hyper_adj_outgoing. cbn [outgoing].
    by rewrite lookup_empty. }
  split; [|split; [done|apply Hout]].
  apply set_eq. intros x. rewrite !elem_of_dom, Hin, Hout.
  destruct (decide (x ∈ HyperGraphSpec.endpoints l)); [by split; eauto|].
  split; intros [? ?]; done.
Qed.

(** ** [mergeEdges] of linear graphs *)

(** X9.  [mergeEdges(incomingId, outgoingId)] on two edges of a linear
    graph: when the target of the first is the source of the second it adds
    one edge, under an id no edge has, from the source of the first to the
    target of the second, with the merged label, and changes nothing else
    (the assertion of [mergeLabels] cannot fail); otherwise it throws
    [logic_error] and leaves the graph as it was. *)
Theorem mergeEdges_needs_common_node
    (g : ChcDirectedGraph.t) (i o : EId)
    (ein eout : ChcDirectedGraph.DirectedEdge) :
  ChcDirectedGraph.edges g !! i = Some ein →
  ChcDirectedGraph.edges g !! o = Some eout →
  let n := fresh (dom (ChcDirectedGraph.edges g)) in
  (ChcDirectedGraph.to ein = ChcDirectedGraph.from eout
   ∧ ChcDirectedGraph.edges g !! n = None
   ∧ ChcDirectedGraph.mergeEdges i o g
     = (inr tt,
        ChcDirectedGraph.set_edges
          (<[n := GraphSpec.mergedEdge g ein eout n]> (ChcDirectedGraph.edges g)) g))
  ∨ (ChcDirectedGraph.to ein ≠ ChcDirectedGraph.from eout
     ∧ ∃ what, ChcDirectedGraph.mergeEdges i o g = (inl (logic_error what), g)).
Proof.
  intros Hi Ho n.
  destruct (decide (ChcDirectedGraph.to ein = ChcDirectedGraph.from eout)) as [Hc|Hc].
  - left. split; [done|]. split; [apply not_elem_of_dom, is_fresh|].
    by apply GraphContract.mergeEdges_run.
  - right. split; [done|]. unfold ChcDirectedGraph.mergeEdges.
    rewrite st_bind_run, (GraphContract.getEdge_run _ _ _ Hi).
    rewrite st_bind_run, (GraphContract.getEdge_run _ _ _ Ho).
    rewrite bool_decide_true by done. by eexists.
Qed.

Lemma mergeEdges_needs_common_node_witness :
  let g := Examples.g_multi in
  let ein := {| ChcDirectedGraph.from := 5; ChcDirectedGraph.to := 7;
                ChcDirectedGraph.fla := App 50 [Var 10 0; Var 20 1];
                ChcDirectedGraph.id := 0 |} in
  let eout := {| ChcDirectedGraph.from := 0; ChcDirectedGraph.to := 5;
                 ChcDirectedGraph.fla := App 52 [Var 10 1];
                 ChcDirectedGraph.id := 2 |} in
  let n := fresh (dom (ChcDirectedGraph.edges g)) in
  (ChcDirectedGraph.to ein = ChcDirectedGraph.from eout
   ∧ ChcDirectedGraph.edges g !! n = None
   ∧ ChcDirectedGraph.mergeEdges 0 2 g
     = (inr tt,
        ChcDirectedGraph.set_edges
          (<[n := GraphSpec.mergedEdge g ein eout n]> (ChcDirectedGraph.edges g)) g))
  ∨ (ChcDirectedGraph.to ein ≠ ChcDirectedGraph.from eout
     ∧ ∃ what, ChcDirectedGraph.mergeEdges 0 2 g = (inl (logic_error what), g)).
Proof.
  intros g ein eout.
  apply (mergeEdges_needs_common_node g 0 2 ein eout); vm_compute; reflexivity.
Defined.

(** ** Self-loops *)

Module SelfLoop.
Import ChcDirectedGraph GraphSpec.

Lemma getTarget_run c i e : edges c !! i = Some e → getTarget i c = (inr (to e), c).
Proof.
  intros H. unfold getTarget.
  by rewrite st_bind_run, (GraphContract.getEdge_run _ _ _ H).
Qed.

(** [find_if] over ids of edges of the graph. *)
Lemma find_if_target g sym (l : list EId) :
  (∀ i, i ∈ l → is_Some (edges g !! i)) →
  ∃ r, find_if (λ eid, tgt ← getTarget eid; mret (bool_decide (tgt = sym))) l g
       = (inr r, g)
       ∧ match r with
         | Some i => i ∈ l ∧ ∃ e, edges g !! i = Some e ∧ to e = sym
         | None => ∀ i e, i ∈ l → edges g !! i = Some e → to e ≠ sym
         end.
Proof.
  induction l as [|i l IH]; intros Hl.
  - exists None. split; [done|]. intros i e Hi. by apply elem_of_nil in Hi.
  - destruct (Hl i) as [e He]; [by left|].
    cbn [find_if]. rewrite st_bind_run, st_bind_run, (getTarget_run _ _ _ He).
    cbn [mret St_ret st_ret].
    destruct (decide (to e = sym)) as [Ht|Ht].
    + rewrite bool_decide_true by done. exists (Some i). split; [done|].
      split; [by left|eauto].
    + rewrite bool_decide_false by done.
      destruct IH as (r & Hr & Hspec); [intros j Hj; apply Hl; by right|].
      exists r. split; [done|]. destruct r as [j|].
      * destruct Hspec as [Hj Hspec]. split; [by right|done].
      * intros j e' Hj Hje. apply elem_of_cons in Hj as [->|Hj]; [congruence|].
        by apply (Hspec j).
Qed.

End SelfLoop.

(** X10.  [getSelfLoopFor] decides the precondition of [contractVertex].
    For a vertex of a linear graph, with the adjacency lists of the graph,
    it returns and leaves the graph as it is; when it returns an id, the edge
    under this id goes from the vertex to the vertex, and [contractVertex]
    fails an assertion; when it returns nothing, the vertex has no self-loop
    and [contractVertex] returns with the vertex contracted. *)
Theorem getSelfLoopFor_decides_contractVertex
    (g : ChcDirectedGraph.t) (sym : SymRef) :
  GraphSpec.wf g → GraphSpec.is_vertex g sym →
  ∃ r, getSelfLoopFor sym (ChcDirectedGraph.adjacencyFrom g) g = (inr r, g)
       ∧ match r with
         | Some eid =>
             (∃ e, ChcDirectedGraph.edges g !! eid = Some e
                   ∧ ChcDirectedGraph.from e = sym ∧ ChcDirectedGraph.to e = sym)
             ∧ ∃ g', ChcDirectedGraph.contractVertex sym g
                     = (inl assertion_failure, g')
         | None =>
             GraphSpec.no_self_loop g sym
             ∧ ∃ g', ChcDirectedGraph.contractVertex sym g = (inr tt, g')
                     ∧ GraphSpec.contracted sym g g'
         end.
Proof.
  intros Hwf Hv.
  assert (Hend := GraphContract.endpoints_vertex g sym Hwf Hv).
  unfold getSelfLoopFor.
  change (ChcDirectedGraph.adjacencyFrom g)
    with (foldl GraphSpec.adjStep {| incoming := ∅; outgoing := ∅ |}
            (ChcDirectedGraph.forEachEdge g)).
  unfold getOutgoingEdgesFor.
  rewrite GraphContract.adj_outgoing, decide_True by done.
  cbn [outgoing]. rewrite lookup_empty. cbn [default from_option app].
  unfold at_. rewrite st_bind_run. cbn [mret St_ret st_ret].
  set (outs := ChcDirectedGraph.id
                 <$> filter (λ e, ChcDirectedGraph.from e = sym)
                       (ChcDirectedGraph.forEachEdge g)).
  destruct (SelfLoop.find_if_target g sym outs) as (r & Hr & Hspec).
  { intros i Hi. apply (GraphContract.elem_of_outs g sym Hwf) in Hi as (e & He & _).
    eauto. }
  exists r. split; [done|]. destruct r as [i|].
  - destruct Hspec as (Hi & e & He & Ht).
    apply (GraphContract.elem_of_outs g sym Hwf) in Hi as (e' & He' & Hf).
    assert (e' = e) as -> by congruence.
    split; [by exists e|].
    exact (GraphContract.contractVertex_self_loop g sym Hwf i e He Hf Ht).
  - assert (Hloop : GraphSpec.no_self_loop g sym).
    { intros i e He [Hf Ht]. apply (Hspec i e); [|done..].
      apply (GraphContract.elem_of_outs g sym Hwf). eauto. }
    split; [done|].
    destruct (GraphContract.contractVertex_run g sym Hwf Hloop Hv)
      as (g' & Hrun & Hc & _).
    by exists g'.
Qed.

Lemma getSelfLoopFor_decides_contractVertex_witness :
  ∃ r, getSelfLoopFor 5 (ChcDirectedGraph.adjacencyFrom Examples.g_multi)
         Examples.g_multi = (inr r, Examples.g_multi)
       ∧ match r with
         | Some eid =>
             (∃ e, ChcDirectedGraph.edges Examples.g_multi !! eid = Some e
                   ∧ ChcDirectedGraph.from e = 5 ∧ ChcDirectedGraph.to e = 5)
             ∧ ∃ g', ChcDirectedGraph.contractVertex 5 Examples.g_multi
                     = (inl assertion_failure, g')
         | None =>
             GraphSpec.no_self_loop Examples.g_multi 5
             ∧ ∃ g', ChcDirectedGraph.contractVertex 5 Examples.g_multi = (inr tt, g')
                     ∧ GraphSpec.contracted 5 Examples.g_multi g'
         end.
Proof.
  apply (getSelfLoopFor_decides_contractVertex Examples.g_multi 5).
  - unfold GraphSpec.wf, wf_ids. compute_done.
  - unfold GraphSpec.is_vertex. compute_done.
Defined.



(** ** Normal graphs *)

Module Normal.
Import ChcDirectedHyperGraph HyperGraphSpec NormalSpec.

Lemma all_of_normal (h : t) (l : list (EId * DirectedHyperEdge)) :
  Forall (λ entry, from entry.2 ≠ []) l →
  all_of isNormal_body l h
  = (inr (bool_decide (Forall (λ entry, length (from entry.2) = 1) l)), h).
Proof.
  induction l as [|entry l IH]; intros Hl.
  - cbn [all_of]. by rewrite bool_decide_true.
  - apply Forall_cons in Hl as [Hne Hl]. cbn [all_of].
    rewrite st_bind_run. unfold isNormal_body at 1. cbn zeta. rewrite st_bind_run.
    rewrite bool_decide_false by done. cbn [negb assert mret St_ret st_ret].
    destruct (decide (length (from entry.2) = 1)) as [H1|H1].
    + rewrite bool_decide_true by done. cbn [mret St_ret st_ret]. rewrite IH by done.
      f_equal. f_equal. apply bool_decide_ext. rewrite Forall_cons. tauto.
    + rewrite bool_decide_false by done.
      rewrite (bool_decide_false (Forall _ (entry :: l))); [done|].
      rewrite Forall_cons. tauto.
Qed.

Lemma isNormalGraph_run h :
  nonempty_sources h →
  isNormalGraph h
  = (inr (bool_decide (map_Forall (λ _ e, length (from e) = 1) (edges h))), h).
Proof.
  intros Hne. unfold isNormalGraph. rewrite st_bind_run. cbn [get].
  change (all_of _ (map_to_list (edges h)) h)
    with (all_of isNormal_body (map_to_list (edges h)) h).
  rewrite all_of_normal.
  - f_equal. f_equal. apply bool_decide_ext.
    rewrite map_Forall_to_list. apply Forall_iff. by intros [i e].
  - apply map_Forall_to_list in Hne. eapply Forall_impl; [exact Hne|].
    by intros [i e].
Qed.

Lemma all_of_normal_true (h h' : t) (l : list (EId * DirectedHyperEdge)) :
  all_of isNormal_body l h = (inr true, h') →
  h' = h ∧ Forall (λ entry, length (from entry.2) = 1) l.
Proof.
  induction l as [|entry l IH].
  - cbn [all_of]. intros [= <-]. done.
  - cbn [all_of]. rewrite st_bind_run. unfold isNormal_body at 1. cbn zeta.
    rewrite st_bind_run.
    destruct (decide (from entry.2 = [])) as [Hnil|Hnil].
    { rewrite bool_decide_true by done. done. }
    rewrite bool_decide_false by done. cbn [negb assert mret St_ret st_ret].
    destruct (decide (length (from entry.2) = 1)) as [H1|H1].
    + rewrite bool_decide_true by done. intros H. apply IH in H as [-> H].
      split; [done|]. by apply Forall_cons.
    + rewrite bool_decide_false by done. done.
Qed.

Lemma isNormalGraph_true h h' :
  isNormalGraph h = (inr true, h') →
  h' = h ∧ map_Forall (λ _ e, length (from e) = 1) (edges h).
Proof.
  unfold isNormalGraph. rewrite st_bind_run. cbn [get].
  change (all_of _ (map_to_list (edges h)) h)
    with (all_of isNormal_body (map_to_list (edges h)) h).
  intros H. apply all_of_normal_true in H as [-> H]. split; [done|].
  apply map_Forall_to_list. eapply Forall_impl; [exact H|]. by intros [i e].
Qed.

Lemma single_nonempty h :
  map_Forall (λ _ e, length (from e) = 1) (edges h) → nonempty_sources h.
Proof.
  intros H i e Hi Hnil. specialize (H i e Hi). simpl in H. by rewrite Hnil in H.
Qed.

End Normal.

(** X11.  On a hypergraph whose edges all have a source, [isNormalGraph]
    returns, fails no assertion and leaves the graph as it is; it returns
    [true] exactly when every edge has exactly one source. *)
Theorem isNormalGraph_iff_one_source_each (h : ChcDirectedHyperGraph.t) :
  HyperGraphSpec.nonempty_sources h →
  ∃ b, ChcDirectedHyperGraph.isNormalGraph h = (inr b, h)
       ∧ (b = true
          ↔ map_Forall (λ _ e, length (ChcDirectedHyperGraph.from e) = 1)
              (ChcDirectedHyperGraph.edges h)).
Proof.
  intros Hne. eexists. split; [by apply Normal.isNormalGraph_run|].
  apply bool_decide_eq_true.
Qed.

Lemma isNormalGraph_iff_one_source_each_witness :
  ∃ b, ChcDirectedHyperGraph.isNormalGraph Examples.h_hyper_out
       = (inr b, Examples.h_hyper_out)
       ∧ (b = true
          ↔ map_Forall (λ _ e, length (ChcDirectedHyperGraph.from e) = 1)
              (ChcDirectedHyperGraph.edges Examples.h_hyper_out)).
Proof.
  apply (isNormalGraph_iff_one_source_each Examples.h_hyper_out).
  unfold HyperGraphSpec.nonempty_sources. compute_done.
Defined.

(** X12.  On a hypergraph that [isNormalGraph] accepts, [mergeMultiEdges]
    leaves no two distinct edges with the same sources and target, and the
    result is again accepted by [isNormalGraph]. *)
Theorem mergeMultiEdges_of_normal_graph (h : ChcDirectedHyperGraph.t) :
  HyperGraphSpec.wf h →
  ChcDirectedHyperGraph.isNormalGraph h = (inr true, h) →
  let h' := (ChcDirectedHyperGraph.mergeMultiEdges h).2 in
  HyperGraphSpec.no_multi_edges h'
  ∧ ChcDirectedHyperGraph.isNormalGraph h' = (inr true, h').
Proof.
  intros Hwf Hn h'. apply Normal.isNormalGraph_true in Hn as [_ Hn].
  assert (Hone : map_Forall (λ _ e, length (ChcDirectedHyperGraph.from e) = 1)
                   (ChcDirectedHyperGraph.edges h')).
  { intros i e' Hi. unfold h' in Hi.
    rewrite hyper_mergeMultiEdges_eq in Hi by done.
    cbn [ChcDirectedHyperGraph.edges ChcDirectedHyperGraph.set_edges] in Hi.
    apply lookup_merged_Some in Hi as (e & Hi & [->|[l ->]]);
      [exact (Hn i e Hi)|exact (Hn i e Hi)]. }
  split.
  - intros i j e1 e2 Hi Hj Hf Ht.
    assert (H1 := Hone i e1 Hi). assert (H2 := Hone j e2 Hj). simpl in H1, H2.
    unfold h' in Hi, Hj. rewrite hyper_mergeMultiEdges_eq in Hi, Hj by done.
    cbn [ChcDirectedHyperGraph.edges ChcDirectedHyperGraph.set_edges] in Hi, Hj.
    destruct (ChcDirectedHyperGraph.from e1) as [|s [|]] eqn:Hs1; [done| |done].
    eapply (merged_no_parallel HyperGraphSpec.key ChcDirectedHyperGraph.id
              ChcDirectedHyperGraph.fla ChcDirectedHyperGraph.set_fla);
      [done|exact Hwf|exact Hi|exact Hj|..].
    + unfold HyperGraphSpec.key. rewrite Hs1. reflexivity.
    + unfold HyperGraphSpec.key. rewrite <- Hf, Ht. reflexivity.
  - rewrite Normal.isNormalGraph_run by (by apply Normal.single_nonempty).
    by rewrite bool_decide_true.
Qed.

Lemma mergeMultiEdges_of_normal_graph_witness :
  let h' := (ChcDirectedHyperGraph.mergeMultiEdges Examples.h_multi).2 in
  HyperGraphSpec.no_multi_edges h'
  ∧ ChcDirectedHyperGraph.isNormalGraph h' = (inr true, h').
Proof.
  apply (mergeMultiEdges_of_normal_graph Examples.h_multi).
  - unfold HyperGraphSpec.wf, wf_ids. compute_done.
  - vm_compute. reflexivity.
Defined.

(** ** Equality of terms *)

Lemma PTRef_eqb_eq : ∀ t u, PTRef_eqb t u = true ↔ t = u.
Proof.
  intros t. pattern t. apply ReverseFacts.PTRef_ind'; clear t.
  - intros x v [y w|g us]; cbn [PTRef_eqb]; [|by split].
    rewrite andb_true_iff, !bool_decide_eq_true. split; [by intros [-> ->]|].
    by intros [= -> ->].
  - intros f ts IH [y w|g us]; cbn [PTRef_eqb]; [by split|].
    rewrite andb_true_iff, bool_decide_eq_true.
    assert (Hargs :
      (fix all2 (ts us : list PTRef) : bool :=
         match ts, us with
         | [], [] => true
         | t' :: ts', u' :: us' => PTRef_eqb t' u' && all2 ts' us'
         | _, _ => false
         end) ts us = true ↔ ts = us).
    { revert us. induction IH as [|t' ts' Ht' _ IHts]; intros [|u' us']; try by split.
      rewrite andb_true_iff, Ht', IHts. split; [by intros [-> ->]|].
      by intros [= -> ->]. }
    rewrite Hargs. split; [by intros [-> ->]|]. by intros [= -> ->].
Qed.

(** ** Edges labelled with falsehood *)

Lemma map_filter_twice `{Countable K} {A} (P : K * A → Prop)
    `{∀ x, Decision (P x)} (m : gmap K A) :
  filter P (filter P m) = filter P m.
Proof.
  apply map_eq. intros i. apply option_eq. intros x.
  rewrite !map_lookup_filter_Some. tauto.
Qed.

Lemma deleteFalseEdges_run (h : ChcDirectedHyperGraph.t) :
  ChcDirectedHyperGraph.deleteFalseEdges h
  = (inr tt,
     ChcDirectedHyperGraph.set_edges
       (filter (λ kv, PTRef_eqb (ChcDirectedHyperGraph.fla kv.2)
                        (getTerm_false (ChcDirectedHyperGraph.logic h)) = false)
               (ChcDirectedHyperGraph.edges h)) h).
Proof. reflexivity. Qed.

(** X13.  [deleteFalseEdges] returns; afterwards the graph holds exactly
    the edges it held whose label is not the constant of falsehood, under
    their ids; a second call changes nothing; the predicates and the logic
    are kept. *)
Theorem deleteFalseEdges_removes_false_edges
    (h : ChcDirectedHyperGraph.t) (i : EId)
    (e : ChcDirectedHyperGraph.DirectedHyperEdge) :
  ∃ h', ChcDirectedHyperGraph.deleteFalseEdges h = (inr tt, h')
        ∧ (ChcDirectedHyperGraph.edges h' !! i = Some e
           ↔ ChcDirectedHyperGraph.edges h !! i = Some e
             ∧ ChcDirectedHyperGraph.fla e
               ≠ getTerm_false (ChcDirectedHyperGraph.logic h))
        ∧ ChcDirectedHyperGraph.deleteFalseEdges h' = (inr tt, h')
        ∧ ChcDirectedHyperGraph.predicates h' = ChcDirectedHyperGraph.predicates h
        ∧ ChcDirectedHyperGraph.logic h' = ChcDirectedHyperGraph.logic h.
Proof.
  eexists. split; [apply deleteFalseEdges_run|].
  cbn [ChcDirectedHyperGraph.edges ChcDirectedHyperGraph.set_edges
       ChcDirectedHyperGraph.logic ChcDirectedHyperGraph.predicates].
  split; [|split; [|done]].
  - rewrite map_lookup_filter_Some. cbn [snd].
    rewrite <- not_true_iff_false, PTRef_eqb_eq. done.
  - rewrite deleteFalseEdges_run. unfold ChcDirectedHyperGraph.set_edges.
    cbn [ChcDirectedHyperGraph.edges ChcDirectedHyperGraph.logic
         ChcDirectedHyperGraph.predicates].
    by rewrite map_filter_twice.
Qed.

Module InstancesFacts.
Import ChcDirectedHyperGraph InstancesSpec.

Lemma length_instances srcs : length (instances srcs) = length srcs.
Proof. unfold instances. by rewrite length_imap. Qed.

Lemma lookup_instances srcs k s :
  srcs !! k = Some s →
  instances srcs !! k = Some (N.of_nat (earlier srcs k s) mod 2 ^ 32)%N.
Proof. intros H. unfold instances. by rewrite list_lookup_imap, H. Qed.

Lemma earlier_S srcs k s x :
  srcs !! k = Some x →
  earlier srcs (S k) s = earlier srcs k s + (if decide (x = s) then 1 else 0).
Proof.
  intros H. unfold earlier. rewrite (take_S_r _ _ _ H), filter_app, length_app.
  f_equal. destruct (decide (x = s)).
  - by rewrite filter_cons_True.
  - by rewrite filter_cons_False.
Qed.

Lemma slots_fold i srcs v0 (ic0 : gmap EId (list N)) : ∀ k,
  k ≤ length srcs → ic0 !! i = Some v0 → length v0 = length srcs →
  let r := foldl (slot i srcs) (ic0, ∅) (seq 0 k) in
  r.1 = <[i := take k (instances srcs) ++ drop k v0]> ic0
  ∧ ∀ s, default 0%N (r.2 !! s) = (N.of_nat (earlier srcs k s) mod 2 ^ 32)%N.
Proof.
  induction k as [|k IH]; intros Hk Hi Hlen.
  - cbn [seq foldl take drop app fst snd]. split.
    + by rewrite insert_id.
    + intros s. by rewrite lookup_empty.
  - rewrite seq_S, foldl_app. cbn [foldl Nat.add].
    destruct IH as [IH1 IH2]; [lia|done|done|].
    destruct (foldl (slot i srcs) (ic0, ∅) (seq 0 k)) as [ic ec].
    cbn [fst snd] in IH1, IH2.
    destruct (lookup_lt_is_Some_2 srcs k) as [x Hx]; [lia|].
    unfold slot. rewrite Hx. cbn zeta. cbn [fst snd]. split.
    + rewrite IH1. rewrite alter_insert_eq. f_equal.
      assert (Hlt : length (take k (instances srcs)) = k).
      { rewrite length_take, length_instances. lia. }
      rewrite insert_app_r_alt by lia. rewrite Hlt, Nat.sub_diag.
      destruct (lookup_lt_is_Some_2 v0 k) as [y Hy]; [lia|].
      rewrite (drop_S _ _ _ Hy). cbn [insert list_insert].
      rewrite (take_S_r _ _ _ (lookup_instances _ _ _ Hx)).
      rewrite <- app_assoc. cbn [app]. by rewrite IH2.
    + intros s. rewrite (earlier_S _ _ _ _ Hx).
      destruct (decide (x = s)) as [->|Hne].
      * rewrite lookup_insert_eq. cbn [default from_option Datatypes.id].
        rewrite IH2. rewrite Nat2N.inj_add.
        change (N.of_nat 1) with 1%N.
        rewrite N.Div0.add_mod_idemp_l. done.
      * rewrite lookup_insert_ne by done. rewrite IH2. by rewrite Nat.add_0_r.
Qed.

Lemma length_resize {A} n (d : A) l : length (resize n d l) = n.
Proof. unfold resize. rewrite length_app, length_take, length_replicate. lia. Qed.

Lemma edge_step (ic : gmap EId (list N)) e :
  (foldl (slot (id e) (from e))
         (<[id e := resize (length (from e)) 0%N (default [] (ic !! id e))]> ic, ∅)
         (seq 0 (length (from e)))).1
  = <[id e := instances (from e)]> ic.
Proof.
  destruct (slots_fold (id e) (from e)
              (resize (length (from e)) 0%N (default [] (ic !! id e)))
              (<[id e := resize (length (from e)) 0%N (default [] (ic !! id e))]> ic)
              (length (from e))) as [H _].
  - done.
  - apply lookup_insert_eq.
  - apply length_resize.
  - cbn zeta in H. rewrite H. rewrite insert_insert_eq.
    rewrite take_ge by (by rewrite length_instances).
    rewrite drop_ge by (by rewrite length_resize).
    by rewrite app_nil_r.
Qed.

Lemma foldl_fun_ext {A B} (f g : A → B → A) (l : list B) :
  (∀ a b, f a b = g a b) → ∀ a, foldl f a l = foldl g a l.
Proof.
  intros Hfg. induction l as [|b l IH]; intros a; [done|].
  cbn [foldl]. by rewrite Hfg, IH.
Qed.

Lemma edges_fold (l : list DirectedHyperEdge) : ∀ (ic : gmap EId (list N)) i,
  foldl (λ ic e, <[id e := instances (from e)]> ic) ic l !! i
  = match last (filter (λ e, id e = i) l) with
    | Some e => Some (instances (from e))
    | None => ic !! i
    end.
Proof.
  induction l as [|e l IH] using rev_ind; intros ic i; [done|].
  rewrite foldl_snoc, filter_app.
  destruct (decide (id e = i)) as [Hi|Hi].
  - rewrite filter_cons_True by done. rewrite filter_nil, last_snoc.
    by rewrite Hi, lookup_insert_eq.
  - rewrite filter_cons_False by done. rewrite filter_nil, app_nil_r.
    rewrite lookup_insert_ne by done. apply IH.
Qed.

(** With fewer than [2^32] sources the loop over the slots ends, after one
    round for each slot. *)
Lemma slots_run (e : DirectedHyperEdge) : ∀ fuel k ic ec,
  (N.of_nat (length (from e)) < 2 ^ 32)%N →
  k ≤ length (from e) → length (from e) - k < fuel →
  VertexInstances.slots fuel e (N.of_nat k) ic ec
  = Some (foldl (slot (id e) (from e)) (ic, ec) (seq k (length (from e) - k))).1.
Proof.
  induction fuel as [|fuel IH]; intros k ic ec Hsmall Hk Hfuel; [lia|].
  cbn [VertexInstances.slots]. cbn zeta.
  destruct (decide (k = length (from e))) as [->|Hne].
  - rewrite bool_decide_false by lia. by rewrite Nat.sub_diag.
  - rewrite bool_decide_true by lia. rewrite Nat2N.id.
    destruct (lookup_lt_is_Some_2 (from e) k) as [x Hx]; [lia|].
    rewrite Hx.
    replace ((N.of_nat k + 1) mod 2 ^ 32)%N with (N.of_nat (S k)).
    2:{ rewrite N.mod_small by lia. lia. }
    rewrite IH by lia.
    replace (length (from e) - k) with (S (length (from e) - S k)) by lia.
    cbn [seq foldl]. unfold slot at 3. by rewrite Hx.
Qed.

(** With [2^32] sources or more it does not end, whatever the fuel. *)
Lemma slots_no_end (e : DirectedHyperEdge) : ∀ fuel sourceIndex ic ec,
  (2 ^ 32 ≤ N.of_nat (length (from e)))%N → (sourceIndex < 2 ^ 32)%N →
  VertexInstances.slots fuel e sourceIndex ic ec = None.
Proof.
  induction fuel as [|fuel IH]; intros k ic ec Hbig Hk; [done|].
  cbn [VertexInstances.slots]. cbn zeta.
  rewrite bool_decide_true by lia.
  destruct (from e !! N.to_nat k); [|done].
  apply IH; [done|]. by apply N.mod_lt.
Qed.

Lemma make_run fuel h :
  map_Forall (λ _ e, (N.of_nat (length (from e)) < 2 ^ 32)%N) (edges h) →
  map_Forall (λ _ e, length (from e) < fuel) (edges h) →
  VertexInstances.make fuel h
  = Some {| VertexInstances.instanceCounter :=
              foldl (λ ic e, <[id e := instances (from e)]> ic) ∅ (forEachEdge h) |}.
Proof.
  intros Hsmall Hfuel. unfold VertexInstances.make.
  assert (Hall : Forall (λ e, (N.of_nat (length (from e)) < 2 ^ 32)%N
                              ∧ length (from e) < fuel) (forEachEdge h)).
  { apply Forall_forall. intros e He. unfold forEachEdge in He.
    apply list_elem_of_fmap in He as ([i e'] & -> & Hie).
    apply elem_of_map_to_list in Hie. split; [exact (Hsmall i e' Hie)|].
    exact (Hfuel i e' Hie). }
  revert Hall. generalize (forEachEdge h). intros l Hall.
  assert (Hgen : ∀ ic0 : gmap EId (list N),
            foldl (λ (done : option (gmap EId (list N))) edge,
                     done ≫= λ instanceCounter,
                       VertexInstances.slots fuel edge 0%N
                         (<[id edge := resize (length (from edge)) 0%N
                                         (default [] (instanceCounter !! id edge))]>
                            instanceCounter) ∅)
                  (Some ic0) l
            = Some (foldl (λ ic e, <[id e := instances (from e)]> ic) ic0 l)).
  { induction Hall as [|e l [He1 He2] _ IH]; intros ic0; [done|].
    cbn [foldl]. cbn [mbind option_bind].
    rewrite (slots_run e fuel 0) by (done || lia).
    rewrite Nat.sub_0_r, edge_step. apply IH. }
  rewrite Hgen. done.
Qed.

Lemma make_no_end fuel h i e :
  edges h !! i = Some e → (2 ^ 32 ≤ N.of_nat (length (from e)))%N →
  VertexInstances.make fuel h = None.
Proof.
  intros Hi Hbig. unfold VertexInstances.make.
  assert (Hin : e ∈ forEachEdge h).
  { unfold forEachEdge. apply list_elem_of_fmap. exists (i, e). split; [done|].
    by apply elem_of_map_to_list. }
  revert Hin. generalize (forEachEdge h). intros l Hin.
  assert (Hnone : ∀ l : list DirectedHyperEdge,
            foldl (λ (done : option (gmap EId (list N))) edge,
                     done ≫= λ instanceCounter,
                       VertexInstances.slots fuel edge 0%N
                         (<[id edge := resize (length (from edge)) 0%N
                                         (default [] (instanceCounter !! id edge))]>
                            instanceCounter) ∅)
                  None l = None).
  { intros l'. induction l' as [|e' l' IH]; [done|]. cbn [foldl]. exact IH. }
  assert (Hgen : ∀ o,
            foldl (λ (done : option (gmap EId (list N))) edge,
                     done ≫= λ instanceCounter,
                       VertexInstances.slots fuel edge 0%N
                         (<[id edge := resize (length (from edge)) 0%N
                                         (default [] (instanceCounter !! id edge))]>
                            instanceCounter) ∅)
                  o l = None).
  { induction l as [|e' l IH]; intros o; [by apply elem_of_nil in Hin|].
    cbn [foldl]. apply elem_of_cons in Hin as [<-|Hin]; [|by apply IH].
    destruct o as [ic|]; cbn [mbind option_bind]; [|apply Hnone].
    rewrite slots_no_end by (done || lia). apply Hnone. }
  rewrite Hgen. done.
Qed.

Lemma instanceCounter_lookup fuel h i :
  HyperGraphSpec.wf h →
  map_Forall (λ _ e, (N.of_nat (length (from e)) < 2 ^ 32)%N) (edges h) →
  map_Forall (λ _ e, length (from e) < fuel) (edges h) →
  ∃ vi, VertexInstances.make fuel h = Some vi
        ∧ VertexInstances.instanceCounter vi !! i
          = (λ e, instances (from e)) <$> edges h !! i.
Proof.
  intros Hwf Hsmall Hfuel. eexists. split; [by apply make_run|].
  cbn [VertexInstances.instanceCounter].
  rewrite edges_fold, lookup_empty.
  destruct (last (filter (λ e, id e = i) (forEachEdge h))) as [e|] eqn:Hl.
  - apply last_Some_elem_of, list_elem_of_filter in Hl as [Hid He].
    apply (lookup_of_forEach id) in He; [|done]. rewrite Hid in He.
    by rewrite He.
  - apply last_None in Hl.
    destruct (edges h !! i) as [e|] eqn:He; [|done]. exfalso.
    assert (Hin : e ∈ filter (λ e, id e = i) (forEachEdge h)).
    { apply list_elem_of_filter. split; [by apply Hwf|].
      unfold forEachEdge. apply list_elem_of_fmap. exists (i, e). split; [done|].
      by apply elem_of_map_to_list. }
    rewrite Hl in Hin. by apply elem_of_nil in Hin.
Qed.

Lemma earlier_lt srcs j k s :
  j < k → srcs !! j = Some s → earlier srcs j s < earlier srcs k s.
Proof.
  intros Hjk Hj. induction Hjk as [|k Hjk IH].
  - rewrite (earlier_S _ _ _ _ Hj). rewrite decide_True by done. lia.
  - destruct (srcs !! k) as [x|] eqn:Hk.
    + rewrite (earlier_S _ _ _ _ Hk). lia.
    + unfold earlier in *. apply lookup_ge_None in Hk.
      rewrite (take_ge srcs (S k)) by lia. rewrite (take_ge srcs k) in IH by lia.
      done.
Qed.

End InstancesFacts.

(** X14.  [VertexInstances] numbers the slots of the sources of an edge.
    On a hypergraph in which every edge has fewer than [2^32] sources the
    constructor returns, with fuel above the number of sources of every
    edge.  The entry of the id of an edge then has one number for each slot,
    and the number of a slot is the number of earlier slots of the edge that
    hold the same symbol; so two slots with the same symbol have different
    numbers. *)
Theorem VertexInstances_number_repeated_sources
    (fuel : nat) (h : ChcDirectedHyperGraph.t) (i : EId)
    (e : ChcDirectedHyperGraph.DirectedHyperEdge) (j k : nat) (s : SymRef) :
  HyperGraphSpec.wf h →
  map_Forall (λ _ e, (N.of_nat (length (ChcDirectedHyperGraph.from e)) < 2 ^ 32)%N)
    (ChcDirectedHyperGraph.edges h) →
  map_Forall (λ _ e, length (ChcDirectedHyperGraph.from e) < fuel)
    (ChcDirectedHyperGraph.edges h) →
  ChcDirectedHyperGraph.edges h !! i = Some e →
  j < k →
  ChcDirectedHyperGraph.from e !! j = Some s →
  ChcDirectedHyperGraph.from e !! k = Some s →
  ∃ vi v,
    ChcDirectedHyperGraph.VertexInstances.make fuel h = Some vi
    ∧ ChcDirectedHyperGraph.VertexInstances.instanceCounter vi !! i = Some v
    ∧ length v = length (ChcDirectedHyperGraph.from e)
    ∧ v !! j = Some (N.of_nat (InstancesSpec.earlier
                                 (ChcDirectedHyperGraph.from e) j s))
    ∧ v !! k = Some (N.of_nat (InstancesSpec.earlier
                                 (ChcDirectedHyperGraph.from e) k s))
    ∧ v !! j ≠ v !! k.
Proof.
  intros Hwf Hsmall Hfuel Hi Hjk Hj Hk.
  destruct (InstancesFacts.instanceCounter_lookup fuel h i Hwf Hsmall Hfuel)
    as (vi & Hrun & Hlook).
  exists vi, (InstancesSpec.instances (ChcDirectedHyperGraph.from e)).
  split; [exact Hrun|]. rewrite Hlook, Hi.
  split; [done|]. split; [apply InstancesFacts.length_instances|].
  assert (Hlen := Hsmall i e Hi). cbn beta in Hlen.
  assert (Hsmall' : ∀ n, n < length (ChcDirectedHyperGraph.from e) →
            (N.of_nat (InstancesSpec.earlier (ChcDirectedHyperGraph.from e) n s)
               mod 2 ^ 32)%N
            = N.of_nat (InstancesSpec.earlier (ChcDirectedHyperGraph.from e) n s)).
  { intros n Hn. apply N.mod_small.
    assert (Hle : InstancesSpec.earlier (ChcDirectedHyperGraph.from e) n s ≤ n).
    { unfold InstancesSpec.earlier. etrans; [apply length_filter|].
      rewrite length_take. lia. }
    lia. }
  rewrite (InstancesFacts.lookup_instances _ _ _ Hj),
    (InstancesFacts.lookup_instances _ _ _ Hk).
  rewrite !Hsmall' by (eapply lookup_lt_Some; eauto).
  split; [done|]. split; [done|]. intros [= Heq].
  apply Nat2N.inj in Heq.
  pose proof (InstancesFacts.earlier_lt _ _ _ _ Hjk Hj). lia.
Qed.

Lemma VertexInstances_number_repeated_sources_witness :
  ∃ vi v,
    ChcDirectedHyperGraph.VertexInstances.make 4 Examples.h_repeated = Some vi
    ∧ ChcDirectedHyperGraph.VertexInstances.instanceCounter vi !! 0 = Some v
    ∧ length v = 3
    ∧ v !! 0 = Some 0%N
    ∧ v !! 2 = Some 1%N
    ∧ v !! 0 ≠ v !! 2.
Proof.
  apply (VertexInstances_number_repeated_sources 4 Examples.h_repeated 0
           (Examples.hedge [5; 6; 5] 7 (App 50 []) 0) 0 2 5).
  - unfold HyperGraphSpec.wf, wf_ids. compute_done.
  - compute_done.
  - compute_done.
  - reflexivity.
  - lia.
  - reflexivity.
  - reflexivity.
Defined.

Module DFSFacts.
Import DFS ChcDirectedGraph GraphSpec DFSSpec.

Lemma rec_bind_run {S A B} (m : DFS.Rec S A) (k : A → DFS.Rec S B) (s : S) :
  (m ≫= k) s =
    match m s with
    | None => None
    | Some (inl e, s') => Some (inl e, s')
    | Some (inr a, s') => k a s'
    end.
Proof. reflexivity. Qed.

Lemma for_each_rec_inv {S A} (I : list A → S → Prop) (l : list A)
    (body : A → DFS.Rec S unit) (s : S) :
  I [] s →
  (∀ done a rest s, l = done ++ a :: rest → I done s →
     ∃ s', body a s = Some (inr tt, s') ∧ I (done ++ [a]) s') →
  ∃ s', DFS.for_each_rec l body s = Some (inr tt, s') ∧ I l s'.
Proof.
  intros H0 Hstep.
  assert (Hgen : ∀ rest done s, l = done ++ rest → I done s →
            ∃ s', DFS.for_each_rec rest body s = Some (inr tt, s') ∧ I l s').
  { induction rest as [|a rest IH]; intros done s0 Hl HI.
    - exists s0. rewrite app_nil_r in Hl. subst. done.
    - destruct (Hstep done a rest s0 Hl HI) as (s1 & Hb & HI1).
      destruct (IH (done ++ [a]) s1) as (s2 & Hf & HI2); [by rewrite <- app_assoc|done|].
      exists s2. split; [|done]. cbn [DFS.for_each_rec]. rewrite rec_bind_run, Hb. done. }
  by apply (Hgen l []).
Qed.

Lemma edge_vertices g u w :
  wf_ids id (edges g) → edge g u w → u ∈ vertices g ∧ w ∈ vertices g.
Proof.
  intros Hwf (i & e & Hi & Hf & Ht). simpl in *.
  assert (He : e ∈ forEachEdge g).
  { apply (GraphContract.elem_of_forEachEdge g Hwf). by rewrite (Hwf _ _ Hi). }
  unfold vertices. rewrite !elem_of_list_to_set.
  clear -He Hf Ht. induction He as [e l|e e' l He IH];
    rewrite !GraphContract.elem_of_endpoints_cons; tauto.
Qed.

Lemma outgoing_vertex g v :
  wf_ids id (edges g) → v ∈ vertices g →
  ∃ outs, outgoing (adjacencyFrom g) !! v = Some outs
          ∧ ∀ o, o ∈ outs ↔ ∃ e, edges g !! o = Some e ∧ from e = v.
Proof.
  intros Hwf Hv. unfold vertices in Hv. rewrite elem_of_list_to_set in Hv.
  eexists. split.
  - change (adjacencyFrom g)
      with (foldl adjStep {| incoming := ∅; outgoing := ∅ |} (forEachEdge g)).
    rewrite GraphContract.adj_outgoing, decide_True by done.
    cbn [outgoing]. rewrite lookup_empty. reflexivity.
  - intros o. cbn [default from_option app].
    apply (GraphContract.elem_of_outs g v Hwf).
Qed.

Lemma size_unmarked (V M M' : gset SymRef) v d :
  v ∈ V → v ∉ M → size (V ∖ M) < S d → {[ v ]} ∪ M ⊆ M' →
  size (V ∖ M') < d.
Proof.
  intros Hv Hm Hs Hsub.
  assert (H0 : ({[ v ]} : gset SymRef) ⊆ V ∖ M).
  { intros x ->%elem_of_singleton. by apply elem_of_difference. }
  assert (H1 : V ∖ M' ⊆ (V ∖ M) ∖ {[ v ]}).
  { intros x [Hx HxM]%elem_of_difference. apply elem_of_difference. split.
    - apply elem_of_difference. split; [done|]. intros HM. apply HxM, Hsub.
      apply elem_of_union. by right.
    - intros Hxv. apply HxM, Hsub. apply elem_of_union. by left. }
  apply subseteq_size in H1.
  rewrite (size_difference (V ∖ M) {[ v ]} H0) in H1.
  apply subseteq_size in H0. rewrite size_singleton in H0, H1. lia.
Qed.

Lemma runOnVertex_spec g root depth :
  wf_ids id (edges g) →
  ∀ v G s,
  v ∈ vertices g → searching g root G s →
  (∀ x, x ∈ G → reach g x v) → reach g root v →
  size (vertices g ∖ DFS.marked s) < depth →
  ∃ s', DFS.runOnVertex g (adjacencyFrom g) depth v preorder postorder s
        = Some (inr tt, s')
        ∧ searching g root G s' ∧ DFS.marked s ⊆ DFS.marked s' ∧ v ∈ DFS.marked s'
        ∧ ∃ new, DFS.captured s' = DFS.captured s ++ new
                 ∧ (v ∉ DFS.marked s → last new = Some v).
Proof.
  intros Hwf.
  induction depth as [|d IH]; intros v G s Hv Hs HG Hroot Hsize; [lia|].
  cbn [DFS.runOnVertex]. rewrite rec_bind_run. cbn [DFS.isMarked].
  destruct (decide (v ∈ DFS.marked s)) as [Hm|Hm].
  { rewrite bool_decide_true by done. exists s. split; [done|].
    split; [done|]. split; [done|]. split; [done|]. exists [].
    by rewrite app_nil_r. }
  rewrite bool_decide_false by done.
  rewrite rec_bind_run. cbn [DFS.mark]. rewrite rec_bind_run. cbn [DFS.act].
  cbn [DFS.marked DFS.captured].
  change (preorder v (DFS.captured s)) with (DFS.captured s).
  destruct (outgoing_vertex g v Hwf Hv) as (outs & Houts & Hin).
  rewrite rec_bind_run. unfold DFS.read at 1, getOutgoingEdgesFor.
  rewrite Houts. cbn [at_ mret St_ret st_ret fst].
  destruct Hs as (HsV & HsM & HsG & Hnd & Hcl & Htop & Hsound).
  set (s1 := {| DFS.marked := {[ v ]} ∪ DFS.marked s; DFS.captured := DFS.captured s |}).
  set (G1 := {[ v ]} ∪ G).
  assert (HvO : v ∉ DFS.captured s).
  { intros HO. apply Hm. rewrite HsM. apply elem_of_union. right.
    by apply elem_of_list_to_set. }
  assert (HvG : v ∉ G).
  { intros HO. apply Hm. rewrite HsM. apply elem_of_union. by left. }
  assert (Hs1 : searching g root G1 s1).
  { unfold DFSSpec.searching, s1, G1. cbn [DFS.marked DFS.captured].
    split; [apply union_subseteq; split; [by apply singleton_subseteq_l|done]|].
    split; [by rewrite HsM, (assoc_L (∪))|].
    split.
    { apply disjoint_union_l. split; [|done].
      apply disjoint_singleton_l. by rewrite elem_of_list_to_set. }
    split; [done|].
    split; [intros u w Hu He; apply elem_of_union; right; by apply (Hcl u)|].
    split; [done|].
    intros x [->%elem_of_singleton|Hx]%elem_of_union; [done|by apply Hsound]. }
  rewrite rec_bind_run.
  destruct (for_each_rec_inv
              (λ done s', searching g root G1 s' ∧ DFS.marked s1 ⊆ DFS.marked s'
                          ∧ (∀ o e, o ∈ done → edges g !! o = Some e →
                               to e ∈ DFS.marked s')
                          ∧ ∃ new, DFS.captured s' = DFS.captured s ++ new)
              outs
              (λ outEdge, tgt ← DFS.read g (getTarget outEdge);
                          DFS.runOnVertex g (adjacencyFrom g) d tgt preorder postorder) s1)
    as (s2 & Hloop & Hs2 & Hsub2 & Htg & new2 & Hnew2).
  { split; [done|]. split; [done|]. split.
    - intros o e Ho. by apply elem_of_nil in Ho.
    - exists []. by rewrite app_nil_r. }
  { intros done o rest c Hl (Hc & Hsubc & Hdone & newc & Hnewc).
    assert (Ho : o ∈ outs).
    { rewrite Hl. apply elem_of_app. right. by left. }
    apply Hin in Ho as (e & Ho & Hf).
    rewrite rec_bind_run. unfold DFS.read at 1.
    rewrite (SelfLoop.getTarget_run _ _ _ Ho). cbn [fst].
    assert (Hedge : edge g v (to e)) by (by exists o, e).
    destruct (IH (to e) G1 c) as (c' & Hrun & Hc' & Hsubc' & Htoc' & newc' & Hnewc' & _).
    - by apply edge_vertices in Hedge as [_ ?].
    - done.
    - intros x [->%elem_of_singleton|Hx]%elem_of_union.
      + by apply rtc_once.
      + eapply rtc_r; [by apply HG|done].
    - eapply rtc_r; [exact Hroot|done].
    - by apply (size_unmarked (vertices g) (DFS.marked s) (DFS.marked c) v d).
    - exists c'. split; [exact Hrun|]. split; [done|]. split; [by etrans|]. split.
      + intros o' e' Ho' He'. apply elem_of_app in Ho' as [Ho'|Ho'].
        * apply Hsubc'. by apply (Hdone o').
        * apply list_elem_of_singleton in Ho' as ->. congruence.
      + exists (newc ++ newc'). by rewrite Hnewc', Hnewc, app_assoc. }
  rewrite Hloop. cbn [DFS.act].
  change (postorder v (DFS.captured s2)) with (DFS.captured s2 ++ [v]).
  destruct Hs2 as (H2V & H2M & H2G & H2nd & H2cl & H2top & H2sound).
  assert (Hsucc : ∀ w, edge g v w → w ∈ DFS.marked s2).
  { intros w (o & e & Ho & Hf & Ht). simpl in *. subst w.
    apply (Htg o e); [|done]. apply Hin. by exists e. }
  assert (HvO2 : v ∉ DFS.captured s2).
  { intros HO. apply (H2G v); [|by apply elem_of_list_to_set].
    apply elem_of_union. left. by apply elem_of_singleton. }
  assert (Hv2 : v ∈ DFS.marked s2).
  { apply Hsub2. unfold s1. cbn [DFS.marked]. apply elem_of_union. left.
    by apply elem_of_singleton. }
  assert (Hss2 : DFS.marked s ⊆ DFS.marked s2).
  { intros y Hy. apply Hsub2. unfold s1. cbn [DFS.marked]. apply elem_of_union.
    by right. }
  eexists. split; [reflexivity|]. cbn [DFS.marked DFS.captured].
  unfold postorder.
  split; [|split; [done|split; [done|]]].
  - unfold DFSSpec.searching. cbn [DFS.marked DFS.captured].
    split; [done|]. split.
    { rewrite H2M. unfold G1. apply set_eq. intros y.
      rewrite !elem_of_union, !elem_of_list_to_set, elem_of_app,
        list_elem_of_singleton, elem_of_singleton. tauto. }
    split.
    { intros y Hy1 Hy2. apply elem_of_list_to_set, elem_of_app in Hy2 as [Hy2|Hy2].
      - apply (H2G y); [|by apply elem_of_list_to_set].
        apply elem_of_union. by right.
      - apply list_elem_of_singleton in Hy2. subst y. done. }
    split.
    { apply NoDup_app. split; [done|]. split; [|apply NoDup_singleton].
      intros x Hx ->%list_elem_of_singleton. done. }
    split.
    { intros u w [Hu| ->%list_elem_of_singleton]%elem_of_app He.
      - by apply (H2cl u).
      - by apply Hsucc. }
    split; [|done].
    intros k u w Hk He.
    destruct (decide (k < length (DFS.captured s2))) as [Hlt|Hge].
    + rewrite lookup_app_l in Hk by done.
      destruct (H2top k u w Hk He) as [(j & Hj & Hjw)|Hr]; [left|by right].
      exists j. split; [done|]. rewrite lookup_app_l by lia. done.
    + rewrite lookup_app_r in Hk by lia.
      apply list_lookup_singleton_Some in Hk as [Hk0 ->].
      specialize (Hsucc w He). rewrite H2M in Hsucc.
      apply elem_of_union in Hsucc as [Hw|Hw].
      * right. unfold G1 in Hw.
        apply elem_of_union in Hw as [->%elem_of_singleton|Hw]; [done|by apply HG].
      * left. apply elem_of_list_to_set, list_elem_of_lookup in Hw as [j Hj].
        exists j. split; [apply lookup_lt_Some in Hj; lia|].
        by rewrite lookup_app_l by (by eapply lookup_lt_Some).
  - exists (new2 ++ [v]). split; [by rewrite Hnew2, app_assoc|].
    intros _. by rewrite last_snoc.
Qed.


Lemma size_list_to_set_le (l : list SymRef) :
  size (list_to_set l : gset SymRef) ≤ length l.
Proof.
  induction l as [|a l IH]; [by rewrite list_to_set_nil, size_empty|].
  rewrite list_to_set_cons. cbn [length].
  destruct (decide (a ∈ (list_to_set l : gset SymRef))) as [Ha|Ha].
  - rewrite (subseteq_union_1_L {[ a ]} (list_to_set l)); [lia|].
    by intros x ->%elem_of_singleton.
  - rewrite size_union by (intros x ->%elem_of_singleton; done).
    rewrite size_singleton. lia.
Qed.

Lemma length_endpoints l : length (endpoints l) = 2 * length l.
Proof.
  unfold endpoints. induction l as [|e l IH]; [done|].
  rewrite bind_cons, length_app, IH. cbn [length]. lia.
Qed.

Lemma size_vertices g : size (vertices g) ≤ 2 * size (edges g).
Proof.
  unfold vertices. etrans; [apply size_list_to_set_le|].
  rewrite length_endpoints. unfold forEachEdge.
  by rewrite length_fmap, length_map_to_list.
Qed.

(** The search from the entry. *)
Lemma run_entry g depth :
  wf_ids id (edges g) → is_vertex g (getEntry g) →
  2 * size (edges g) < depth →
  ∃ s, DFS.run g (adjacencyFrom g) depth preorder postorder
         {| DFS.marked := ∅; DFS.captured := [] |} = Some (inr tt, s)
       ∧ searching g (getEntry g) ∅ s
       ∧ getEntry g ∈ DFS.marked s
       ∧ last (DFS.captured s) = Some (getEntry g).
Proof.
  intros Hwf Hv Hd.
  destruct (runOnVertex_spec g (getEntry g) depth Hwf (getEntry g) ∅
              {| DFS.marked := ∅; DFS.captured := [] |})
    as (s & Hrun & Hs & _ & He & new & Hnew & Hlast).
  - unfold vertices. apply elem_of_list_to_set.
    by apply GraphContract.endpoints_vertex.
  - unfold DFSSpec.searching. cbn [DFS.marked DFS.captured].
    split; [apply empty_subseteq|]. split; [by rewrite list_to_set_nil, union_empty_l_L|].
    split; [apply disjoint_empty_l|]. split; [apply NoDup_nil_2|].
    split; [intros u w Hu; by apply elem_of_nil in Hu|].
    split; [intros k u w Hk; done|]. intros x Hx. by apply elem_of_empty in Hx.
  - intros x Hx. by apply elem_of_empty in Hx.
  - apply rtc_refl.
  - cbn [DFS.marked]. rewrite difference_empty_L.
    pose proof (size_vertices g). lia.
  - exists s. split; [exact Hrun|]. split; [done|]. split; [done|].
    cbn [DFS.captured app] in Hnew. rewrite Hnew. apply Hlast.
    cbn [DFS.marked]. apply not_elem_of_empty.
Qed.

Lemma searching_reach g s x :
  wf_ids id (edges g) →
  searching g (getEntry g) ∅ s → getEntry g ∈ DFS.marked s →
  x ∈ DFS.captured s ↔ reach g (getEntry g) x.
Proof.
  intros Hwf (HV & HM & HG & Hnd & Hcl & Htop & Hsound) He.
  rewrite union_empty_l_L in HM.
  assert (Hin : ∀ y, y ∈ DFS.captured s ↔ y ∈ DFS.marked s).
  { intros y. rewrite HM. by rewrite elem_of_list_to_set. }
  split; [rewrite Hin; apply Hsound|]. rewrite Hin.
  revert x. apply rtc_ind_r; [done|].
  intros b c _ Hbc IH. apply (Hcl b); [|done]. by apply Hin.
Qed.

End DFSFacts.

(** X15.  [postOrder] of a linear graph whose entry is the source or the
    target of some edge, with the adjacency lists of the graph: given a
    recursion depth above twice the number of edges, the search returns, no
    lookup fails, and the order lists, each once, exactly the vertices
    reached from the entry along edges; the entry comes last. *)
Theorem postOrder_lists_reachable_vertices
    (g : ChcDirectedGraph.t) (depth : nat) (x : SymRef) :
  GraphSpec.wf g → GraphSpec.is_vertex g (ChcDirectedGraph.getEntry g) →
  2 * size (ChcDirectedGraph.edges g) < depth →
  ∃ order, postOrder depth g (ChcDirectedGraph.adjacencyFrom g) = Some (inr order)
           ∧ NoDup order
           ∧ last order = Some (ChcDirectedGraph.getEntry g)
           ∧ (x ∈ order ↔ DFSSpec.reach g (ChcDirectedGraph.getEntry g) x).
Proof.
  intros Hwf Hv Hd.
  destruct (DFSFacts.run_entry g depth Hwf Hv Hd) as (s & Hrun & Hs & He & Hlast).
  exists (DFS.captured s). split.
  { unfold postOrder.
    change (DFS.run g (ChcDirectedGraph.adjacencyFrom g) depth _ _ _)
      with (DFS.run g (ChcDirectedGraph.adjacencyFrom g) depth
              DFSSpec.preorder DFSSpec.postorder
              {| DFS.marked := ∅; DFS.captured := [] |}).
    by rewrite Hrun. }
  split; [apply Hs|]. split; [done|]. by apply DFSFacts.searching_reach.
Qed.

Lemma postOrder_lists_reachable_vertices_witness :
  ∃ order, postOrder 7 Examples.g_multi
             (ChcDirectedGraph.adjacencyFrom Examples.g_multi) = Some (inr order)
           ∧ NoDup order
           ∧ last order = Some (ChcDirectedGraph.getEntry Examples.g_multi)
           ∧ (7 ∈ order
              ↔ DFSSpec.reach Examples.g_multi
                  (ChcDirectedGraph.getEntry Examples.g_multi) 7).
Proof.
  apply (postOrder_lists_reachable_vertices Examples.g_multi 7 7).
  - unfold GraphSpec.wf, wf_ids. compute_done.
  - unfold GraphSpec.is_vertex. compute_done.
  - vm_compute. lia.
Defined.

(** X16.  [reversePostOrder] starts with the entry, and it orders the
    vertices along the edges: for an edge from [u] to [w] with [u] in the
    order, [w] comes later in the order than [u], unless [w] reaches [u],
    that is unless the edge closes a cycle. *)
Theorem reversePostOrder_orders_edges
    (g : ChcDirectedGraph.t) (depth : nat) (order : list SymRef)
    (u w : SymRef) (i : nat) :
  GraphSpec.wf g → GraphSpec.is_vertex g (ChcDirectedGraph.getEntry g) →
  2 * size (ChcDirectedGraph.edges g) < depth →
  reversePostOrder depth g (ChcDirectedGraph.adjacencyFrom g) = Some (inr order) →
  DFSSpec.edge g u w → order !! i = Some u →
  head order = Some (ChcDirectedGraph.getEntry g)
  ∧ ((∃ j, i < j ∧ order !! j = Some w) ∨ DFSSpec.reach g w u).
Proof.
  intros Hwf Hv Hd Hrev Hedge Hi.
  destruct (DFSFacts.run_entry g depth Hwf Hv Hd) as (s & Hrun & Hs & He & Hlast).
  assert (Horder : order = reverse (DFS.captured s)).
  { unfold reversePostOrder, postOrder in Hrev.
    change (DFS.run g (ChcDirectedGraph.adjacencyFrom g) depth _ _ _)
      with (DFS.run g (ChcDirectedGraph.adjacencyFrom g) depth
              DFSSpec.preorder DFSSpec.postorder
              {| DFS.marked := ∅; DFS.captured := [] |}) in Hrev.
    rewrite Hrun in Hrev. congruence. }
  subst order. split.
  { rewrite head_reverse. done. }
  destruct Hs as (_ & _ & _ & _ & _ & Htop & _).
  assert (Hlt : i < length (DFS.captured s)).
  { apply lookup_lt_Some in Hi. by rewrite length_reverse in Hi. }
  rewrite reverse_lookup in Hi by done.
  destruct (Htop _ _ _ Hi Hedge) as [(j & Hj & Hjw)|Hr]; [left|by right].
  exists (length (DFS.captured s) - S j). split; [lia|].
  rewrite reverse_lookup by lia.
  replace (length (DFS.captured s) - S (length (DFS.captured s) - S j)) with j by lia.
  done.
Qed.

Lemma reversePostOrder_orders_edges_witness :
  head [0; 5; 7] = Some (ChcDirectedGraph.getEntry Examples.g_multi)
  ∧ ((∃ j, 0 < j ∧ [0; 5; 7] !! j = Some 5) ∨ DFSSpec.reach Examples.g_multi 5 0).
Proof.
  apply (reversePostOrder_orders_edges Examples.g_multi 7 [0; 5; 7] 0 5 0).
  - unfold GraphSpec.wf, wf_ids. compute_done.
  - unfold GraphSpec.is_vertex. compute_done.
  - vm_compute. lia.
  - vm_compute. reflexivity.
  - unfold DFSSpec.edge. compute_done.
  - reflexivity.
Defined.

(** ** Chains of edges of a hypergraph *)

Module ChainFacts.
Import ChcDirectedHyperGraph HyperGraphSpec ChainSpec HyperContract.

Lemma map_m_getEdgeLabel c chain es :
  chain_edges c chain es → map_m getEdgeLabel chain c = (inr (fla <$> es), c).
Proof.
  induction 1 as [|i e chain es Hi _ IH]; [done|].
  cbn [map_m]. rewrite (bind_getEdgeLabel _ _ _ _ Hi).
  rewrite st_bind_run, IH. done.
Qed.

Lemma map_m_getTarget c chain es :
  chain_edges c chain es → map_m getTarget chain c = (inr (to <$> es), c).
Proof.
  induction 1 as [|i e chain es Hi _ IH]; [done|].
  cbn [map_m]. rewrite (bind_getTarget _ _ _ _ Hi).
  rewrite st_bind_run, IH. done.
Qed.

Lemma chainSubst_run g c chain es : ∀ subMap,
  chain_edges c chain es → connected es →
  chainSubst g chain subMap c = (inr (chainMap g es subMap), c).
Proof.
  intros subMap Hch. revert subMap.
  induction Hch as [|i e chain es Hi Hch IH]; intros subMap Hcon; [done|].
  destruct Hch as [|o e' chain es Ho Hch]; [done|].
  destruct Hcon as [Hf Hcon].
  cbn [chainSubst chainMap]. rewrite (bind_getTarget _ _ _ _ Hi).
  rewrite (bind_getSources _ _ _ _ Ho), Hf. cbn [length head].
  rewrite !bool_decide_true by done. cbn [andb]. rewrite st_bind_assert.
  by apply IH.
Qed.

Lemma chain_head_last c chain es efirst elast :
  chain_edges c chain es → head es = Some efirst → last es = Some elast →
  ∃ ifirst ilast, head chain = Some ifirst ∧ last chain = Some ilast
                  ∧ edges c !! ifirst = Some efirst ∧ edges c !! ilast = Some elast.
Proof.
  intros Hch Hh Hl.
  destruct Hch as [|i e chain es Hi Hch]; [done|]. injection Hh as ->.
  exists i. cbn [head].
  assert (Hlast : ∀ i e, edges c !! i = Some e →
            ∃ ilast, last (i :: chain) = Some ilast
                     ∧ ∀ elast, last (e :: es) = Some elast → edges c !! ilast = Some elast).
  { clear Hl Hi i efirst. induction Hch as [|o e' chain es Ho Hch IH]; intros i e Hi.
    - exists i. split; [done|]. intros el [= <-]. done.
    - destruct (IH o e' Ho) as (il & Hil & Hel). exists il. split; [done|].
      intros el Hel'. apply Hel. done. }
  destruct (Hlast i efirst Hi) as (il & Hil & Hel). exists il.
  split; [done|]. split; [done|]. split; [done|]. by apply Hel.
Qed.

Lemma mergeEdges_chain c chain es efirst elast s :
  chain_edges c chain es → 2 ≤ length chain → connected es →
  head es = Some efirst → last es = Some elast → from efirst = [s] →
  mergeEdges chain c
  = (inr (summary c s (to elast) es),
     set_edges (<[fresh (dom (edges c)) := summary c s (to elast) es]> (edges c)) c).
Proof.
  intros Hch Hlen Hcon Hh Hl Hs.
  destruct (chain_head_last c chain es efirst elast Hch Hh Hl)
    as (i & o & Hhi & Hlo & Hi & Ho).
  unfold mergeEdges, mergeLabels. rewrite Hhi, Hlo.
  rewrite (bool_decide_true (2 ≤ length chain)) by done.
  st_norm. rewrite (bind_getSources _ _ _ _ Hi), Hs. cbn [length head].
  rewrite ?bool_decide_true by done.
  st_norm. rewrite (bind_getTarget _ _ _ _ Ho).
  st_norm. rewrite (bind_getSources _ _ _ _ Hi), Hs. cbn [head].
  st_norm. rewrite (bind_getTarget _ _ _ _ Ho).
  rewrite st_bind_run, (st_bind_run (map_m getEdgeLabel chain)).
  rewrite (map_m_getEdgeLabel _ _ _ Hch), st_bind_get.
  rewrite st_bind_run, (chainSubst_run _ _ _ _ _ Hch Hcon).
  cbn [mret St_ret st_ret]. unfold newEdge. st_norm.
  apply hyper_getEdge_run. apply lookup_insert_eq.
Qed.

Lemma deleteNode_run c v :
  deleteNode v c
  = (inr tt,
     set_edges (filter (λ kv, bool_decide (to kv.2 = v)
                              || bool_decide (v ∈ from kv.2) = false)
                       (edges c)) c).
Proof. reflexivity. Qed.

Lemma deleteNode_lookup c v n e :
  edges (deleteNode v c).2 !! n = Some e ↔ edges c !! n = Some e ∧ ¬ touches e v.
Proof.
  rewrite deleteNode_run. cbn [snd edges set_edges].
  rewrite map_lookup_filter_Some. cbn [snd]. unfold touches.
  rewrite orb_false_iff, !bool_decide_eq_false. tauto.
Qed.

Lemma for_each_deleteNode c vs :
  ∃ c', for_each vs deleteNode c = (inr tt, c')
        ∧ predicates c' = predicates c ∧ logic c' = logic c
        ∧ ∀ n e, edges c' !! n = Some e
                 ↔ edges c !! n = Some e ∧ Forall (λ v, ¬ touches e v) vs.
Proof.
  apply (for_each_inv
           (λ done c', predicates c' = predicates c ∧ logic c' = logic c
                       ∧ ∀ n e, edges c' !! n = Some e
                                ↔ edges c !! n = Some e
                                  ∧ Forall (λ v, ¬ touches e v) done)).
  - split; [done|]. split; [done|]. intros n e. rewrite Forall_nil. tauto.
  - intros done v rest c1 _ (Hp & Hl & Hed). eexists. split; [apply deleteNode_run|].
    split; [done|]. split; [done|]. intros n e.
    pose proof (deleteNode_lookup c1 v n e) as Hd. rewrite deleteNode_run in Hd.
    cbn [snd] in Hd. rewrite Hd, Hed, Forall_app, Forall_singleton. tauto.
Qed.

End ChainFacts.

(** X17.  [contractTrivialChain] on a chain of at least two edges of a
    hypergraph, where the first edge has the single source [s] and every
    later edge has as its single source the target of the edge before it:
    the call returns the summary edge, from [s] to the target of the last
    edge, with the label [mergeLabels] computes for the chain and an id no
    edge had; afterwards the graph holds the edges it held and the summary
    edge, except those that touch the target of an edge of the chain other
    than the last one; the predicates and the logic are kept. *)
Theorem contractTrivialChain_summary
    (g : ChcDirectedHyperGraph.t) (chain : list EId)
    (es : list ChcDirectedHyperGraph.DirectedHyperEdge)
    (efirst elast : ChcDirectedHyperGraph.DirectedHyperEdge) (s : SymRef)
    (n : EId) (e : ChcDirectedHyperGraph.DirectedHyperEdge) :
  ChainSpec.chain_edges g chain es → 2 ≤ length chain → ChainSpec.connected es →
  head es = Some efirst → last es = Some elast →
  ChcDirectedHyperGraph.from efirst = [s] →
  let summary := ChainSpec.summary g s (ChcDirectedHyperGraph.to elast) es in
  ∃ g', ChcDirectedHyperGraph.contractTrivialChain chain g = (inr summary, g')
        ∧ (ChcDirectedHyperGraph.edges g' !! n = Some e
           ↔ (ChcDirectedHyperGraph.edges g !! n = Some e
              ∨ (n = fresh (dom (ChcDirectedHyperGraph.edges g)) ∧ e = summary))
             ∧ Forall (λ v, ¬ ChainSpec.touches e v)
                      (removelast (ChcDirectedHyperGraph.to <$> es)))
        ∧ ChcDirectedHyperGraph.predicates g' = ChcDirectedHyperGraph.predicates g
        ∧ ChcDirectedHyperGraph.logic g' = ChcDirectedHyperGraph.logic g.
Proof.
  intros Hch Hlen Hcon Hh Hl Hs summary.
  set (c := ChcDirectedHyperGraph.set_edges
              (<[fresh (dom (ChcDirectedHyperGraph.edges g)) := summary]>
                 (ChcDirectedHyperGraph.edges g)) g).
  assert (Hfresh : ChcDirectedHyperGraph.edges g
                     !! fresh (dom (ChcDirectedHyperGraph.edges g)) = None)
    by apply not_elem_of_dom, is_fresh.
  assert (Hch' : ChainSpec.chain_edges c chain es).
  { eapply Forall2_impl; [exact Hch|]. intros i e' Hi.
    unfold c. cbn [ChcDirectedHyperGraph.edges ChcDirectedHyperGraph.set_edges].
    rewrite lookup_insert_ne; [done|]. congruence. }
  destruct (ChainFacts.for_each_deleteNode c
              (removelast (ChcDirectedHyperGraph.to <$> es)))
    as (g' & Hdel & Hp & Hlg & Hed).
  exists g'. split.
  - unfold ChcDirectedHyperGraph.contractTrivialChain.
    rewrite bool_decide_true by done. rewrite st_bind_assert.
    rewrite st_bind_run,
      (ChainFacts.mergeEdges_chain g chain es efirst elast s) by done.
    fold summary. fold c.
    rewrite st_bind_run, (ChainFacts.map_m_getTarget _ _ _ Hch').
    rewrite st_bind_run, Hdel. done.
  - split; [|done]. rewrite Hed. unfold c.
    cbn [ChcDirectedHyperGraph.edges ChcDirectedHyperGraph.set_edges].
    rewrite lookup_insert.
    destruct (decide (fresh (dom (ChcDirectedHyperGraph.edges g)) = n)) as [<-|Hne].
    + rewrite Hfresh. split.
      * intros [[= <-] HF]. split; [|done]. by right.
      * intros [[?|[_ ->]] HF]; [done|]. done.
    + split.
      * intros [He HF]. split; [by left|done].
      * intros [[He|[-> _]] HF]; [done|done].
Qed.

Lemma contractTrivialChain_summary_witness :
  let es := [Examples.hedge [4] 5 (App 50 []) 0; Examples.hedge [5] 6 (App 51 []) 1;
             Examples.hedge [6] 7 (App 52 []) 2] in
  let summary := ChainSpec.summary Examples.h_chain 4 7 es in
  ∃ g', ChcDirectedHyperGraph.contractTrivialChain [0; 1; 2] Examples.h_chain
        = (inr summary, g')
        ∧ (ChcDirectedHyperGraph.edges g' !! 3
             = Some (Examples.hedge [6] 8 (App 53 []) 3)
           ↔ (ChcDirectedHyperGraph.edges Examples.h_chain !! 3
                = Some (Examples.hedge [6] 8 (App 53 []) 3)
              ∨ (3 = fresh (dom (ChcDirectedHyperGraph.edges Examples.h_chain))
                 ∧ Examples.hedge [6] 8 (App 53 []) 3 = summary))
             ∧ Forall (λ v, ¬ ChainSpec.touches
                               (Examples.hedge [6] 8 (App 53 []) 3) v)
                      (removelast (ChcDirectedHyperGraph.to <$> es)))
        ∧ ChcDirectedHyperGraph.predicates g'
          = ChcDirectedHyperGraph.predicates Examples.h_chain
        ∧ ChcDirectedHyperGraph.logic g'
          = ChcDirectedHyperGraph.logic Examples.h_chain.
Proof.
  intros es.
  apply (contractTrivialChain_summary Examples.h_chain [0; 1; 2] es
           (Examples.hedge [4] 5 (App 50 []) 0)
           (Examples.hedge [6] 7 (App 52 []) 2) 4 3
           (Examples.hedge [6] 8 (App 53 []) 3)).
  - repeat constructor.
  - simpl. lia.
  - simpl. done.
  - reflexivity.
  - reflexivity.
  - reflexivity.
Defined.

(** ** Contraction of a vertex of a normal hypergraph *)

Module NormalContract.
Import ChcDirectedHyperGraph HyperGraphSpec ChainSpec NormalContractSpec
  HyperContract.

Lemma single_source (srcs : list SymRef) :
  length srcs = 1 → ∃ s, srcs = [s].
Proof. destruct srcs as [|s [|]]; try done. intros _. by exists s. Qed.

Lemma normal_mergedEdge_ext g c ein eout s n :
  predicates c = predicates g → logic c = logic g →
  mergedEdge c ein eout s n = mergedEdge g ein eout s n.
Proof.
  intros Hp Hl.
  unfold mergedEdge, chainLabel, chainMap, getStateVersion, getNextStateVersion.
  by rewrite Hp, Hl.
Qed.

Section Contract.
Variable g : t.
Variable sym : SymRef.
Hypothesis Hwf : wf_ids id (edges g).
Hypothesis Hone : single_sources g.

Local Abbreviation Base := (Base g sym).
Local Abbreviation Prod := (Prod g).

Let L := forEachEdge g.
Let ins := id <$> filter (λ e, to e = sym) L.
Let outs := outgoingIds L sym.

Lemma Prod_grows c c' i o : Grows c c' → Prod c i o → Prod c' i o.
Proof.
  intros Hg Hp ein eout s Hi Ho Hs. destruct (Hp ein eout s Hi Ho Hs) as [n Hn].
  exists n. by apply Hg.
Qed.

Lemma merge_pair c i o ein eout :
  Base c → edges g !! i = Some ein → edges g !! o = Some eout →
  to ein = sym → sym ∈ from eout →
  ∃ c', (srcs ← getSources o;
         if bool_decide (1 < length srcs) then throw unable
         else _ ← mergeEdges [i; o]; mret tt) c = (inr tt, c')
        ∧ Base c' ∧ Grows c c' ∧ Prod c' i o.
Proof.
  intros (Hp & Hl & Hgrow & Honly) Hi Ho Hto Hin.
  destruct (single_source _ (Hone _ _ Hi)) as [s Hs].
  destruct (single_source _ (Hone _ _ Ho)) as [s' Hs'].
  assert (s' = sym) as ->.
  { rewrite Hs' in Hin. by apply list_elem_of_singleton in Hin. }
  rewrite (bind_getSources _ _ _ _ (Hgrow _ _ Ho)), Hs'. cbn [length].
  rewrite bool_decide_false by lia.
  rewrite st_bind_run.
  rewrite (ChainFacts.mergeEdges_chain c [i; o] [ein; eout] ein eout s); cycle 1.
  { repeat constructor; by apply Hgrow. }
  { done. }
  { split; [congruence|done]. }
  { done. }
  { done. }
  { done. }
  set (n := fresh (dom (edges c))).
  assert (Hn : edges c !! n = None) by apply not_elem_of_dom, is_fresh.
  change (summary c s (to eout) [ein; eout]) with (mergedEdge c ein eout s n).
  rewrite (normal_mergedEdge_ext g c) by done.
  eexists. split; [reflexivity|]. split; [|split].
  - split; [done|]. split; [done|]. split.
    + intros m e He. cbn [edges set_edges]. rewrite lookup_insert_ne; [by apply Hgrow|].
      intros <-. apply Hgrow in He. congruence.
    + intros m e. cbn [edges set_edges]. rewrite lookup_insert. case_decide as Hm.
      * intros [= <-]. subst m. right. by exists i, o, ein, eout, s.
      * apply Honly.
  - intros m e He. cbn [edges set_edges]. rewrite lookup_insert_ne; [done|]. congruence.
  - intros ein' eout' s0 Hi' Ho' Hs0. exists n. cbn [edges set_edges].
    rewrite lookup_insert_eq.
    assert (ein' = ein) as -> by congruence.
    assert (eout' = eout) as -> by congruence.
    assert (s0 = s) as -> by congruence. done.
Qed.

Lemma inner_loop_normal c i ein :
  Base c → edges g !! i = Some ein → to ein = sym →
  ∃ c', for_each outs (λ outgoingId,
          srcs ← getSources outgoingId;
          if bool_decide (1 < length srcs) then throw unable
          else _ ← mergeEdges [i; outgoingId]; mret tt) c = (inr tt, c')
        ∧ Base c' ∧ Grows c c' ∧ ∀ o, o ∈ outs → Prod c' i o.
Proof.
  intros Hb Hi Ht.
  apply (for_each_inv (λ done c', Base c' ∧ Grows c c' ∧ ∀ o, o ∈ done → Prod c' i o)).
  - split; [done|]. split; [by intros ??|]. intros o Ho. by apply elem_of_nil in Ho.
  - intros done o rest c1 Houts (Hb1 & Hg1 & Hp1).
    assert (Ho : o ∈ outs).
    { rewrite Houts. apply elem_of_app. right. by left. }
    apply (hyper_elem_of_outs g sym Hwf) in Ho as (eout & Ho & Hf).
    destruct (merge_pair c1 i o ein eout Hb1 Hi Ho Ht Hf) as (c2 & Hm & Hb2 & Hg2 & Hp2).
    exists c2. split; [exact Hm|].
    split; [done|]. split; [intros n e He; by apply Hg2, Hg1|].
    intros o' Ho'. apply elem_of_app in Ho' as [Ho'|Ho'].
    + eapply Prod_grows; [exact Hg2|by apply Hp1].
    + apply list_elem_of_singleton in Ho'. by subst o'.
Qed.

Lemma outer_loop_normal :
  ∃ c', for_each ins (outer_body outs) g = (inr tt, c')
        ∧ Base c' ∧ ∀ i o, i ∈ ins → o ∈ outs → Prod c' i o.
Proof.
  apply (for_each_inv (λ done c', Base c' ∧ ∀ i o, i ∈ done → o ∈ outs → Prod c' i o)).
  - split; [by repeat split; auto|]. intros i o Hi. by apply elem_of_nil in Hi.
  - intros done i rest c1 Hins (Hb1 & Hp1).
    assert (Hi : i ∈ ins).
    { rewrite Hins. apply elem_of_app. right. by left. }
    apply (hyper_elem_of_ins g sym Hwf) in Hi as (ein & Hi & Ht).
    destruct (inner_loop_normal c1 i ein Hb1 Hi Ht) as (c2 & Hm & Hb2 & Hg2 & Hp2).
    exists c2. split.
    + unfold outer_body.
      rewrite (bind_getSources _ _ _ _ (proj1 (proj2 (proj2 Hb1)) _ _ Hi)).
      rewrite bool_decide_false; [exact Hm|].
      rewrite (Hone _ _ Hi). lia.
    + split; [done|]. intros i' o Hi' Ho.
      apply elem_of_app in Hi' as [Hi'|Hi'].
      * eapply Prod_grows; [exact Hg2|by apply Hp1].
      * apply list_elem_of_singleton in Hi'. subst i'. by apply Hp2.
Qed.

Theorem contractVertex_normal :
  is_vertex g sym →
  ∃ g', contractVertex sym g = (inr tt, g') ∧ contracted sym g g'
        ∧ single_sources g'.
Proof.
  intros (k & ek & Hk & Hv). cbn in Hv.
  assert (Hend : sym ∈ endpoints L).
  { by apply (hyper_endpoints_vertex g sym Hwf k ek). }
  destruct outer_loop_normal as (c & Hloops & (Hp & Hl & Hgrow & Honly) & Hprod).
  exists (deleteNode sym c).2. split.
  { unfold contractVertex. st_norm.
    change (adjacencyFrom g) with (foldl adjStep {| incoming := ∅; outgoing := ∅ |} L).
    unfold getIncomingEdgesFor, getOutgoingEdgesFor.
    rewrite hyper_adj_incoming, hyper_adj_outgoing, !decide_True by done.
    cbn [incoming outgoing]. rewrite !lookup_empty. cbn [default from_option app].
    st_norm. fold ins outs.
    change (for_each ins _) with (for_each ins (outer_body outs)).
    rewrite st_bind_run, Hloops. reflexivity. }
  split; [split; [|split; [|split]]|].
  - intros n e He. apply ChainFacts.deleteNode_lookup in He. tauto.
  - intros n e He Ht. apply ChainFacts.deleteNode_lookup. split; [by apply Hgrow|done].
  - intros i o ein eout s Hi Ho Ht Hs Hf Hne1 Hne2.
    destruct (Hprod i o) with (ein := ein) (eout := eout) (s := s) as [n Hn]; try done.
    { apply (hyper_elem_of_ins g sym Hwf). eauto. }
    { apply (hyper_elem_of_outs g sym Hwf). exists eout. split; [done|].
      rewrite Hf. by left. }
    exists n. apply ChainFacts.deleteNode_lookup. split; [done|].
    unfold touches, mergedEdge. cbn [to from].
    intros [?|Hin]; [done|]. apply list_elem_of_singleton in Hin. congruence.
  - intros n e He. apply ChainFacts.deleteNode_lookup in He as [He _]. by apply Honly.
  - intros n e He. apply ChainFacts.deleteNode_lookup in He as [He _].
    destruct (Honly n e He) as [Hg|(i & o & ein & eout & s & _ & _ & _ & _ & _ & ->)].
    + by apply (Hone n).
    + done.
Qed.

End Contract.
End NormalContract.

(** X18.  On a hypergraph that [isNormalGraph] accepts, [contractVertex(v)]
    of a vertex [v] never throws, also when [v] has a self-loop: it returns,
    no edge touches
    [v] afterwards, the edges that did not touch [v] are kept, every pair
    of an edge into [v] and an edge out of [v] that are not loops has its
    merged edge, nothing else is added, and the result is again accepted by
    [isNormalGraph].  A self-loop at [v] is dropped with [v]. *)
Theorem contractVertex_of_normal_graph
    (g : ChcDirectedHyperGraph.t) (sym : SymRef) :
  HyperGraphSpec.wf g →
  ChcDirectedHyperGraph.isNormalGraph g = (inr true, g) →
  NormalContractSpec.is_vertex g sym →
  ∃ g', ChcDirectedHyperGraph.contractVertex sym g = (inr tt, g')
        ∧ NormalContractSpec.contracted sym g g'
        ∧ ChcDirectedHyperGraph.isNormalGraph g' = (inr true, g').
Proof.
  intros Hwf Hn Hv. apply Normal.isNormalGraph_true in Hn as [_ Hn].
  destruct (NormalContract.contractVertex_normal g sym Hwf Hn Hv)
    as (g' & Hrun & Hc & Hone).
  exists g'. split; [done|]. split; [done|].
  rewrite Normal.isNormalGraph_run by (by apply Normal.single_nonempty).
  by rewrite bool_decide_true.
Qed.

Lemma contractVertex_of_normal_graph_witness :
  ∃ g', ChcDirectedHyperGraph.contractVertex 5 Examples.h_loop = (inr tt, g')
        ∧ NormalContractSpec.contracted 5 Examples.h_loop g'
        ∧ ChcDirectedHyperGraph.isNormalGraph g' = (inr true, g').
Proof.
  apply (contractVertex_of_normal_graph Examples.h_loop 5).
  - unfold HyperGraphSpec.wf, wf_ids. compute_done.
  - vm_compute. reflexivity.
  - unfold NormalContractSpec.is_vertex, ChainSpec.touches. compute_done.
Defined.

(** ** The conversions between graphs and hypergraphs *)

Module ConversionFacts.
Import Conversion ConversionSpec.

Lemma map_m_pure {S A B} (f : A → St S B) (F : A → B) (l : list A) (s : S) :
  Forall (λ a, f a s = (inr (F a), s)) l →
  ChcDirectedHyperGraph.map_m f l s = (inr (F <$> l), s).
Proof.
  induction 1 as [|a l Ha _ IH]; [done|].
  cbn [ChcDirectedHyperGraph.map_m]. rewrite st_bind_run, Ha.
  rewrite st_bind_run, IH. done.
Qed.

Lemma map_m_may_throw {S A B} (f : A → St S B) (E : exn) (l : list A) (s : S) :
  Forall (λ a, (∃ b, f a s = (inr b, s)) ∨ f a s = (inl E, s)) l →
  (∃ bs, ChcDirectedHyperGraph.map_m f l s = (inr bs, s))
  ∨ ChcDirectedHyperGraph.map_m f l s = (inl E, s).
Proof.
  induction 1 as [|a l Ha _ IH]; [left; by eexists|].
  cbn [ChcDirectedHyperGraph.map_m]. rewrite st_bind_run.
  destruct Ha as [[b ->]| ->]; [|by right].
  rewrite st_bind_run.
  destruct IH as [[bs ->]| ->]; [left; by eexists|by right].
Qed.

Lemma map_m_throws {S A B} (f : A → St S B) (E : exn) (l : list A) (s : S) :
  Forall (λ a, (∃ b, f a s = (inr b, s)) ∨ f a s = (inl E, s)) l →
  Exists (λ a, f a s = (inl E, s)) l →
  ChcDirectedHyperGraph.map_m f l s = (inl E, s).
Proof.
  induction 1 as [|a l Ha Hl IH]; intros Hex; [by apply Exists_nil in Hex|].
  cbn [ChcDirectedHyperGraph.map_m]. rewrite st_bind_run.
  destruct Ha as [[b Hb]| ->]; [|done].
  rewrite Hb. apply Exists_cons in Hex as [Hex|Hex]; [congruence|].
  rewrite st_bind_run, (IH Hex). done.
Qed.

Lemma fold_m_pure {S A B} (f : B → A → St S B) (F : B → A → B) (l : list A)
    (s : S) :
  ∀ b, Forall (λ a, ∀ b, f b a s = (inr (F b a), s)) l →
       fold_m f b l s = (inr (foldl F b l), s).
Proof.
  induction l as [|a l IH]; intros b Hl; [done|].
  apply Forall_cons in Hl as [Ha Hl].
  cbn [fold_m foldl]. rewrite st_bind_run, Ha. by apply IH.
Qed.

Lemma fold_m_may_throw {S A B} (f : B → A → St S B) (E : exn) (l : list A)
    (s : S) :
  ∀ b, Forall (λ a, ∀ b, (∃ b', f b a s = (inr b', s)) ∨ f b a s = (inl E, s)) l →
       (∃ b', fold_m f b l s = (inr b', s)) ∨ fold_m f b l s = (inl E, s).
Proof.
  induction l as [|a l IH]; intros b Hl; [left; by eexists|].
  apply Forall_cons in Hl as [Ha Hl].
  cbn [fold_m]. rewrite st_bind_run.
  destruct (Ha b) as [[b' ->]| ->]; [|by right]. by apply IH.
Qed.

(** The constructor of a hypergraph keeps what the edges carry. *)
Lemma hyper_forEachEdge_newEdge g srcs dst label :
  H.forEachEdge (H.newEdge srcs dst label g).2
  ≡ₚ {| H.from := srcs; H.to := dst; H.fla := label;
        H.id := fresh (dom (H.edges g)) |} :: H.forEachEdge g.
Proof.
  unfold H.forEachEdge.
  change (H.edges (H.newEdge srcs dst label g).2)
    with (<[fresh (dom (H.edges g)) :=
              {| H.from := srcs; H.to := dst; H.fla := label;
                 H.id := fresh (dom (H.edges g)) |}]> (H.edges g)).
  rewrite map_to_list_insert by apply not_elem_of_dom, is_fresh.
  by rewrite fmap_cons.
Qed.

Lemma hyper_make_fold es : ∀ g0,
  let g1 := foldl (λ g e, (H.newEdge (H.from e) (H.to e) (H.fla e) g).2) g0 es in
  hyper_edge_data <$> H.forEachEdge g1
    ≡ₚ (hyper_edge_data <$> H.forEachEdge g0) ++ (hyper_edge_data <$> es)
  ∧ H.predicates g1 = H.predicates g0 ∧ H.logic g1 = H.logic g0.
Proof.
  induction es as [|e es IH]; intros g0.
  - simpl. by rewrite app_nil_r.
  - cbn [foldl]. cbn zeta in IH.
    destruct (IH (H.newEdge (H.from e) (H.to e) (H.fla e) g0).2) as (Hp & Hpr & Hl).
    cbn zeta. split; [|by rewrite Hpr, Hl].
    rewrite Hp, hyper_forEachEdge_newEdge, !fmap_cons.
    by rewrite <- Permutation_middle.
Qed.

Lemma hyper_make_data es p l :
  hyper_edge_data <$> H.forEachEdge (H.make es p l) ≡ₚ hyper_edge_data <$> es
  ∧ H.predicates (H.make es p l) = p ∧ H.logic (H.make es p l) = l.
Proof.
  unfold H.make.
  destruct (hyper_make_fold es {| H.edges := ∅; H.predicates := p; H.logic := l |})
    as (Hp & Hpr & Hl).
  split; [|done]. rewrite Hp. unfold H.forEachEdge. cbn [H.edges].
  by rewrite map_to_list_empty.
Qed.

Section Facts.

Variable toBase toSource toTarget getVarVersionZero getUnversioned : PTRef → PTRef.
Variable sendVarThroughTime : PTRef → Z → PTRef.
Variable isVersioned : PTRef → bool.
Variable linearRepresentation
  : list (SymRef * list PTRef) → LinearCanonicalPredicateRepresentation.
Variable nonlinearRepresentation
  : list (SymRef * list PTRef) → NonlinearCanonicalPredicateRepresentation.

#[local] Abbreviation toHyper :=
  (toHyperGraph toSource toTarget getUnversioned isVersioned nonlinearRepresentation).
#[local] Abbreviation toNormal :=
  (toNormalGraph toBase getVarVersionZero sendVarThroughTime linearRepresentation).

Lemma toHyperGraph_run g :
  versioned isVersioned g →
  ∃ es reps,
    toHyper g = (inr (H.make es (nonlinearRepresentation reps) (G.logic g)), g)
    ∧ hyper_edge_data <$> es
      = hyperEdge toSource toTarget getUnversioned g <$> G.forEachEdge g.
Proof.
  intros Hv. unfold toHyperGraph. rewrite st_bind_run. cbn [get]. cbn zeta.
  rewrite st_bind_run.
  erewrite (map_m_pure _
    (λ e, {| H.from := [G.from e]; H.to := G.to e;
             H.fla := varSubstitute (G.fla e)
               (hyperSubst toSource toTarget getUnversioned g (G.from e) (G.to e));
             H.id := 0 |})).
  - do 2 eexists. split; [reflexivity|].
    rewrite <- list_fmap_compose. done.
  - apply Forall_forall. intros e He. destruct (Hv e He) as [Hs Ht].
    rewrite st_bind_run.
    erewrite (fold_m_pure _
      (λ subst sourceVar,
         insertVar sourceVar (toSource (getUnversioned sourceVar)) subst)).
    2:{ eapply Forall_impl; [exact Hs|]. intros v Hver b. cbn beta.
        rewrite Hver. done. }
    rewrite st_bind_run.
    erewrite (fold_m_pure _
      (λ subst targetVar,
         insertVar targetVar (toTarget (getUnversioned targetVar)) subst)).
    2:{ eapply Forall_impl; [exact Ht|]. intros v Hver b. cbn beta.
        rewrite Hver. done. }
    done.
Qed.


Lemma elem_of_hyper_forEachEdge (h : H.t) e :
  e ∈ H.forEachEdge h ↔ ∃ i, H.edges h !! i = Some e.
Proof.
  unfold H.forEachEdge. rewrite list_elem_of_fmap. split.
  - intros [[i e'] [-> Hin]]. exists i. by apply elem_of_map_to_list.
  - intros [i Hi]. exists (i, e). split; [done|]. by apply elem_of_map_to_list.
Qed.

Lemma toHyperGraph_result g :
  versioned isVersioned g →
  ∃ h, toHyper g = (inr h, g)
       ∧ hyper_edge_data <$> H.forEachEdge h
         ≡ₚ hyperEdge toSource toTarget getUnversioned g <$> G.forEachEdge g
       ∧ (∃ reps, H.predicates h = nonlinearRepresentation reps)
       ∧ H.logic h = G.logic g
       ∧ map_Forall (λ _ e, length (H.from e) = 1) (H.edges h).
Proof.
  intros Hv. destruct (toHyperGraph_run g Hv) as (es & reps & Hrun & Hes).
  destruct (hyper_make_data es (nonlinearRepresentation reps) (G.logic g))
    as (Hd & Hp & Hl).
  eexists. split; [exact Hrun|]. rewrite Hes in Hd.
  split; [exact Hd|]. split; [by exists reps|]. split; [exact Hl|].
  intros i e Hi.
  assert (Hin : hyper_edge_data e
                ∈ hyper_edge_data
                    <$> H.forEachEdge (H.make es (nonlinearRepresentation reps)
                                         (G.logic g))).
  { apply list_elem_of_fmap. exists e. split; [done|].
    apply elem_of_hyper_forEachEdge. by exists i. }
  rewrite Hd in Hin. apply list_elem_of_fmap in Hin as (e0 & Heq & _).
  unfold hyper_edge_data, hyperEdge in Heq. injection Heq as -> _ _. done.
Qed.

Lemma single_normal (h : H.t) :
  map_Forall (λ _ e, length (H.from e) = 1) (H.edges h) →
  H.isNormalGraph h = (inr true, h).
Proof.
  intros Hs. rewrite Normal.isNormalGraph_run.
  - by rewrite bool_decide_true.
  - intros i e Hi. specialize (Hs i e Hi). cbn beta in Hs.
    by destruct (H.from e).
Qed.

(** The loop over the vertices either passes or fails an assertion. *)
Lemma vertices_loop (h : H.t) (l : list SymRef) :
  Forall (λ sym, over_variables (sourceTermFor (H.predicates h) sym)) l →
  H.map_m (λ sym,
      vars ← H.map_m (λ var, _ ← assert (isVar var); mret var)
                (predicateArgsInOrder (sourceTermFor (H.predicates h) sym));
      mret (sym, toBase <$> vars)) l h
  = (inr ((λ sym, (sym, toBase <$> predicateArgsInOrder
                                      (sourceTermFor (H.predicates h) sym)))
            <$> l), h).
Proof.
  intros Hl. apply map_m_pure. eapply Forall_impl; [exact Hl|].
  intros sym Hsym. cbn beta zeta. rewrite st_bind_run.
  rewrite (map_m_pure _ id).
  - by rewrite list_fmap_id.
  - eapply Forall_impl; [exact Hsym|]. intros v Hv. cbn beta.
    by rewrite Hv.
Qed.

Lemma vertices_loop_may_throw (h : H.t) (l : list SymRef) :
  let loop :=
    H.map_m (λ sym,
      vars ← H.map_m (λ var, _ ← assert (isVar var); mret var)
                (predicateArgsInOrder (sourceTermFor (H.predicates h) sym));
      mret (sym, toBase <$> vars)) l in
  (∃ reps, loop h = (inr reps, h)) ∨ loop h = (inl assertion_failure, h).
Proof.
  cbn zeta. apply map_m_may_throw. apply Forall_forall. intros sym _.
  rewrite st_bind_run.
  destruct (map_m_may_throw (λ var, _ ← assert (isVar var); mret var)
              assertion_failure
              (predicateArgsInOrder (sourceTermFor (H.predicates h) sym)) h)
    as [[vs ->]| ->]; [|left; by eexists|by right].
  apply Forall_forall. intros v _. destruct (isVar v); [left; by eexists|by right].
Qed.

Lemma toNormalGraph_run (h : H.t) :
  Forall (λ sym, over_variables (sourceTermFor (H.predicates h) sym))
    (H.getVertices h) →
  map_Forall (λ _ e, length (H.from e) = 1) (H.edges h) →
  ∃ es reps,
    toNormal h = (inr (G.make es (linearRepresentation reps) (H.logic h)), h)
    ∧ Some <$> (ReverseSpec.edge_data <$> es)
      = normalEdge toBase getVarVersionZero sendVarThroughTime h
          <$> H.forEachEdge h.
Proof.
  intros Hvars Hs. unfold toNormalGraph. rewrite st_bind_run. cbn [get].
  rewrite st_bind_run, (vertices_loop h _ Hvars). cbn zeta.
  rewrite st_bind_run.
  erewrite (map_m_pure _
    (λ edge, {| G.from := default 0 (head (H.from edge)); G.to := H.to edge;
                G.fla := varSubstitute (H.fla edge)
                  (normalSubst toBase getVarVersionZero sendVarThroughTime h
                     (default 0 (head (H.from edge))) (H.to edge));
                G.id := 0 |})).
  - do 2 eexists. split; [reflexivity|].
    rewrite <- !list_fmap_compose. apply list_eq_Forall2. apply Forall2_fmap.
    apply Forall_Forall2_diag. apply Forall_forall. intros e He.
    apply elem_of_hyper_forEachEdge in He as [i Hi].
    specialize (Hs i e Hi). cbn beta in Hs.
    unfold normalEdge, compose, ReverseSpec.edge_data. cbn [G.from G.to G.fla].
    destruct (H.from e) as [|s [|]]; done.
  - apply Forall_forall. intros e He.
    apply elem_of_hyper_forEachEdge in He as [i Hi].
    specialize (Hs i e Hi). cbn beta in Hs.
    destruct (H.from e) as [|s [|]] eqn:Hf; try done.
Qed.

Lemma toNormalGraph_throws (h : H.t) i e :
  H.edges h !! i = Some e → length (H.from e) ≠ 1 →
  toNormal h = (inl assertion_failure, h).
Proof.
  intros Hi Hlen. unfold toNormalGraph. rewrite st_bind_run. cbn [get].
  rewrite st_bind_run.
  destruct (vertices_loop_may_throw h (H.getVertices h)) as [[reps ->]| ->];
    [|done].
  cbn zeta. rewrite st_bind_run. rewrite (map_m_throws _ assertion_failure).
  - done.
  - apply Forall_forall. intros e' _. rewrite st_bind_run.
    destruct (H.from e') as [|s [|]]; [by right|left; by eexists|by right].
  - apply Exists_exists. exists e. split.
    + apply elem_of_hyper_forEachEdge. by exists i.
    + rewrite st_bind_run. rewrite bool_decide_false by done. done.
Qed.

End Facts.

End ConversionFacts.

(** X19.  [toHyperGraph] succeeds on a graph whose edges have endpoints with
    versioned state variables, and leaves the graph as it is.  The
    hypergraph has, for every edge of the graph, an edge with that edge's
    source as its only source, the same target, and the label rewritten by
    the substitution of the state variables; it has the logic of the graph,
    and [isNormalGraph] accepts it. *)
Theorem toHyperGraph_gives_normal_graph
    (toSource toTarget getUnversioned : PTRef → PTRef)
    (isVersioned : PTRef → bool)
    (nonlinearRepresentation
       : list (SymRef * list PTRef) → NonlinearCanonicalPredicateRepresentation)
    (g : ChcDirectedGraph.t) :
  ConversionSpec.versioned isVersioned g →
  ∃ h, Conversion.toHyperGraph toSource toTarget getUnversioned isVersioned
         nonlinearRepresentation g = (inr h, g)
       ∧ ConversionSpec.hyper_edge_data <$> ChcDirectedHyperGraph.forEachEdge h
         ≡ₚ ConversionSpec.hyperEdge toSource toTarget getUnversioned g
              <$> ChcDirectedGraph.forEachEdge g
       ∧ ChcDirectedHyperGraph.logic h = ChcDirectedGraph.logic g
       ∧ ChcDirectedHyperGraph.isNormalGraph h = (inr true, h).
Proof.
  intros Hv.
  destruct (ConversionFacts.toHyperGraph_result toSource toTarget getUnversioned
              isVersioned nonlinearRepresentation g Hv)
    as (h & Hrun & Hd & _ & Hl & Hs).
  exists h. split; [exact Hrun|]. split; [exact Hd|]. split; [exact Hl|].
  by apply ConversionFacts.single_normal.
Qed.

Lemma toHyperGraph_gives_normal_graph_witness :
  ∃ h, Conversion.toHyperGraph id id id (λ _, true)
         (λ _, Examples.hpredicates0) Examples.g_multi
       = (inr h, Examples.g_multi)
       ∧ ConversionSpec.hyper_edge_data <$> ChcDirectedHyperGraph.forEachEdge h
         ≡ₚ ConversionSpec.hyperEdge id id id Examples.g_multi
              <$> ChcDirectedGraph.forEachEdge Examples.g_multi
       ∧ ChcDirectedHyperGraph.logic h = ChcDirectedGraph.logic Examples.g_multi
       ∧ ChcDirectedHyperGraph.isNormalGraph h = (inr true, h).
Proof.
  apply (toHyperGraph_gives_normal_graph id id id (λ _, true)
           (λ _, Examples.hpredicates0) Examples.g_multi).
  intros e _. split; apply Forall_forall; reflexivity.
Defined.

(** X20.  On a hypergraph that [isNormalGraph] accepts and whose canonical
    predicate terms are over variables, [toNormalGraph] succeeds and leaves
    the hypergraph as it is.  The graph has, for every edge of the
    hypergraph, an edge from its only source to its target whose label is
    rewritten by the substitution of the state variables; it has the logic
    of the hypergraph. *)
Theorem toNormalGraph_of_normal_graph
    (toBase getVarVersionZero : PTRef → PTRef)
    (sendVarThroughTime : PTRef → Z → PTRef)
    (linearRepresentation
       : list (SymRef * list PTRef) → LinearCanonicalPredicateRepresentation)
    (h : ChcDirectedHyperGraph.t) :
  ChcDirectedHyperGraph.isNormalGraph h = (inr true, h) →
  ConversionSpec.predicates_over_variables (ChcDirectedHyperGraph.predicates h) →
  ∃ g, Conversion.toNormalGraph toBase getVarVersionZero sendVarThroughTime
         linearRepresentation h = (inr g, h)
       ∧ Some <$> (ReverseSpec.edge_data <$> ChcDirectedGraph.forEachEdge g)
         ≡ₚ ConversionSpec.normalEdge toBase getVarVersionZero sendVarThroughTime h
              <$> ChcDirectedHyperGraph.forEachEdge h
       ∧ ChcDirectedGraph.logic g = ChcDirectedHyperGraph.logic h.
Proof.
  intros Hn Hvars. apply Normal.isNormalGraph_true in Hn as [_ Hs].
  destruct (ConversionFacts.toNormalGraph_run toBase getVarVersionZero
              sendVarThroughTime linearRepresentation h)
    as (es & reps & Hrun & Hes); [|exact Hs|].
  { apply Forall_forall. intros sym _. apply Hvars. }
  destruct (ReverseFacts.make_data es (linearRepresentation reps)
              (ChcDirectedHyperGraph.logic h)) as (Hd & _ & Hl).
  eexists. split; [exact Hrun|]. split; [|exact Hl].
  by rewrite Hd, Hes.
Qed.

Lemma toNormalGraph_of_normal_graph_witness :
  ∃ g, Conversion.toNormalGraph id id (λ t _, t) (λ _, Examples.predicates0)
         Examples.h_multi = (inr g, Examples.h_multi)
       ∧ Some <$> (ReverseSpec.edge_data <$> ChcDirectedGraph.forEachEdge g)
         ≡ₚ ConversionSpec.normalEdge id id (λ t _, t) Examples.h_multi
              <$> ChcDirectedHyperGraph.forEachEdge Examples.h_multi
       ∧ ChcDirectedGraph.logic g = ChcDirectedHyperGraph.logic Examples.h_multi.
Proof.
  apply (toNormalGraph_of_normal_graph id id (λ t _, t)
           (λ _, Examples.predicates0) Examples.h_multi).
  - vm_compute. reflexivity.
  - intros sym. split; apply Forall_nil_2.
Defined.

(** X21.  On a hypergraph with an edge that has no source or more than one,
    [toNormalGraph] fails an assertion and leaves the hypergraph as it is. *)
Theorem toNormalGraph_rejects_hyperedge
    (toBase getVarVersionZero : PTRef → PTRef)
    (sendVarThroughTime : PTRef → Z → PTRef)
    (linearRepresentation
       : list (SymRef * list PTRef) → LinearCanonicalPredicateRepresentation)
    (h : ChcDirectedHyperGraph.t) (i : EId)
    (e : ChcDirectedHyperGraph.DirectedHyperEdge) :
  ChcDirectedHyperGraph.edges h !! i = Some e →
  length (ChcDirectedHyperGraph.from e) ≠ 1 →
  Conversion.toNormalGraph toBase getVarVersionZero sendVarThroughTime
    linearRepresentation h = (inl assertion_failure, h).
Proof. apply ConversionFacts.toNormalGraph_throws. Qed.

Lemma toNormalGraph_rejects_hyperedge_witness :
  Conversion.toNormalGraph id id (λ t _, t) (λ _, Examples.predicates0)
    Examples.h_hyper_out = (inl assertion_failure, Examples.h_hyper_out).
Proof.
  apply (toNormalGraph_rejects_hyperedge id id (λ t _, t)
           (λ _, Examples.predicates0) Examples.h_hyper_out 1
           (Examples.hedge [5; 6] 7 (App 51 []) 1)).
  - vm_compute. reflexivity.
  - simpl. lia.
Defined.

(** X22.  A graph that is turned into a hypergraph and back keeps its edges'
    endpoints and its logic: when the state variables are versioned and the
    nonlinear representation is over variables, both conversions succeed,
    and the edges of the result have the sources and targets of the edges of
    the graph, as often. *)
Theorem toNormalGraph_toHyperGraph_keeps_endpoints
    (toBase toSource toTarget getVarVersionZero getUnversioned : PTRef → PTRef)
    (sendVarThroughTime : PTRef → Z → PTRef)
    (isVersioned : PTRef → bool)
    (linearRepresentation
       : list (SymRef * list PTRef) → LinearCanonicalPredicateRepresentation)
    (nonlinearRepresentation
       : list (SymRef * list PTRef) → NonlinearCanonicalPredicateRepresentation)
    (g : ChcDirectedGraph.t) :
  ConversionSpec.versioned isVersioned g →
  (∀ reps, ConversionSpec.predicates_over_variables (nonlinearRepresentation reps)) →
  ∃ h g',
    Conversion.toHyperGraph toSource toTarget getUnversioned isVersioned
      nonlinearRepresentation g = (inr h, g)
    ∧ Conversion.toNormalGraph toBase getVarVersionZero sendVarThroughTime
        linearRepresentation h = (inr g', h)
    ∧ ConversionSpec.ends <$> ChcDirectedGraph.forEachEdge g'
      ≡ₚ ConversionSpec.ends <$> ChcDirectedGraph.forEachEdge g
    ∧ ChcDirectedGraph.logic g' = ChcDirectedGraph.logic g.
Proof.
  intros Hv Hvars.
  destruct (ConversionFacts.toHyperGraph_result toSource toTarget getUnversioned
              isVersioned nonlinearRepresentation g Hv)
    as (h & Hrun & Hd & [reps Hp] & Hl & Hs).
  destruct (ConversionFacts.toNormalGraph_run toBase getVarVersionZero
              sendVarThroughTime linearRepresentation h)
    as (es & reps' & Hrun' & Hes); [|exact Hs|].
  { apply Forall_forall. intros sym _. rewrite Hp. apply Hvars. }
  destruct (ReverseFacts.make_data es (linearRepresentation reps')
              (ChcDirectedHyperGraph.logic h)) as (Hd' & _ & Hl').
  exists h. eexists. split; [exact Hrun|]. split; [exact Hrun'|].
  split; [|by rewrite Hl'].
  set (nend := λ d : list SymRef * SymRef * PTRef,
         match d.1.1 with [s] => Some (s, d.1.2) | _ => None end).
  assert (Hends : ∀ l : list ChcDirectedGraph.DirectedEdge,
                    ConversionSpec.ends <$> l
                       = fst <$> (ReverseSpec.edge_data <$> l)).
  { intros l. by rewrite <- list_fmap_compose. }
  rewrite Hends, Hd'.
  assert (Hsome : Some <$> (fst <$> (ReverseSpec.edge_data <$> es))
                  ≡ₚ Some <$> (ConversionSpec.ends <$> ChcDirectedGraph.forEachEdge g)).
  { transitivity ((λ o : option (SymRef * SymRef * PTRef), fst <$> o)
                    <$> (Some <$> (ReverseSpec.edge_data <$> es))).
    { by rewrite <- !list_fmap_compose. }
    rewrite Hes.
    transitivity (nend <$> (ConversionSpec.hyper_edge_data
                              <$> ChcDirectedHyperGraph.forEachEdge h)).
    { rewrite <- !list_fmap_compose. apply reflexive_eq.
      apply list_eq_Forall2, Forall2_fmap, Forall_Forall2_diag, Forall_forall.
      intros e He. unfold compose, ConversionSpec.normalEdge, nend,
        ConversionSpec.hyper_edge_data. cbn [fst snd].
      by destruct (ChcDirectedHyperGraph.from e) as [|s [|]]. }
    rewrite Hd. by rewrite <- !list_fmap_compose. }
  apply (omap_Permutation id) in Hsome.
  assert (Hid : ∀ A (l : list A), omap id (Some <$> l) = l).
  { intros A l. induction l as [|a l IH]; [done|]. cbn. by rewrite IH. }
  by rewrite !Hid in Hsome.
Qed.

Lemma toNormalGraph_toHyperGraph_keeps_endpoints_witness :
  ∃ h g',
    Conversion.toHyperGraph id id id (λ _, true) (λ _, Examples.hpredicates0)
      Examples.g_multi = (inr h, Examples.g_multi)
    ∧ Conversion.toNormalGraph id id (λ t _, t) (λ _, Examples.predicates0) h
      = (inr g', h)
    ∧ ConversionSpec.ends <$> ChcDirectedGraph.forEachEdge g'
      ≡ₚ ConversionSpec.ends <$> ChcDirectedGraph.forEachEdge Examples.g_multi
    ∧ ChcDirectedGraph.logic g' = ChcDirectedGraph.logic Examples.g_multi.
Proof.
  apply (toNormalGraph_toHyperGraph_keeps_endpoints id id id id id (λ t _, t)
           (λ _, true) (λ _, Examples.predicates0) (λ _, Examples.hpredicates0)
           Examples.g_multi).
  - intros e _. split; apply Forall_forall; reflexivity.
  - intros reps sym. split; apply Forall_nil_2.
Defined.
